(** * SimpleVector: a shallow embedding of the [ArrayPtr] / [SimpleVector]
    headers and the verification of their documented behaviour.

    Sources embedded here:
    - [simple-vector/array_ptr.h]  : class [ArrayPtr]
    - [unnamed/part_000]           : class [SimpleVector], the draft with
                                     assertions (called [part_000] below)
    - [unnamed/part_001]           : class [SimpleVector], the commented
                                     draft (called [part_001] below)

    Modelling conventions.
    - [size_t] is a 64-bit unsigned integer: a [Z] whose arithmetic is
      reduced with [wrap].
    - The free store is a finite map from block identifiers to the
      contents of the array allocated there.  A pointer is a block (or
      none, for a pointer derived from [nullptr]) and an element offset.
    - A C++ call either returns normally, throws, trips an [assert] or
      has undefined behaviour: see [outcome].
    - Element values are copied by [std::move]; a moved-from slot keeps
      its value (as it does for scalar element types).
    - A parameter of type [const Type &] or [Type &&] is a reference
      ([ref]): the callee reads the object it is bound to at the point
      where the source reads it, after whatever the callee has done to
      the free store before.  An argument such as [v[0]] is a place in
      the vector's own array; a temporary lives outside the free store.

    Layout: the definitions come first (the classes, the comparison
    operators, programs over several objects); then the facts about them;
    then the documented behaviour (C1-C10); then further properties of the
    code (X1-X28): constructors, composed operations, swap and the
    comparisons, [ArrayPtr], the moves, growth, safety and ownership,
    reference arguments. *)

From stdpp Require Import base gmap list.
From Stdlib Require Import ZArith Lia.

Local Open Scope Z_scope.

(** ** Machine integers and pointers *)

Definition wrap (z : Z) : Z := z mod 2 ^ 64.

(** The largest element count that [new Type[n]] accepts; a larger request
    throws (the object size may not exceed [PTRDIFF_MAX] bytes and an
    element occupies at least one byte). *)
Definition max_alloc : Z := 2 ^ 63 - 1.

Definition block := nat.

Record ptr := Ptr { base : option block; offset : Z }.

Definition nullptr : ptr := Ptr None 0.

#[global] Instance ptr_eq_dec : EqDecision ptr.
Proof. solve_decision. Defined.

(** [p + k] *)
Definition ptr_add (p : ptr) (k : Z) : ptr := Ptr (base p) (offset p + k).

(** [p - q], defined for two pointers into the same array (or two null
    pointers). *)
Definition ptr_diff (p q : ptr) : option Z :=
  if decide (base p = base q) then Some (offset p - offset q) else None.

Inductive exn := out_of_range | bad_alloc.

#[global] Instance exn_eq_dec : EqDecision exn.
Proof. solve_decision. Defined.

(** ** Outcomes of a call and the monad of C++ statements *)

Inductive outcome (S A : Type) : Type :=
| Ok (a : A) (s : S)          (* normal return *)
| Throw (e : exn) (s : S)     (* an exception leaves the call *)
| AssertFail                  (* [assert] failed: the program aborts *)
| Undefined.                  (* undefined behaviour *)

Arguments Ok {S A} a s.
Arguments Throw {S A} e s.
Arguments AssertFail {S A}.
Arguments Undefined {S A}.

Definition M (S A : Type) : Type := S → outcome S A.

#[global] Instance M_ret {S} : MRet (M S) := λ A a s, Ok a s.

#[global] Instance M_bind {S} : MBind (M S) := λ A B f m s,
  match m s with
  | Ok a s' => f a s'
  | Throw e s' => Throw e s'
  | AssertFail => AssertFail
  | Undefined => Undefined
  end.

Definition throw {S A} (e : exn) : M S A := λ s, Throw e s.
Definition undefined {S A} : M S A := λ _, Undefined.
Definition assert {S} (b : bool) : M S unit :=
  λ s, if b then Ok tt s else AssertFail.

(** ** [array_ptr.h] *)

Record ArrayPtr := MkArrayPtr { raw_ptr_ : ptr }.

#[global] Instance ArrayPtr_eq_dec : EqDecision ArrayPtr.
Proof. solve_decision. Defined.

(** [Get()] *)
Definition Get (a : ArrayPtr) : ptr := raw_ptr_ a.

(** [&a[index]], that is [raw_ptr_ + index] *)
Definition at_index (a : ArrayPtr) (index : Z) : ptr := ptr_add (raw_ptr_ a) index.

(** [explicit operator bool()] *)
Definition to_bool (a : ArrayPtr) : bool := negb (bool_decide (raw_ptr_ a = nullptr)).

(** What a reference parameter ([const Type &], [Type &&]) is bound to:
    an object outside the free store -- a local variable, a temporary, a
    literal --, given by the value it holds, or the object at a place on
    the free store, such as an element of a vector ([v[2]], [*it]). *)
Inductive ref (T : Type) : Type :=
| Outside (x : T)
| Place (p : ptr).

Arguments Outside {T} x.
Arguments Place {T} p.

Section Memory.
Context {T : Type} `{EqDecision T}.
(** [Type{}] *)
Variable T_default : T.

Local Abbreviation heap := (gmap block (list T)).

Definition load (h : heap) (p : ptr) : option T :=
  b ← base p; l ← h !! b;
  if decide (0 ≤ offset p) then l !! Z.to_nat (offset p) else None.

Definition store (h : heap) (p : ptr) (x : T) : option heap :=
  b ← base p; l ← h !! b;
  if decide (0 ≤ offset p < Z.of_nat (length l))
  then Some (<[b := <[Z.to_nat (offset p) := x]> l]> h) else None.

(** [*p] as an rvalue and [*p = x] *)
Definition read (p : ptr) : M heap T :=
  λ h, match load h p with Some x => Ok x h | None => Undefined end.

Definition write (p : ptr) (x : T) : M heap unit :=
  λ h, match store h p x with Some h' => Ok tt h' | None => Undefined end.

(** Reading through a reference. *)
Definition deref (r : ref T) : M heap T :=
  match r with
  | Outside x => mret x
  | Place p => read p
  end.

(** The value a reference designates, if it designates a live object. *)
Definition value_of (h : heap) (r : ref T) : option T :=
  match r with
  | Outside x => Some x
  | Place p => load h p
  end.

(** [new Type[n]{}]: a fresh block of [n] value-initialised elements. *)
Definition new_array (n : Z) : M heap ptr :=
  λ h, if decide (n ≤ max_alloc)
       then let b := fresh (dom h) in
            Ok (Ptr (Some b) 0) (<[b := replicate (Z.to_nat n) T_default]> h)
       else Throw bad_alloc h.

(** [delete[] p] *)
Definition delete_array (p : ptr) : M heap unit :=
  λ h, match base p with
       | None => if decide (offset p = 0) then Ok tt h else Undefined
       | Some b =>
           if decide (offset p = 0 ∧ is_Some (h !! b))
           then Ok tt (delete b h) else Undefined
       end.

(** [explicit ArrayPtr(size_t size)], array_ptr.h:13-21 *)
Definition ArrayPtr_new (size : Z) : M heap ArrayPtr :=
  let tmp := 0 in
  if decide (size > tmp)
  then tmp_ptr ← new_array size; mret (MkArrayPtr tmp_ptr)
  else mret (MkArrayPtr nullptr).

(** [~ArrayPtr()], array_ptr.h:47-50 *)
Definition ArrayPtr_destroy (a : ArrayPtr) : M heap unit :=
  delete_array (raw_ptr_ a).

(** *** The algorithms of [<algorithm>] used by the vector *)

(** The loop of [std::copy] and of [std::move]: [n] assignments
    [*d_first++ = *first++]. *)
Fixpoint copy_n (n : nat) (first d_first : ptr) : M heap unit :=
  match n with
  | O => mret tt
  | S k =>
      x ← read first;
      write d_first x;;
      copy_n k (ptr_add first 1) (ptr_add d_first 1)
  end.

Definition std_copy (first last d_first : ptr) : M heap ptr :=
  match ptr_diff last first with
  | Some n =>
      if decide (0 ≤ n)
      then copy_n (Z.to_nat n) first d_first;; mret (ptr_add d_first n)
      else undefined
  | None => undefined
  end.

(** [std::move(first, last, d_first)] assigns from rvalues; on the value
    model it is [std::copy]. *)
Definition std_move := std_copy.

(** The loop of [std::copy_backward] and of [std::move_backward]:
    [n] assignments [*(--d_last) = *(--last)]. *)
Fixpoint copy_backward_n (n : nat) (last d_last : ptr) : M heap unit :=
  match n with
  | O => mret tt
  | S k =>
      x ← read (ptr_add last (-1));
      write (ptr_add d_last (-1)) x;;
      copy_backward_n k (ptr_add last (-1)) (ptr_add d_last (-1))
  end.

Definition std_copy_backward (first last d_last : ptr) : M heap ptr :=
  match ptr_diff last first with
  | Some n =>
      if decide (0 ≤ n)
      then copy_backward_n (Z.to_nat n) last d_last;; mret (ptr_add d_last (- n))
      else undefined
  | None => undefined
  end.

Definition std_move_backward := std_copy_backward.

(** The loop of [std::fill]: [n] assignments [*first++ = value]. *)
Fixpoint fill_n (n : nat) (first : ptr) (value : T) : M heap unit :=
  match n with
  | O => mret tt
  | S k => write first value;; fill_n k (ptr_add first 1) value
  end.

Definition std_fill (first last : ptr) (value : T) : M heap unit :=
  match ptr_diff last first with
  | Some n => if decide (0 ≤ n) then fill_n (Z.to_nat n) first value else undefined
  | None => undefined
  end.

(** Copying out of an [initializer_list] (an array that is not on the
    modelled free store). *)
Fixpoint copy_list (init : list T) (d_first : ptr) : M heap unit :=
  match init with
  | [] => mret tt
  | x :: init' => write d_first x;; copy_list init' (ptr_add d_first 1)
  end.

(** Reading [n] elements starting at [first]. *)
Fixpoint read_n (n : nat) (first : ptr) : M heap (list T) :=
  match n with
  | O => mret []
  | S k => x ← read first; xs ← read_n k (ptr_add first 1); mret (x :: xs)
  end.

(** [std::equal(first1, last1, first2, last2)] on random-access ranges:
    ranges of different length are unequal, otherwise the elements are
    compared with the element type's [==]. *)
Definition std_equal (first1 last1 first2 last2 : ptr) : M heap bool :=
  match ptr_diff last1 first1, ptr_diff last2 first2 with
  | Some n1, Some n2 =>
      if decide (0 ≤ n1 ∧ 0 ≤ n2)
      then if decide (n1 = n2)
           then xs ← read_n (Z.to_nat n1) first1;
                ys ← read_n (Z.to_nat n2) first2;
                mret (bool_decide (xs = ys))
           else mret false
      else undefined
  | _, _ => undefined
  end.

End Memory.

(** ** [SimpleVector] *)

(** The two drafts of the class. *)
Inductive draft := part_000 | part_001.

#[global] Instance draft_eq_dec : EqDecision draft.
Proof. solve_decision. Defined.

(** The data members, part_000:283-285. *)
Record SimpleVector := MkVec { items_ : ArrayPtr; size_ : Z; capacity_ : Z }.

#[global] Instance SimpleVector_eq_dec : EqDecision SimpleVector.
Proof. solve_decision. Defined.

(** The default member initialisers: [SimpleVector() noexcept = default]. *)
Definition empty_vector : SimpleVector := MkVec (MkArrayPtr nullptr) 0 0.

Definition GetSize (v : SimpleVector) : Z := size_ v.
Definition GetCapacity (v : SimpleVector) : Z := capacity_ v.
Definition IsEmpty (v : SimpleVector) : bool := bool_decide (size_ v = 0).
Definition begin_ (v : SimpleVector) : ptr := Get (items_ v).
Definition end_ (v : SimpleVector) : ptr := ptr_add (Get (items_ v)) (size_ v).
Definition cbegin (v : SimpleVector) : ptr := Get (items_ v).
Definition cend (v : SimpleVector) : ptr := ptr_add (Get (items_ v)) (size_ v).

(** Relational operators on pointers; between unrelated arrays their
    result is unspecified and taken as undefined here. *)
Definition ptr_le {S} (p q : ptr) : M S bool :=
  match ptr_diff p q with
  | Some k => mret (bool_decide (k ≤ 0))
  | None => undefined
  end.

Definition ptr_lt {S} (p q : ptr) : M S bool :=
  match ptr_diff p q with
  | Some k => mret (bool_decide (k < 0))
  | None => undefined
  end.

Section Methods.
Context {T : Type} `{EqDecision T}.
Variable T_default : T.

Local Abbreviation heap := (gmap block (list T)).

(** A member function runs on its object and on the free store. *)
Record state := St { this : SimpleVector; mem : heap }.

Definition on_heap {A} (m : M heap A) : M state A := λ s,
  match m (mem s) with
  | Ok a h => Ok a (St (this s) h)
  | Throw e h => Throw e (St (this s) h)
  | AssertFail => AssertFail
  | Undefined => Undefined
  end.

Definition gets {A} (f : SimpleVector → A) : M state A := λ s, Ok (f (this s)) s.
Definition set_items (a : ArrayPtr) : M state unit :=
  λ s, Ok tt (St (MkVec a (size_ (this s)) (capacity_ (this s))) (mem s)).
Definition set_size (n : Z) : M state unit :=
  λ s, Ok tt (St (MkVec (items_ (this s)) n (capacity_ (this s))) (mem s)).
Definition set_capacity (n : Z) : M state unit :=
  λ s, Ok tt (St (MkVec (items_ (this s)) (size_ (this s)) n) (mem s)).

(** [items_.swap(temp)]: the object keeps [temp]'s pointer, the call
    returns the pointer [temp] holds afterwards. *)
Definition items_swap (temp : ArrayPtr) : M state ArrayPtr :=
  old ← gets items_; set_items temp;; mret old.

(** The loop [for (size_t i = size_; i < new_size; ++i) items_[i] = Type{};]
    with [n] iterations left. *)
Fixpoint default_loop (n : nat) (i : Z) : M state unit :=
  match n with
  | O => mret tt
  | S k =>
      items ← gets items_;
      on_heap (write (at_index items i) T_default);;
      default_loop k (i + 1)
  end.

(** The reallocating statements that [Resize] and [Reserve] share
    (part_000:220-222 and 239-241 with the assignment of [capacity_]
    and the destructor of [temp]); used to state their effect once. *)
Definition reallocate (new_capacity : Z) : M state unit :=
  temp ← on_heap (ArrayPtr_new T_default new_capacity);
  first ← gets begin_; last ← gets end_;
  on_heap (std_move first last (Get temp));;
  temp ← items_swap temp;
  set_capacity new_capacity;;
  on_heap (ArrayPtr_destroy temp).

(** [Resize], part_000:215-233 and part_001:237-261 *)
Definition Resize (d : draft) (new_size : Z) : M state unit :=
  match d with
  | part_000 =>
      capacity ← gets capacity_;
      size ← gets size_;
      (if decide (new_size > capacity) then
         let new_capacity :=
           Z.max new_size (if decide (capacity = 0) then 1 else wrap (capacity * 2)) in
         temp ← on_heap (ArrayPtr_new T_default new_capacity);
         first ← gets begin_; last ← gets end_;
         on_heap (std_move first last (Get temp));;
         temp ← items_swap temp;
         set_capacity new_capacity;;
         on_heap (ArrayPtr_destroy temp)
       else if decide (new_size > size) then
         default_loop (Z.to_nat (new_size - size)) size
       else mret tt);;
      set_size new_size
  | part_001 =>
      capacity ← gets capacity_;
      size ← gets size_;
      if decide (new_size > capacity) then
        let new_capacity :=
          Z.max new_size (if decide (capacity = 0) then 1 else wrap (capacity * 2)) in
        temp ← on_heap (ArrayPtr_new T_default new_capacity);
        first ← gets begin_; last ← gets end_;
        on_heap (std_move first last (Get temp));;
        temp ← items_swap temp;
        set_size new_size;;
        set_capacity new_capacity;;
        on_heap (ArrayPtr_destroy temp)
      else if decide (new_size > size) then
        default_loop (Z.to_nat (new_size - size)) size;;
        set_size new_size
      else
        set_size new_size
  end.

(** [Reserve], part_000:235-245 *)
Definition Reserve (new_capacity : Z) : M state unit :=
  capacity ← gets capacity_;
  if decide (capacity < new_capacity) then
    temp ← on_heap (ArrayPtr_new T_default new_capacity);
    first ← gets begin_; last ← gets end_;
    on_heap (std_move first last (Get temp));;
    temp ← items_swap temp;
    set_capacity new_capacity;;
    on_heap (ArrayPtr_destroy temp)
  else mret tt.

(** [Clear], part_000:247-250 *)
Definition Clear : M state unit := set_size 0.

(** [ResizeCurrentVector], part_000:286-296 *)
Definition ResizeCurrentVector (d : draft) : M state unit :=
  capacity ← gets capacity_;
  size ← gets size_;
  if decide (capacity ≤ size) then Resize d (wrap (size + 1))
  else set_size (wrap (size + 1)).

(** [PushBack], part_000:106-116 (both overloads): [item] is a reference,
    read in the assignment [items_[size_ - 1] = item] after
    [ResizeCurrentVector] has run. *)
Definition PushBack (d : draft) (item : ref T) : M state unit :=
  ResizeCurrentVector d;;
  items ← gets items_; size ← gets size_;
  x ← on_heap (deref item);
  on_heap (write (at_index items (wrap (size - 1))) x).

(** [PopBack], part_000:118-122 and part_001:128-134 *)
Definition PopBack (d : draft) : M state unit :=
  match d with
  | part_000 =>
      empty ← gets IsEmpty;
      assert (negb empty);;
      size ← gets size_; set_size (wrap (size - 1))
  | part_001 =>
      empty ← gets IsEmpty;
      if negb empty then size ← gets size_; set_size (wrap (size - 1))
      else mret tt
  end.

(** [Insert(ConstIterator pos, const Type &value)], part_000:124-137:
    [value] is a reference, read in [*it = value] after the elements have
    been shifted (and after a reallocation, if there was one). *)
Definition Insert (d : draft) (pos : ptr) (value : ref T) : M state ptr :=
  e ← gets cend;
  if decide (pos = e) then
    PushBack d value;;
    e ← gets end_; mret (ptr_add e (-1))
  else
    items ← gets items_;
    match ptr_diff pos (Get items) with
    | None => undefined
    | Some curr_index =>
        ResizeCurrentVector d;;
        items ← gets items_; e ← gets end_;
        it ← on_heap (std_copy_backward (at_index items curr_index) (ptr_add e (-1)) e);
        let it := ptr_add it (-1) in
        x ← on_heap (deref value);
        on_heap (write it x);;
        mret it
    end.

(** [Insert(ConstIterator pos, Type &&value)], part_000:139-154 and
    part_001:155-168 *)
Definition Insert_rvalue (d : draft) (pos : ptr) (value : ref T) : M state ptr :=
  match d with
  | part_000 =>
      e ← gets end_; c ← ptr_le pos e; assert c;;
      b ← gets begin_; c ← ptr_le b pos; assert c
  | part_001 => mret tt
  end;;
  e ← gets cend;
  if decide (pos = e) then
    PushBack d value;;
    e ← gets end_; mret (ptr_add e (-1))
  else
    items ← gets items_;
    match ptr_diff pos (Get items) with
    | None => undefined
    | Some curr_index =>
        ResizeCurrentVector d;;
        items ← gets items_; e ← gets end_;
        it ← on_heap (std_move_backward (at_index items curr_index) (ptr_add e (-1)) e);
        let it := ptr_add it (-1) in
        x ← on_heap (deref value);
        on_heap (write it x);;
        mret it
    end.

(** [Erase], part_000:156-168 and part_001:171-181 *)
Definition Erase (d : draft) (pos : ptr) : M state ptr :=
  match d with
  | part_000 =>
      e ← gets end_; c ← ptr_le pos e; assert c;;
      b ← gets begin_; c ← ptr_le b pos; assert c
  | part_001 => mret tt
  end;;
  b ← gets begin_;
  match ptr_diff pos b with
  | None => undefined
  | Some curr_index =>
      e ← gets end_;
      c ← ptr_lt pos (ptr_add e (-1));
      (if c : bool then
         items ← gets items_;
         on_heap (std_move (at_index items (curr_index + 1)) e (at_index items curr_index));;
         mret tt
       else mret tt);;
      size ← gets size_; set_size (wrap (size - 1));;
      items ← gets items_;
      mret (at_index items curr_index)
  end.

(** [operator[]], part_000:185-195 and part_001:202-211; the result is
    the reference [items_[index]]. *)
Definition subscript (d : draft) (index : Z) : M state ptr :=
  match d with
  | part_000 => size ← gets size_; assert (bool_decide (index < size))
  | part_001 => mret tt
  end;;
  items ← gets items_; mret (at_index items index).

(** [At], part_000:197-213; the result is the reference [items_[index]]. *)
Definition At (index : Z) : M state ptr :=
  size ← gets size_;
  if decide (index >= size) then throw out_of_range
  else items ← gets items_; mret (at_index items index).

End Methods.

(** ** The abstract view of a vector *)

Section View.
Context {T : Type} `{EqDecision T}.

Local Abbreviation heap := (gmap block (list T)).

(** The array that [items_] designates. *)
Definition buffer (v : SimpleVector) (h : heap) : list T :=
  match base (Get (items_ v)) with
  | Some b => default [] (h !! b)
  | None => []
  end.

(** The element sequence, indices [0, size). *)
Definition elements (v : SimpleVector) (h : heap) : list T :=
  take (Z.to_nat (size_ v)) (buffer v h).

(** The class invariant: [size <= capacity], and [items_] owns a live
    array of exactly [capacity] elements, or is null when the capacity
    is zero. *)
Definition wf (v : SimpleVector) (h : heap) : Prop :=
  0 ≤ size_ v ≤ capacity_ v ∧ capacity_ v ≤ max_alloc ∧
  offset (Get (items_ v)) = 0 ∧
  match base (Get (items_ v)) with
  | None => capacity_ v = 0
  | Some b =>
      0 < capacity_ v ∧ length <$> (h !! b) = Some (Z.to_nat (capacity_ v))
  end.

(** The free store after the vector's array has been overwritten by [l]. *)
Definition set_buffer (v : SimpleVector) (h : heap) (l : list T) : heap :=
  match base (Get (items_ v)) with
  | Some b => <[b := l]> h
  | None => h
  end.

(** Arrays that exist in [h] and are not the vector's own are the same
    in [h'], and are not the array of the vector afterwards. *)
Definition frame (v : SimpleVector) (h : heap) (v' : SimpleVector) (h' : heap) : Prop :=
  ∀ b0, b0 ∈ dom h → base (Get (items_ v)) ≠ Some b0 →
        h' !! b0 = h !! b0 ∧ base (Get (items_ v')) ≠ Some b0.

(** The vector's array in [h'] is one that did not exist in [h]. *)
Definition relocated (h : heap) (v' : SimpleVector) : Prop :=
  ∃ b', items_ v' = MkArrayPtr (Ptr (Some b') 0) ∧ h !! b' = None.

(** The capacity chosen by [Resize] for a request beyond [capacity]. *)
Definition grown (new_size capacity : Z) : Z :=
  Z.max new_size (if decide (capacity = 0) then 1 else capacity * 2).

(** The reference designates a place in the array that the vector holds
    (as [v[j]] and [*v.begin()] do). *)
Definition inside (v : SimpleVector) (r : ref T) : Prop :=
  match r with
  | Outside _ => False
  | Place p => base p = base (Get (items_ v))
  end.

End View.

(** ** Calls on one vector *)

(** What a call hands back to its caller. *)
Inductive value (T : Type) : Type :=
| VUnit
| VSize (n : Z)
| VBool (b : bool)
| VElem (x : T)
| VIter (p : ptr).

Arguments VUnit {T}.
Arguments VSize {T} n.
Arguments VBool {T} b.
Arguments VElem {T} x.
Arguments VIter {T} p.

(** The member functions that involve a single vector.  A position is
    given by its index: the call passes [begin() + i].  An element to
    store is given by the reference the call binds. *)
Inductive member (T : Type) : Type :=
| CallPushBack (item : ref T)
| CallPopBack
| CallInsert (i : Z) (value : ref T)
| CallInsertRvalue (i : Z) (value : ref T)
| CallErase (i : Z)
| CallResize (n : Z)
| CallReserve (n : Z)
| CallClear
| CallSubscript (i : Z)               (* [v[i]] read *)
| CallSubscriptAssign (i : Z) (x : T) (* [v[i] = x] *)
| CallAt (i : Z)                      (* [v.At(i)] read *)
| CallAtAssign (i : Z) (x : T)        (* [v.At(i) = x] *)
| CallGetSize
| CallGetCapacity
| CallIsEmpty.

Arguments CallPushBack {T} item.
Arguments CallPopBack {T}.
Arguments CallInsert {T} i value.
Arguments CallInsertRvalue {T} i value.
Arguments CallErase {T} i.
Arguments CallResize {T} n.
Arguments CallReserve {T} n.
Arguments CallClear {T}.
Arguments CallSubscript {T} i.
Arguments CallSubscriptAssign {T} i x.
Arguments CallAt {T} i.
Arguments CallAtAssign {T} i x.
Arguments CallGetSize {T}.
Arguments CallGetCapacity {T}.
Arguments CallIsEmpty {T}.

Section Calls.
Context {T : Type} `{EqDecision T}.
Variable T_default : T.

Local Abbreviation heap := (gmap block (list T)).

Definition invoke (d : draft) (c : member T) : M (@state T) (value T) :=
  match c with
  | CallPushBack x => PushBack T_default d x;; mret VUnit
  | CallPopBack => PopBack d;; mret VUnit
  | CallInsert i x =>
      b ← gets begin_; it ← Insert T_default d (ptr_add b i) x; mret (VIter it)
  | CallInsertRvalue i x =>
      b ← gets begin_; it ← Insert_rvalue T_default d (ptr_add b i) x; mret (VIter it)
  | CallErase i =>
      b ← gets begin_; it ← Erase d (ptr_add b i); mret (VIter it)
  | CallResize n => Resize T_default d n;; mret VUnit
  | CallReserve n => Reserve T_default n;; mret VUnit
  | CallClear => Clear;; mret VUnit
  | CallSubscript i => r ← subscript d i; x ← on_heap (read r); mret (VElem x)
  | CallSubscriptAssign i x => r ← subscript d i; on_heap (write r x);; mret VUnit
  | CallAt i => r ← At i; x ← on_heap (read r); mret (VElem x)
  | CallAtAssign i x => r ← At i; on_heap (write r x);; mret VUnit
  | CallGetSize => n ← gets GetSize; mret (VSize n)
  | CallGetCapacity => n ← gets GetCapacity; mret (VSize n)
  | CallIsEmpty => b ← gets IsEmpty; mret (VBool b)
  end.

(** A sequence of calls on the same vector; the results are dropped. *)
Fixpoint invoke_all (d : draft) (cs : list (member T)) : M (@state T) unit :=
  match cs with
  | [] => mret tt
  | c :: cs' => invoke d c;; invoke_all d cs'
  end.

(** [PushBack] of each value of [xs] in turn, each held by an object
    outside the free store. *)
Fixpoint push_all (d : draft) (xs : list T) : M (@state T) unit :=
  match xs with
  | [] => mret tt
  | x :: xs' => PushBack T_default d (Outside x);; push_all d xs'
  end.

(** *** The constructors, run on the default member initialisers *)

(** [explicit SimpleVector(size_t size)], part_000:38-41 *)
Definition ctor_size (size : Z) : M (@state T) unit :=
  a ← on_heap (ArrayPtr_new T_default size);
  set_items a;; set_size size;; set_capacity size.

(** [SimpleVector(size_t size, const Type &value)], part_000:43-51 *)
Definition ctor_fill (size : Z) (value : T) : M (@state T) unit :=
  a ← on_heap (ArrayPtr_new T_default size);
  set_items a;; set_size size;; set_capacity size;;
  if decide (size = 0) then mret tt
  else b ← gets begin_; e ← gets end_; on_heap (std_fill b e value).

(** [SimpleVector(std::initializer_list<Type> init)], part_000:53-57 *)
Definition ctor_init (init : list T) : M (@state T) unit :=
  a ← on_heap (ArrayPtr_new T_default (Z.of_nat (length init)));
  set_items a;; set_size (Z.of_nat (length init));;
  set_capacity (Z.of_nat (length init));;
  items ← gets items_;
  on_heap (copy_list init (Get items)).

(** [SimpleVector(const SimpleVector &other)], part_000:59-63 *)
Definition ctor_copy (other : SimpleVector) : M (@state T) unit :=
  a ← on_heap (ArrayPtr_new T_default (GetCapacity other));
  set_items a;; set_size (GetSize other);; set_capacity (GetCapacity other);;
  items ← gets items_;
  on_heap (std_copy (begin_ other) (end_ other) (Get items));;
  mret tt.

(** [SimpleVector(ReserveProxyObj rhs)], part_000:94-97; the proxy
    carries [capacity_to_reserve_]. *)
Definition ctor_reserve (capacity_to_reserve : Z) : M (@state T) unit :=
  Reserve T_default capacity_to_reserve.

(** ** Several vectors: the objects of a program *)

(** The live vector objects, by name, and the free store they share. *)
Record world := World { heap_of : heap; vecs : gmap nat SimpleVector }.

(** A member call on the object named [x]. *)
Definition call {A} (x : nat) (m : M (@state T) A) : M world A := λ w,
  match vecs w !! x with
  | None => Undefined
  | Some v =>
      match m (St v (heap_of w)) with
      | Ok a s => Ok a (World (mem s) (<[x := this s]> (vecs w)))
      | Throw e s => Throw e (World (mem s) (<[x := this s]> (vecs w)))
      | AssertFail => AssertFail
      | Undefined => Undefined
      end
  end.

(** The definition of a new object [x] by the constructor body [m]; an
    exception leaves no object behind. *)
Definition construct (x : nat) (m : M (@state T) unit) : M world unit := λ w,
  match vecs w !! x with
  | Some _ => Undefined
  | None =>
      match m (St empty_vector (heap_of w)) with
      | Ok _ s => Ok tt (World (mem s) (<[x := this s]> (vecs w)))
      | Throw e s => Throw e (World (mem s) (vecs w))
      | AssertFail => AssertFail
      | Undefined => Undefined
      end
  end.

(** The end of the lifetime of [x]: the implicit destructor destroys
    [items_]. *)
Definition destroy (x : nat) : M world unit := λ w,
  match vecs w !! x with
  | None => Undefined
  | Some v =>
      match ArrayPtr_destroy (items_ v) (heap_of w) with
      | Ok _ h => Ok tt (World h (delete x (vecs w)))
      | Throw e h => Throw e (World h (delete x (vecs w)))
      | AssertFail => AssertFail
      | Undefined => Undefined
      end
  end.

(** [swap], part_000:99-104; [x] and [other] may be the same object. *)
Definition swap (x other : nat) : M world unit :=
  (* items_.swap(other.items_) *)
  tmp ← call x (gets items_);
  o ← call other (gets items_);
  call x (set_items o);;
  call other (set_items tmp);;
  (* std::swap(size_, other.size_) *)
  tmp ← call x (gets size_);
  o ← call other (gets size_);
  call x (set_size o);;
  call other (set_size tmp);;
  (* std::swap(capacity_, other.capacity_) *)
  tmp ← call x (gets capacity_);
  o ← call other (gets capacity_);
  call x (set_capacity o);;
  call other (set_capacity tmp).

(** [operator==], part_000:299-303 *)
Definition equal (lhs rhs : nat) : M world bool := λ w,
  match vecs w !! lhs, vecs w !! rhs with
  | Some l, Some r =>
      match std_equal (begin_ l) (end_ l) (begin_ r) (end_ r) (heap_of w) with
      | Ok b h => Ok b (World h (vecs w))
      | Throw e h => Throw e (World h (vecs w))
      | AssertFail => AssertFail
      | Undefined => Undefined
      end
  | _, _ => Undefined
  end.

(** [operator!=], part_000:305-309 *)
Definition not_equal (lhs rhs : nat) : M world bool :=
  b ← equal lhs rhs; mret (negb b).

(** The copy constructor defining a new object [x] from [other]. *)
Definition copy_construct (x other : nat) : M world unit :=
  o ← call other (gets id);
  construct x (ctor_copy o).

(** The statements [SimpleVector<Type> temp{rhs}; swap(temp);] followed
    by the destructor of the local [temp], a new object. *)
Definition copy_and_swap (x rhs : nat) : M world unit := λ w,
  let temp := fresh (dom (vecs w)) in
  (copy_construct temp rhs;;
   swap x temp;;
   destroy temp) w.

(** [operator=(const SimpleVector &rhs)], part_000:65-74 and
    part_001:69-78. *)
Definition copy_assign (d : draft) (x rhs : nat) : M world unit :=
  self ← match d return M world bool with
         | part_000 => equal x rhs                    (* [*this == rhs] *)
         | part_001 => mret (bool_decide (x = rhs))   (* [&items_ == &(rhs.items_)] *)
         end;
  if self : bool then mret tt else copy_and_swap x rhs.

(** The observable state of a vector: size, capacity and elements. *)
Definition observe (w : world) (x : nat) : option (Z * Z * list T) :=
  v ← vecs w !! x;
  Some (size_ v, capacity_ v, elements v (heap_of w)).

(** Every object is well formed and no two objects share an array. *)
Definition separated (w : world) : Prop :=
  (∀ x v, vecs w !! x = Some v → wf v (heap_of w))
  ∧ (∀ x y vx vy b, x ≠ y → vecs w !! x = Some vx → vecs w !! y = Some vy →
       base (Get (items_ vx)) = Some b → base (Get (items_ vy)) ≠ Some b).

(** Every buffer is a live array and no two objects share an array. *)
Definition disjoint (w : world) : Prop :=
  (∀ x v b, vecs w !! x = Some v → base (Get (items_ v)) = Some b →
     is_Some (heap_of w !! b))
  ∧ (∀ x y vx vy b, x ≠ y → vecs w !! x = Some vx → vecs w !! y = Some vy →
       base (Get (items_ vx)) = Some b → base (Get (items_ vy)) ≠ Some b).

(** A program that calls member functions on its objects in turn. *)
Fixpoint call_all (d : draft) (p : list (nat * member T)) : M world unit :=
  match p with
  | [] => mret tt
  | (x, c) :: p' => call x (invoke d c);; call_all d p'
  end.

End Calls.

(** ** Decidability of the invariant and sample data *)

#[global] Instance wf_dec {T} (v : SimpleVector) (h : gmap block (list T)) :
  Decision (wf v h).
Proof. unfold wf. destruct (base (Get (items_ v))); apply _. Defined.

(** A vector of three integers in an array of four: [{1, 2, 3}]. *)
Definition sample_heap : gmap block (list Z) := {[ 0%nat := [1; 2; 3; 0] ]}.
Definition sample_vector : SimpleVector :=
  MkVec (MkArrayPtr (Ptr (Some 0%nat) 0)) 3 4.

(** A full vector: [{1, 2}] in an array of two. *)
Definition full_heap : gmap block (list Z) := {[ 0%nat := [1; 2] ]}.
Definition full_vector : SimpleVector :=
  MkVec (MkArrayPtr (Ptr (Some 0%nat) 0)) 2 2.

(** ** Properties of every outcome that leaves a state behind *)

(** [post P r]: if the call returned or threw, the state it left satisfies
    [P]. *)
Definition post {S A} (P : S → Prop) (r : outcome S A) : Prop :=
  match r with
  | Ok _ s' => P s'
  | Throw _ s' => P s'
  | AssertFail => True
  | Undefined => True
  end.

(** [respects R m]: every run of [m] relates the state before to the state
    after. *)
Definition respects {S A} (R : S → S → Prop) (m : M S A) (s : S) : Prop :=
  post (R s) (m s).

(** Only the array [ob] differs between two free stores, and no array has
    been deleted. *)
Definition only {T} (ob : option block) (h h' : gmap block (list T)) : Prop :=
  (∀ b0, ob ≠ Some b0 → h' !! b0 = h !! b0)
  ∧ (∀ b0, is_Some (h !! b0) → is_Some (h' !! b0)).

(** The vector's buffer, if it has one, is a live array. *)
Definition live {T} (s : @state T) : Prop :=
  match base (Get (items_ (this s))) with
  | Some b => is_Some (mem s !! b)
  | None => True
  end.

Definition keeps_live {T} (s s' : @state T) : Prop := live s → live s'.

(** The frame relation and the capacity order on states of a call. *)
Definition frame_st {T} (s s' : @state T) : Prop :=
  frame (this s) (mem s) (this s') (mem s').

Definition capacity_le {T} (s s' : @state T) : Prop :=
  capacity_ (this s) ≤ capacity_ (this s').

Definition capacity_same {T} (s s' : @state T) : Prop :=
  capacity_ (this s') = capacity_ (this s).

(** ** Deciding separation, and sample programs *)

(** [separated], as a check over the finitely many objects. *)
Definition separated_check {T} (w : @world T) : Prop :=
  map_Forall (λ _ v, wf v (heap_of w)) (vecs w)
  ∧ map_Forall (λ x vx,
      map_Forall (λ y vy,
        x = y ∨ base (Get (items_ vx)) = None
        ∨ base (Get (items_ vx)) ≠ base (Get (items_ vy))) (vecs w)) (vecs w).

(** Two objects with equal elements and different capacities:
    [SimpleVector a{1, 2}; SimpleVector b(Reserve(4)); b.PushBack(1);
    b.PushBack(2);] *)
Definition equal_vectors_program (d : draft) : M (@world Z) unit :=
  construct 0%nat (ctor_init 0 [1; 2]);;
  construct 1%nat (ctor_reserve 0 4);;
  call 1%nat (PushBack 0 d (Outside 1));;
  call 1%nat (PushBack 0 d (Outside 2)).

Definition equal_vectors : @world Z :=
  World {[ 0%nat := [1; 2]; 1%nat := [1; 2; 0; 0] ]}
        {[ 0%nat := MkVec (MkArrayPtr (Ptr (Some 0%nat) 0)) 2 2;
           1%nat := MkVec (MkArrayPtr (Ptr (Some 1%nat) 0)) 2 4 ]}.

(** A large vector and a small one:
    [SimpleVector a{1, 2, 3, 4}; SimpleVector b{7};] *)
Definition large_small_program : M (@world Z) unit :=
  construct 0%nat (ctor_init 0 [1; 2; 3; 4]);;
  construct 1%nat (ctor_init 0 [7]).

Definition large_small : @world Z :=
  World {[ 0%nat := [1; 2; 3; 4]; 1%nat := [7] ]}
        {[ 0%nat := MkVec (MkArrayPtr (Ptr (Some 0%nat) 0)) 4 4;
           1%nat := MkVec (MkArrayPtr (Ptr (Some 1%nat) 0)) 1 1 ]}.

(** ** [ArrayPtr] objects and the moves *)

Section Objects.
Context {T : Type} `{EqDecision T}.
Variable T_default : T.

(** [ArrayPtr] objects by name, and the free store. *)
Record astate := AState { objs : gmap nat ArrayPtr; amem : gmap block (list T) }.

Definition aget (a : nat) : M astate ArrayPtr := λ s,
  match objs s !! a with Some x => Ok x s | None => Undefined end.

Definition aset (a : nat) (x : ArrayPtr) : M astate unit := λ s,
  Ok tt (AState (<[a := x]> (objs s)) (amem s)).

(** [swap], array_ptr.h:79-82: [std::swap(raw_ptr_, other.raw_ptr_)] on the
    two pointer members; [this] and [other] may be the same object. *)
Definition ArrayPtr_swap (this other : nat) : M astate unit :=
  a ← aget this;
  let tmp := raw_ptr_ a in
  o ← aget other;
  aset this (MkArrayPtr (raw_ptr_ o));;
  aset other (MkArrayPtr tmp).

(** [ArrayPtr(ArrayPtr &&other)], array_ptr.h:32-35:
    [raw_ptr_ = std::exchange(other.raw_ptr_, nullptr)]; [this] is the new
    object. *)
Definition ArrayPtr_move_construct (this other : nat) : M astate unit :=
  o ← aget other;
  let old := raw_ptr_ o in
  aset other (MkArrayPtr nullptr);;
  aset this (MkArrayPtr old).

(** [operator=(ArrayPtr &&other)], array_ptr.h:37-45 *)
Definition ArrayPtr_move_assign (this other : nat) : M astate unit :=
  a ← aget this;
  o ← aget other;
  if decide (raw_ptr_ a = raw_ptr_ o) then mret tt
  else ArrayPtr_swap this other.

(** [operator=(const ArrayPtr &) = default], array_ptr.h:30 *)
Definition ArrayPtr_copy_assign (this other : nat) : M astate unit :=
  o ← aget other; aset this o.

(** [Release], array_ptr.h:52-57 *)
Definition ArrayPtr_Release (this : nat) : M astate ptr :=
  a ← aget this;
  let tmp := raw_ptr_ a in
  aset this (MkArrayPtr nullptr);;
  mret tmp.

(** [~ArrayPtr()] at the end of the lifetime of the object [this]. *)
Definition ArrayPtr_end (this : nat) : M astate unit := λ s,
  match objs s !! this with
  | None => Undefined
  | Some a =>
      match ArrayPtr_destroy a (amem s) with
      | Ok _ h => Ok tt (AState (delete this (objs s)) h)
      | Throw e h => Throw e (AState (delete this (objs s)) h)
      | AssertFail => AssertFail
      | Undefined => Undefined
      end
  end.

(** [std::swap(a, b)] on [ArrayPtr] objects:
    [ArrayPtr tmp(std::move(a)); a = std::move(b); b = std::move(tmp);] *)
Definition std_swap_ArrayPtr (tmp a b : nat) : M astate unit :=
  ArrayPtr_move_construct tmp a;;
  ArrayPtr_move_assign a b;;
  ArrayPtr_move_assign b tmp;;
  ArrayPtr_end tmp.

(** [std::exchange(obj, new_value)] with an lvalue [new_value]:
    [ArrayPtr old_value = std::move(obj); obj = new_value; return old_value;]
    The object [old] is the returned value. *)
Definition std_exchange_ArrayPtr (old obj new_value : nat) : M astate unit :=
  ArrayPtr_move_construct old obj;;
  ArrayPtr_copy_assign obj new_value.

(** The statements [m] on the members [items_] of two different vectors:
    object 0 is [x.items_], object 1 is [other.items_]. *)
Definition on_items (x other : nat) (m : M astate unit) : M (@world T) unit := λ w,
  match vecs w !! x, vecs w !! other with
  | Some vx, Some vo =>
      match m (AState {[ 0%nat := items_ vx; 1%nat := items_ vo ]} (heap_of w)) with
      | Ok _ s =>
          match objs s !! 0%nat, objs s !! 1%nat with
          | Some a, Some o =>
              Ok tt (World (amem s)
                       (<[other := MkVec o (size_ vo) (capacity_ vo)]>
                          (<[x := MkVec a (size_ vx) (capacity_ vx)]> (vecs w))))
          | _, _ => Undefined
          end
      | Throw e s => Throw e (World (amem s) (vecs w))
      | AssertFail => AssertFail
      | Undefined => Undefined
      end
  | _, _ => Undefined
  end.

(** [SimpleVector(SimpleVector &&other)], part_000:76-81 and
    part_001:81-86; [x] is the new object. *)
Definition move_construct (d : draft) (x other : nat) : M (@world T) unit :=
  construct x (mret tt);;
  match d with
  | part_000 =>
      (* std::swap(capacity_, other.capacity_) *)
      tmp ← call x (gets capacity_);
      o ← call other (gets capacity_);
      call x (set_capacity o);;
      call other (set_capacity tmp);;
      (* std::swap(size_, other.size_) *)
      tmp ← call x (gets size_);
      o ← call other (gets size_);
      call x (set_size o);;
      call other (set_size tmp);;
      (* std::swap(items_, other.items_) *)
      on_items x other (std_swap_ArrayPtr 2%nat 0%nat 1%nat)
  | part_001 =>
      (* other.capacity_ = std::exchange(capacity_, other.capacity_) *)
      old ← call x (gets capacity_);
      o ← call other (gets capacity_);
      call x (set_capacity o);;
      call other (set_capacity old);;
      (* other.size_ = std::exchange(size_, other.size_) *)
      old ← call x (gets size_);
      o ← call other (gets size_);
      call x (set_size o);;
      call other (set_size old);;
      (* other.items_ = std::exchange(items_, other.items_); the returned
         temporary is destroyed at the end of the statement *)
      on_items x other
        (std_exchange_ArrayPtr 2%nat 0%nat 1%nat;;
         ArrayPtr_move_assign 1%nat 2%nat;;
         ArrayPtr_end 2%nat)
  end.

(** [operator=(SimpleVector &&rhs)], part_000:83-92 and part_001:89-98 *)
Definition move_assign (d : draft) (x rhs : nat) : M (@world T) unit :=
  if decide (x = rhs) then mret tt
  else λ w,
    let temp := fresh (dom (vecs w)) in
    (move_construct d temp rhs;;
     swap x temp;;
     destroy temp) w.

End Objects.

(** ** Programs over the public operations *)

Inductive op (T : Type) : Type :=
| OpDefault (x : nat)                       (* [SimpleVector x;] *)
| OpSized (x : nat) (n : Z)                 (* [SimpleVector x(n);] *)
| OpFilled (x : nat) (n : Z) (value : T)    (* [SimpleVector x(n, value);] *)
| OpInit (x : nat) (init : list T)          (* [SimpleVector x{...};] *)
| OpReserved (x : nat) (n : Z)              (* [SimpleVector x(Reserve(n));] *)
| OpCopy (x other : nat)                    (* [SimpleVector x(other);] *)
| OpMove (x other : nat)                    (* [SimpleVector x(std::move(other));] *)
| OpCopyAssign (x rhs : nat)                (* [x = rhs;] *)
| OpMoveAssign (x rhs : nat)                (* [x = std::move(rhs);] *)
| OpSwap (x other : nat)                    (* [x.swap(other);] *)
| OpCall (x : nat) (c : member T)           (* a call on [x] *)
| OpEqual (x y : nat)                       (* [x == y] *)
| OpNotEqual (x y : nat)                    (* [x != y] *)
| OpEnd (x : nat).                          (* the end of the scope of [x] *)

Arguments OpDefault {T} x.
Arguments OpSized {T} x n.
Arguments OpFilled {T} x n value.
Arguments OpInit {T} x init.
Arguments OpReserved {T} x n.
Arguments OpCopy {T} x other.
Arguments OpMove {T} x other.
Arguments OpCopyAssign {T} x rhs.
Arguments OpMoveAssign {T} x rhs.
Arguments OpSwap {T} x other.
Arguments OpCall {T} x c.
Arguments OpEqual {T} x y.
Arguments OpNotEqual {T} x y.
Arguments OpEnd {T} x.

Section Programs.
Context {T : Type} `{EqDecision T}.
Variable T_default : T.

Definition step (d : draft) (o : op T) : M (@world T) (value T) :=
  match o with
  | OpDefault x => construct x (mret tt);; mret VUnit
  | OpSized x n => construct x (ctor_size T_default n);; mret VUnit
  | OpFilled x n value => construct x (ctor_fill T_default n value);; mret VUnit
  | OpInit x init => construct x (ctor_init T_default init);; mret VUnit
  | OpReserved x n => construct x (ctor_reserve T_default n);; mret VUnit
  | OpCopy x other => copy_construct T_default x other;; mret VUnit
  | OpMove x other => move_construct d x other;; mret VUnit
  | OpCopyAssign x rhs => copy_assign T_default d x rhs;; mret VUnit
  | OpMoveAssign x rhs => move_assign d x rhs;; mret VUnit
  | OpSwap x other => swap x other;; mret VUnit
  | OpCall x c => call x (invoke T_default d c)
  | OpEqual x y => b ← equal x y; mret (VBool b)
  | OpNotEqual x y => b ← not_equal x y; mret (VBool b)
  | OpEnd x => destroy x;; mret VUnit
  end.

(** A program returns the values of its operations in order. *)
Fixpoint run (d : draft) (p : list (op T)) : M (@world T) (list (value T)) :=
  match p with
  | [] => mret []
  | o :: p' => r ← step d o; rs ← run d p'; mret (r :: rs)
  end.

(** The operations on which the drafts are compared: everything but the
    moves, and a copy assignment only onto the object itself or onto an
    object that does not compare equal to the source. *)
Definition comparable (o : op T) (w : @world T) : Prop :=
  match o with
  | OpMove _ _ => False
  | OpMoveAssign _ _ => False
  | OpCopyAssign x rhs => x = rhs ∨ equal x rhs w = Ok false w
  | _ => True
  end.

Fixpoint all_comparable (p : list (op T)) (w : @world T) : Prop :=
  match p with
  | [] => True
  | o :: p' =>
      comparable o w
      ∧ match step part_000 o w with
        | Ok _ w' => all_comparable p' w'
        | _ => True
        end
  end.

(** A run that met the preconditions: it returned or threw. *)
Definition completed {S A} (r : outcome S A) : Prop :=
  match r with
  | Ok _ _ => True
  | Throw _ _ => True
  | AssertFail => False
  | Undefined => False
  end.

End Programs.

(** Two [ArrayPtr] objects that own different arrays. *)
Definition two_buffers : @astate Z :=
  AState {[ 0%nat := MkArrayPtr (Ptr (Some 0%nat) 0);
            1%nat := MkArrayPtr (Ptr (Some 1%nat) 0) ]}
         {[ 0%nat := [1]; 1%nat := [2] ]}.

(** A program on which the two drafts agree, and one on which they do
    not: [SimpleVector a{1, 2}; SimpleVector b(Reserve(4)); b.PushBack(1);
    b.PushBack(2); a = b; a.GetCapacity();] *)
Definition agreeing_program : list (op Z) :=
  [ OpInit 0%nat [1; 2]; OpCall 0%nat (CallPushBack (Outside 3));
    OpCall 0%nat (CallErase 0); OpInit 1%nat [7];
    OpCopyAssign 1%nat 0%nat; OpCall 1%nat CallPopBack;
    OpCall 1%nat (CallInsertRvalue 1 (Outside 5)); OpEqual 0%nat 1%nat;
    OpCall 1%nat (CallAt 9) ].

Definition diverging_program : list (op Z) :=
  [ OpInit 0%nat [1; 2]; OpReserved 1%nat 4;
    OpCall 1%nat (CallPushBack (Outside 1)); OpCall 1%nat (CallPushBack (Outside 2));
    OpCopyAssign 0%nat 1%nat; OpCall 0%nat CallGetCapacity ].

(** [SimpleVector a{1, 2}; SimpleVector b(std::move(a)); b.At(0);] *)
Definition moving_program : list (op Z) :=
  [ OpInit 0%nat [1; 2]; OpMove 1%nat 0%nat; OpCall 1%nat (CallAt 0) ].

(** ** The comparison operators *)

Section Ordering.
Context {T : Type} `{EqDecision T}.
(** [operator<] of the element type *)
Variable T_less : T → T → bool.

(** The loop of [std::lexicographical_compare] with [n1] and [n2] elements
    left in the two ranges: while both ranges have an element, the result
    is [true] if the element of the first is less than that of the second,
    [false] if the element of the second is less than that of the first,
    and otherwise both ranges advance; when a range is exhausted the
    result is [first1 == last1 && first2 != last2]. *)
Fixpoint lexicographical_compare_n (n1 n2 : nat) (first1 first2 : ptr)
    : M (gmap block (list T)) bool :=
  match n1, n2 with
  | S k1, S k2 =>
      x ← read first1;
      y ← read first2;
      if T_less x y then mret true
      else if T_less y x then mret false
      else lexicographical_compare_n k1 k2 (ptr_add first1 1) (ptr_add first2 1)
  | O, S _ => mret true
  | _, O => mret false
  end.

Definition std_lexicographical_compare (first1 last1 first2 last2 : ptr)
    : M (gmap block (list T)) bool :=
  match ptr_diff last1 first1, ptr_diff last2 first2 with
  | Some n1, Some n2 =>
      if decide (0 ≤ n1 ∧ 0 ≤ n2)
      then lexicographical_compare_n (Z.to_nat n1) (Z.to_nat n2) first1 first2
      else undefined
  | _, _ => undefined
  end.

(** [operator<], part_000:311-315 *)
Definition less (lhs rhs : nat) : M (@world T) bool := λ w,
  match vecs w !! lhs, vecs w !! rhs with
  | Some l, Some r =>
      match std_lexicographical_compare (begin_ l) (end_ l) (begin_ r) (end_ r)
              (heap_of w) with
      | Ok b h => Ok b (World h (vecs w))
      | Throw e h => Throw e (World h (vecs w))
      | AssertFail => AssertFail
      | Undefined => Undefined
      end
  | _, _ => Undefined
  end.

(** [operator>], part_000:317-321: [rhs < lhs] *)
Definition greater (lhs rhs : nat) : M (@world T) bool := less rhs lhs.

(** [operator<=], part_000:323-327: [!(rhs < lhs)] *)
Definition less_equal (lhs rhs : nat) : M (@world T) bool :=
  b ← less rhs lhs; mret (negb b).

(** [operator>=], part_000:329-333: [!(lhs < rhs)] *)
Definition greater_equal (lhs rhs : nat) : M (@world T) bool :=
  b ← less lhs rhs; mret (negb b).

(** The lexicographic order on sequences: the first position where the
    two differ decides, and a proper prefix is smaller. *)
Fixpoint lex_less (xs ys : list T) : bool :=
  match xs, ys with
  | x :: xs', y :: ys' =>
      if T_less x y then true
      else if T_less y x then false
      else lex_less xs' ys'
  | [], _ :: _ => true
  | _, [] => false
  end.

End Ordering.

(** ** [ReserveProxyObj] and the rest of [ArrayPtr] *)

(** [class ReserveProxyObj], part_000:11-27 *)
Record ReserveProxyObj := MkReserveProxyObj { capacity_to_reserve_ : Z }.

(** [ReserveProxyObj() = default] with [capacity_to_reserve_ = 0] *)
Definition ReserveProxyObj_default : ReserveProxyObj := MkReserveProxyObj 0.

Definition ReserveProxyObj_GetCapacity (p : ReserveProxyObj) : Z :=
  capacity_to_reserve_ p.

(** The free function [Reserve(size_t)], part_000:335-338 *)
Definition Reserve_proxy (capacity_to_reserve : Z) : ReserveProxyObj :=
  MkReserveProxyObj capacity_to_reserve.

Section MoreObjects.
Context {T : Type} `{EqDecision T}.
Variable T_default : T.

(** [SimpleVector(ReserveProxyObj rhs)], part_000:94-97 *)
Definition ctor_proxy (rhs : ReserveProxyObj) : M (@state T) unit :=
  Reserve T_default (ReserveProxyObj_GetCapacity rhs).

(** The definition [ArrayPtr this(size);] of a new object. *)
Definition ArrayPtr_construct (this : nat) (size : Z) : M (@astate T) unit := λ s,
  match objs s !! this with
  | Some _ => Undefined
  | None =>
      match ArrayPtr_new T_default size (amem s) with
      | Ok a h => Ok tt (AState (<[this := a]> (objs s)) h)
      | Throw e h => Throw e (AState (objs s) h)
      | AssertFail => AssertFail
      | Undefined => Undefined
      end
  end.

(** [explicit ArrayPtr(Type *raw_ptr) noexcept], array_ptr.h:23-26 *)
Definition ArrayPtr_from_raw (this : nat) (raw_ptr : ptr) : M (@astate T) unit :=
  aset this (MkArrayPtr raw_ptr).

End MoreObjects.

(** ** Preconditions and ownership *)

(** The arguments a call may be given: positions and indices inside the
    vector (the assertions of part_000), a non-empty vector for [PopBack],
    [size_t] values for the sizes, and for an element to store a reference
    to a live object; when the vector is full, so that the call
    reallocates, the object may not lie in the vector's own array. *)
Definition pre {T} (v : SimpleVector) (h : gmap block (list T)) (c : member T) : Prop :=
  match c with
  | CallPushBack item =>
      is_Some (value_of h item) ∧ (size_ v = capacity_ v → ¬ inside v item)
  | CallPopBack => 0 < size_ v
  | CallInsert i value =>
      0 ≤ i ≤ size_ v ∧ is_Some (value_of h value)
      ∧ (size_ v = capacity_ v → ¬ inside v value)
  | CallInsertRvalue i value =>
      0 ≤ i ≤ size_ v ∧ is_Some (value_of h value)
      ∧ (size_ v = capacity_ v → ¬ inside v value)
  | CallErase i => 0 ≤ i < size_ v
  | CallResize n => 0 ≤ n < 2 ^ 64
  | CallReserve n => 0 ≤ n < 2 ^ 64
  | CallClear => True
  | CallSubscript i => 0 ≤ i < size_ v
  | CallSubscriptAssign i _ => 0 ≤ i < size_ v
  | CallAt i => 0 ≤ i < 2 ^ 64
  | CallAtAssign i _ => 0 ≤ i < 2 ^ 64
  | CallGetSize => True
  | CallGetCapacity => True
  | CallIsEmpty => True
  end.

(** The array [b0] is the one the vector holds. *)
Definition owned {T} (s : @state T) (b0 : block) : Prop :=
  base (Get (items_ (this s))) = Some b0.

(** The destructor can run: [items_] is null or the start of a live
    array. *)
Definition tidy {T} (s : @state T) : Prop :=
  offset (Get (items_ (this s))) = 0 ∧ live s.

(** The free store changes by the vector's own array only: an array the
    vector does not hold afterwards is as before, or gone if it was the
    vector's; the array it holds afterwards is the one it held or a new
    one. *)
Definition own_only {T} (s s' : @state T) : Prop :=
  (tidy s → tidy s')
  ∧ (∀ b0, ¬ owned s' b0 →
       mem s' !! b0 = if decide (base (Get (items_ (this s))) = Some b0)
                      then None else mem s !! b0)
  ∧ (∀ b0, owned s' b0 → owned s b0 ∨ mem s !! b0 = None).

(** The free store once the array of the vector has been deleted. *)
Definition released {T} (v : SimpleVector) (h : gmap block (list T))
    : gmap block (list T) :=
  match base (Get (items_ v)) with
  | Some b => delete b h
  | None => h
  end.

(** The state of the capacity of a vector that has only ever grown by
    [PushBack] from the empty vector: zero while the vector is empty,
    afterwards the least power of two that holds the elements. *)
Definition doubled (v : SimpleVector) : Prop :=
  (size_ v = 0 ∧ capacity_ v = 0)
  ∨ (0 < size_ v ∧ capacity_ v = 2 ^ Z.log2_up (size_ v)).

(** * Verification *)

(** ** Facts about the free store and the algorithms *)

Section MemoryFacts.
Context {T : Type} `{EqDecision T}.
Implicit Types (h : gmap block (list T)) (l : list T) (b : block).

Lemma ptr_add_succ b (i : nat) :
  ptr_add (Ptr (Some b) (Z.of_nat i)) 1 = Ptr (Some b) (Z.of_nat (S i)).
Proof. unfold ptr_add; simpl. f_equal. lia. Qed.

Lemma ptr_add_pred b (i : nat) :
  ptr_add (Ptr (Some b) (Z.of_nat (S i))) (-1) = Ptr (Some b) (Z.of_nat i).
Proof. unfold ptr_add; simpl. f_equal. lia. Qed.

Lemma read_at h b l (i : nat) x :
  h !! b = Some l → l !! i = Some x →
  read (Ptr (Some b) (Z.of_nat i)) h = Ok x h.
Proof.
  intros Hb Hi. unfold read, load; simpl. rewrite Hb; simpl.
  rewrite decide_True by lia. by rewrite Nat2Z.id, Hi.
Qed.

Lemma write_at h b l (i : nat) x :
  h !! b = Some l → (i < length l)%nat →
  write (Ptr (Some b) (Z.of_nat i)) x h = Ok tt (<[b := <[i := x]> l]> h).
Proof.
  intros Hb Hi. unfold write, store; simpl. rewrite Hb; simpl.
  rewrite decide_True by lia. by rewrite Nat2Z.id.
Qed.

(** [std::copy] between two different arrays. *)
Lemma copy_n_across n : ∀ h b1 b2 l1 l2 (i j : nat),
  b1 ≠ b2 → h !! b1 = Some l1 → h !! b2 = Some l2 →
  (i + n ≤ length l1)%nat → (j + n ≤ length l2)%nat →
  copy_n n (Ptr (Some b1) (Z.of_nat i)) (Ptr (Some b2) (Z.of_nat j)) h
  = Ok tt (<[b2 := take j l2 ++ take n (drop i l1) ++ drop (j + n) l2]> h).
Proof.
  induction n as [|n IH]; intros h b1 b2 l1 l2 i j Hne H1 H2 Hi Hj; simpl.
  - rewrite Nat.add_0_r, take_drop. by rewrite insert_id.
  - destruct (lookup_lt_is_Some_2 l1 i) as [x Hx]; [lia|].
    unfold mbind, M_bind.
    rewrite (read_at h b1 l1 i x) by done.
    rewrite (write_at h b2 l2 j x) by (done || lia).
    rewrite !ptr_add_succ.
    rewrite (IH _ b1 b2 l1 (<[j:=x]> l2)); try done.
    + rewrite insert_insert_eq. do 2 f_equal.
      rewrite (take_S_r _ j x) by (apply list_lookup_insert_eq; lia).
      rewrite take_insert_ge by lia.
      rewrite drop_insert_lt by lia.
      rewrite (drop_S l1 x i) by done. simpl.
      rewrite <- app_assoc. simpl. repeat f_equal; lia.
    + by rewrite lookup_insert_ne.
    + by rewrite lookup_insert_eq.
    + lia.
    + rewrite length_insert. lia.
Qed.

Lemma copy_n_prefix n h b1 b2 l1 l2 :
  b1 ≠ b2 → h !! b1 = Some l1 → h !! b2 = Some l2 →
  (n ≤ length l1)%nat → (n ≤ length l2)%nat →
  copy_n n (Ptr (Some b1) 0) (Ptr (Some b2) 0) h
  = Ok tt (<[b2 := take n l1 ++ drop n l2]> h).
Proof.
  intros Hne H1 H2 Hn1 Hn2.
  apply (copy_n_across n h b1 b2 l1 l2 0 0); done.
Qed.

(** [std::move] of the tail of an array one slot to the left. *)
Lemma copy_n_shift_left n : ∀ h b l (i : nat),
  h !! b = Some l → (i + 1 + n ≤ length l)%nat →
  copy_n n (Ptr (Some b) (Z.of_nat (S i))) (Ptr (Some b) (Z.of_nat i)) h
  = Ok tt (<[b := take i l ++ take n (drop (S i) l) ++ drop (i + n) l]> h).
Proof.
  induction n as [|n IH]; intros h b l i Hb Hi; simpl.
  - rewrite Nat.add_0_r, take_drop. by rewrite insert_id.
  - destruct (lookup_lt_is_Some_2 l (S i)) as [x Hx]; [lia|].
    unfold mbind, M_bind.
    rewrite (read_at h b l (S i) x) by done.
    rewrite (write_at h b l i x) by (done || lia).
    rewrite !ptr_add_succ.
    rewrite (IH _ b (<[i:=x]> l)).
    + rewrite insert_insert_eq. do 2 f_equal.
      rewrite (take_S_r _ i x) by (apply list_lookup_insert_eq; lia).
      rewrite take_insert_ge by lia.
      rewrite !drop_insert_lt by lia.
      rewrite (drop_S l x (S i)) by done. simpl.
      rewrite <- app_assoc. simpl. repeat f_equal; lia.
    + by rewrite lookup_insert_eq.
    + rewrite length_insert. lia.
Qed.

(** [std::copy_backward] of the tail of an array one slot to the right. *)
Lemma copy_backward_n_shift_right n : ∀ h b l (first : nat),
  h !! b = Some l → (first + n + 1 ≤ length l)%nat →
  copy_backward_n n (Ptr (Some b) (Z.of_nat (first + n)))
                    (Ptr (Some b) (Z.of_nat (S (first + n)))) h
  = Ok tt (<[b := take (S first) l ++ take n (drop first l)
                  ++ drop (first + n + 1) l]> h).
Proof.
  induction n as [|n IH]; intros h b l first Hb Hlen; simpl.
  - rewrite !Nat.add_0_r, Nat.add_1_r, take_drop. by rewrite insert_id.
  - destruct (lookup_lt_is_Some_2 l (first + n)) as [x Hx]; [lia|].
    unfold mbind, M_bind.
    replace (first + S n)%nat with (S (first + n)) by lia.
    rewrite !ptr_add_pred.
    rewrite (read_at h b l (first + n) x) by done.
    rewrite (write_at h b l (S (first + n)) x) by (done || lia).
    rewrite (IH _ b (<[S (first + n):=x]> l)).
    + rewrite insert_insert_eq. do 2 f_equal.
      rewrite take_insert_ge by lia.
      rewrite (drop_insert_ge _ first) by lia.
      rewrite take_insert_ge by lia.
      rewrite (drop_insert_ge _ (first + n + 1)) by lia.
      destruct (lookup_lt_is_Some_2 l (S (first + n))) as [y Hy]; [lia|].
      rewrite (drop_S l y (first + n + 1)) by (by rewrite Nat.add_1_r).
      replace (S (first + n) - (first + n + 1))%nat with 0%nat by lia. simpl.
      rewrite (take_S_r _ n x) by (by rewrite lookup_drop).
      rewrite <- !app_assoc. simpl. repeat f_equal; lia.
    + by rewrite lookup_insert_eq.
    + rewrite length_insert. lia.
Qed.

(** [std::fill] and the value-initialising loop. *)
Lemma fill_n_block n : ∀ h b l (i : nat) x,
  h !! b = Some l → (i + n ≤ length l)%nat →
  fill_n n (Ptr (Some b) (Z.of_nat i)) x h
  = Ok tt (<[b := take i l ++ replicate n x ++ drop (i + n) l]> h).
Proof.
  induction n as [|n IH]; intros h b l i x Hb Hi; simpl.
  - rewrite Nat.add_0_r, take_drop. by rewrite insert_id.
  - unfold mbind, M_bind.
    rewrite (write_at h b l i x) by (done || lia).
    rewrite ptr_add_succ.
    rewrite (IH _ b (<[i:=x]> l)).
    + rewrite insert_insert_eq. do 2 f_equal.
      rewrite (take_S_r _ i x) by (apply list_lookup_insert_eq; lia).
      rewrite take_insert_ge by lia.
      rewrite drop_insert_lt by lia.
      rewrite <- app_assoc. simpl. repeat f_equal; lia.
    + by rewrite lookup_insert_eq.
    + rewrite length_insert. lia.
Qed.

Lemma copy_list_block init : ∀ h b l (i : nat),
  h !! b = Some l → (i + length init ≤ length l)%nat →
  copy_list init (Ptr (Some b) (Z.of_nat i)) h
  = Ok tt (<[b := take i l ++ init ++ drop (i + length init) l]> h).
Proof.
  induction init as [|x init IH]; intros h b l i Hb Hi; simpl in *.
  - rewrite Nat.add_0_r, take_drop. by rewrite insert_id.
  - unfold mbind, M_bind.
    rewrite (write_at h b l i x) by (done || lia).
    rewrite ptr_add_succ.
    rewrite (IH _ b (<[i:=x]> l)).
    + rewrite insert_insert_eq. do 2 f_equal.
      rewrite (take_S_r _ i x) by (apply list_lookup_insert_eq; lia).
      rewrite take_insert_ge by lia.
      rewrite drop_insert_lt by lia.
      rewrite <- app_assoc. simpl. repeat f_equal; lia.
    + by rewrite lookup_insert_eq.
    + rewrite length_insert. lia.
Qed.

Lemma read_n_block n : ∀ h b l (i : nat),
  h !! b = Some l → (i + n ≤ length l)%nat →
  read_n n (Ptr (Some b) (Z.of_nat i)) h = Ok (take n (drop i l)) h.
Proof.
  induction n as [|n IH]; intros h b l i Hb Hi; simpl.
  - done.
  - destruct (lookup_lt_is_Some_2 l i) as [x Hx]; [lia|].
    unfold mbind, M_bind.
    rewrite (read_at h b l i x) by done.
    rewrite ptr_add_succ, (IH h b l (S i)) by (done || lia).
    by rewrite (drop_S l x i).
Qed.

(** The two shifts with integer offsets, as the vector calls them. *)
Lemma std_copy_backward_shift h b l (first last : Z) :
  h !! b = Some l → 0 ≤ first ≤ last → last < Z.of_nat (length l) →
  std_copy_backward (Ptr (Some b) first) (Ptr (Some b) last)
                    (Ptr (Some b) (last + 1)) h
  = Ok (Ptr (Some b) (first + 1))
       (<[b := take (S (Z.to_nat first)) l
               ++ take (Z.to_nat (last - first)) (drop (Z.to_nat first) l)
               ++ drop (Z.to_nat last + 1) l]> h).
Proof.
  intros Hb Hf Hl. unfold std_copy_backward, ptr_diff; simpl.
  rewrite decide_True by done. rewrite decide_True by lia.
  unfold mbind, M_bind.
  set (n := Z.to_nat (last - first)). set (i := Z.to_nat first).
  replace last with (Z.of_nat (i + n)) at 1 by lia.
  replace (last + 1) with (Z.of_nat (S (i + n))) at 1 by lia.
  rewrite (copy_backward_n_shift_right n h b l i) by (done || lia).
  simpl. unfold ptr_add; simpl.
  replace (last + 1 + - (last - first)) with (first + 1) by lia.
  by replace (i + n + 1)%nat with (Z.to_nat last + 1)%nat by lia.
Qed.

Lemma std_copy_shift_left h b l (first last : Z) :
  h !! b = Some l → 0 ≤ first → first + 1 ≤ last ≤ Z.of_nat (length l) →
  std_copy (Ptr (Some b) (first + 1)) (Ptr (Some b) last) (Ptr (Some b) first) h
  = Ok (Ptr (Some b) (last - 1))
       (<[b := take (Z.to_nat first) l
               ++ take (Z.to_nat (last - first - 1)) (drop (S (Z.to_nat first)) l)
               ++ drop (Z.to_nat last - 1) l]> h).
Proof.
  intros Hb Hf Hl. unfold std_copy, ptr_diff; simpl.
  rewrite decide_True by done. rewrite decide_True by lia.
  unfold mbind, M_bind.
  replace (last - (first + 1)) with (last - first - 1) by lia.
  set (n := Z.to_nat (last - first - 1)). set (i := Z.to_nat first).
  replace (first + 1) with (Z.of_nat (S i)) by lia.
  replace first with (Z.of_nat i) by lia.
  rewrite (copy_n_shift_left n h b l i) by (done || lia).
  simpl. unfold ptr_add; simpl.
  replace (Z.of_nat i + (last - Z.of_nat i - 1)) with (last - 1) by lia.
  by replace (i + n)%nat with (Z.to_nat last - 1)%nat by lia.
Qed.

(** The element sequences that the shifts leave behind. *)
Lemma insert_shift_right l (i n : nat) x :
  (i ≤ n)%nat → (n < length l)%nat →
  take (S n) (<[i := x]> (take (S i) l ++ take (n - i) (drop i l) ++ drop (n + 1) l))
  = take i (take n l) ++ x :: drop i (take n l).
Proof.
  intros Hi Hn.
  destruct (lookup_lt_is_Some_2 l i) as [y Hy]; [lia|].
  rewrite (take_S_r l i y) by done.
  rewrite <- app_assoc.
  rewrite insert_app_r_alt by (rewrite length_take; lia).
  rewrite length_take. replace (i - i `min` length l)%nat with 0%nat by lia.
  simpl. rewrite take_app, length_take.
  rewrite (take_ge (take i l)) by (rewrite length_take; lia).
  replace (S n - i `min` length l)%nat with (S (n - i)) by lia. simpl.
  rewrite take_app_length' by (rewrite length_take, length_drop; lia).
  rewrite take_take. replace (i `min` n)%nat with i by lia.
  rewrite (take_drop_commute l (n - i) i).
  by replace (i + (n - i))%nat with n by lia.
Qed.

Lemma erase_shift_left l (i n : nat) :
  (i < n)%nat → (n ≤ length l)%nat →
  take (n - 1) (take i l ++ take (n - i - 1) (drop (S i) l) ++ drop (n - 1) l)
  = take i (take n l) ++ drop (S i) (take n l).
Proof.
  intros Hi Hn.
  rewrite take_app, length_take.
  rewrite (take_ge (take i l)) by (rewrite length_take; lia).
  replace (n - 1 - i `min` length l)%nat with (n - i - 1)%nat by lia.
  rewrite take_app_length' by (rewrite length_take, length_drop; lia).
  rewrite take_take. replace (i `min` n)%nat with i by lia.
  rewrite (take_drop_commute l (n - i - 1) (S i)).
  by replace (S i + (n - i - 1))%nat with n by lia.
Qed.

End MemoryFacts.

(** ** Facts about the member functions *)

Section MethodFacts.
Context {T : Type} `{EqDecision T}.
Variable T_default : T.
Implicit Types (h : gmap block (list T)) (l : list T) (b : block)
  (v : SimpleVector) (d : draft).

Lemma wrap_small z : 0 ≤ z < 2 ^ 64 → wrap z = z.
Proof. intros. unfold wrap. by apply Z.mod_small. Qed.

Lemma max_alloc_lt : max_alloc < 2 ^ 63.
Proof. unfold max_alloc. lia. Qed.

(** The two shapes of a well-formed vector. *)
Lemma wf_cases v h :
  wf v h →
  (items_ v = MkArrayPtr nullptr ∧ capacity_ v = 0 ∧ size_ v = 0
   ∧ buffer v h = [])
  ∨ (∃ b l, items_ v = MkArrayPtr (Ptr (Some b) 0) ∧ h !! b = Some l
      ∧ buffer v h = l ∧ length l = Z.to_nat (capacity_ v)
      ∧ 0 < capacity_ v).
Proof.
  destruct v as [[[bo off]] sz cp]. unfold wf, buffer; simpl.
  intros (Hs & Hc & -> & Hb). destruct bo as [b|].
  - right. destruct Hb as [Hpos Hl].
    destruct (h !! b) as [l|] eqn:E; simplify_eq/=.
    exists b, l. by rewrite E.
  - left. repeat split; [done | lia].
Qed.

Lemma wf_bounds v h :
  wf v h → 0 ≤ size_ v ≤ capacity_ v ∧ capacity_ v ≤ max_alloc.
Proof. intros (? & ? & _). done. Qed.

Lemma buffer_length v h :
  wf v h → length (buffer v h) = Z.to_nat (capacity_ v).
Proof.
  intros Hwf. destruct (wf_cases v h Hwf) as [(_ & -> & _ & ->)|(b & l & _ & _ & -> & ? & _)];
    done.
Qed.

Lemma elements_length v h :
  wf v h → length (elements v h) = Z.to_nat (size_ v).
Proof.
  intros Hwf. unfold elements. rewrite length_take, (buffer_length _ _ Hwf).
  apply wf_bounds in Hwf. lia.
Qed.

Lemma write_at_Z h b l (i : Z) x :
  h !! b = Some l → 0 ≤ i < Z.of_nat (length l) →
  write (Ptr (Some b) i) x h = Ok tt (<[b := <[Z.to_nat i := x]> l]> h).
Proof.
  intros Hb Hi. rewrite <- (Z2Nat.id i) at 1 by lia.
  apply write_at; [done | lia].
Qed.

(** *** Updates of the vector's array in place *)

Lemma wf_set_buffer v h l n :
  wf v h → length l = length (buffer v h) → 0 ≤ n ≤ capacity_ v →
  wf (MkVec (items_ v) n (capacity_ v)) (set_buffer v h l).
Proof.
  intros Hwf Hl Hn. pose proof (wf_bounds _ _ Hwf) as Hb.
  destruct (wf_cases v h Hwf) as [(Hi & Hc & Hs & Hbuf)|(b & l0 & Hi & Hh & Hbuf & Hlen & Hpos)].
  - unfold wf, set_buffer; simpl. rewrite Hi; simpl. repeat split; lia.
  - unfold wf, set_buffer; simpl. rewrite Hi; simpl.
    rewrite lookup_insert_eq; simpl. rewrite Hl, Hbuf, Hlen.
    repeat split; lia.
Qed.

Lemma buffer_set_buffer v h l n :
  wf v h → length l = length (buffer v h) →
  buffer (MkVec (items_ v) n (capacity_ v)) (set_buffer v h l) = l.
Proof.
  intros Hwf Hl.
  destruct (wf_cases v h Hwf) as [(Hi & Hc & Hs & Hbuf)|(b & l0 & Hi & Hh & Hbuf & Hlen & Hpos)].
  - unfold buffer, set_buffer; simpl. rewrite Hi; simpl.
    rewrite Hbuf in Hl. by destruct l.
  - unfold buffer, set_buffer; simpl. rewrite Hi; simpl.
    by rewrite lookup_insert_eq.
Qed.

Lemma frame_set_buffer v h l n :
  frame v h (MkVec (items_ v) n (capacity_ v)) (set_buffer v h l).
Proof.
  intros b0 Hb0 Hne. unfold set_buffer; simpl. split; [|done].
  destruct (base (Get (items_ v))) as [b|] eqn:E; [|done].
  rewrite lookup_insert_ne; [done | congruence].
Qed.

Lemma frame_refl v h n : frame v h (MkVec (items_ v) n (capacity_ v)) h.
Proof. intros b0 _ Hne. done. Qed.

Lemma frame_trans v1 h1 v2 h2 v3 h3 :
  frame v1 h1 v2 h2 → frame v2 h2 v3 h3 → frame v1 h1 v3 h3.
Proof.
  intros H12 H23 b0 Hd Hne. destruct (H12 b0 Hd Hne) as [E1 N1].
  destruct (H23 b0) as [E2 N2]; [|done|].
  - apply elem_of_dom. rewrite E1. by apply elem_of_dom.
  - split; [congruence | done].
Qed.

Lemma set_buffer_id v h :
  wf v h → set_buffer v h (buffer v h) = h.
Proof.
  intros Hwf.
  destruct (wf_cases v h Hwf) as [(Hi & Hc & Hs & Hbuf)|(b & l0 & Hi & Hh & Hbuf & Hlen & Hpos)];
    unfold set_buffer; rewrite Hi; simpl; [done|].
  rewrite Hbuf. by apply insert_id.
Qed.

Lemma write_in_place v h (i : Z) x :
  wf v h → 0 ≤ i < capacity_ v →
  on_heap (write (at_index (items_ v) i) x) (St v h)
  = Ok tt (St v (set_buffer v h (<[Z.to_nat i := x]> (buffer v h)))).
Proof.
  intros Hwf Hi.
  destruct (wf_cases v h Hwf) as [(Hv & Hc & Hs & Hbuf)|(b & l0 & Hv & Hh & Hbuf & Hlen & Hpos)];
    [lia|].
  unfold on_heap, at_index, set_buffer; simpl. rewrite Hv, Hbuf; simpl.
  unfold ptr_add; simpl. rewrite Z.add_0_l.
  by rewrite (write_at_Z h b l0 i x) by (done || lia).
Qed.

Lemma wf_set_buffer_same v h l :
  wf v h → length l = length (buffer v h) → wf v (set_buffer v h l).
Proof.
  intros Hwf Hl. pose proof (wf_bounds _ _ Hwf).
  pose proof (wf_set_buffer v h l (size_ v) Hwf Hl) as H'.
  destruct v. apply H'. simpl in *. lia.
Qed.

Lemma buffer_set_buffer_same v h l :
  wf v h → length l = length (buffer v h) → buffer v (set_buffer v h l) = l.
Proof.
  intros Hwf Hl. pose proof (buffer_set_buffer v h l (size_ v) Hwf Hl) as H'.
  by destruct v.
Qed.

Lemma set_buffer_twice v h l1 l2 :
  set_buffer v (set_buffer v h l1) l2 = set_buffer v h l2.
Proof.
  unfold set_buffer. destruct (base (Get (items_ v))); [|done].
  by rewrite insert_insert_eq.
Qed.

(** The loop of [Resize] that value-initialises the slots it exposes. *)
Lemma default_loop_spec k : ∀ v h (i : nat),
  wf v h → (i + k ≤ Z.to_nat (capacity_ v))%nat →
  default_loop T_default k (Z.of_nat i) (St v h)
  = Ok tt (St v (set_buffer v h
      (take i (buffer v h) ++ replicate k T_default ++ drop (i + k) (buffer v h)))).
Proof.
  induction k as [|k IH]; intros v h i Hwf Hik; simpl.
  - rewrite Nat.add_0_r, take_drop, set_buffer_id; done.
  - pose proof (buffer_length _ _ Hwf) as Hlen.
    unfold mbind, M_bind, gets; simpl.
    rewrite write_in_place by (done || lia). simpl.
    replace (Z.of_nat i + 1) with (Z.of_nat (S i)) by lia.
    rewrite Nat2Z.id.
    assert (length (<[i:=T_default]> (buffer v h)) = length (buffer v h)) as Hl1
      by apply length_insert.
    rewrite IH; [|by apply wf_set_buffer_same|lia].
    rewrite set_buffer_twice, buffer_set_buffer_same by done.
    do 3 f_equal.
    rewrite (take_S_r _ i T_default) by (apply list_lookup_insert_eq; lia).
    rewrite take_insert_ge by lia.
    rewrite drop_insert_lt by lia.
    rewrite <- app_assoc. simpl. repeat f_equal; lia.
Qed.

(** *** Reallocation *)

Lemma reallocate_throw v h c :
  0 < c → max_alloc < c → reallocate T_default c (St v h) = Throw bad_alloc (St v h).
Proof.
  intros Hpos Hc. unfold reallocate, ArrayPtr_new, new_array, on_heap, mbind, M_bind; simpl.
  rewrite decide_True by lia. simpl. by rewrite decide_False by lia.
Qed.

Lemma reallocate_ok v h c :
  wf v h → size_ v ≤ c → 0 < c → c ≤ max_alloc →
  ∃ v' h',
    reallocate T_default c (St v h) = Ok tt (St v' h')
    ∧ size_ v' = size_ v ∧ capacity_ v' = c ∧ wf v' h'
    ∧ buffer v' h' = elements v h
                     ++ replicate (Z.to_nat c - Z.to_nat (size_ v)) T_default
    ∧ frame v h v' h' ∧ relocated h v'.
Proof.
  intros Hwf Hsz Hpos Hc. pose proof (wf_bounds _ _ Hwf) as Hb.
  pose proof (is_fresh (dom h)) as Hfresh.
  destruct (wf_cases v h Hwf) as [(Hv & Hcap & Hs & Hbuf)|(b & l0 & Hv & Hh & Hbuf & Hlen & Hcpos)];
    unfold elements; rewrite Hbuf; clear Hbuf Hwf;
    destruct v as [it sz cp]; simpl in *; subst it.
  - subst sz cp.
    unfold reallocate, ArrayPtr_new, new_array, on_heap, mbind, M_bind; simpl.
    rewrite decide_True by lia. simpl. rewrite decide_True by lia. simpl.
    eexists _, _. split; [reflexivity|]. simpl.
    unfold wf, buffer, frame, relocated; simpl. rewrite lookup_insert_eq; simpl.
    rewrite length_replicate, Nat.sub_0_r.
    repeat split; try lia.
    + rewrite lookup_insert_ne; [done|]. by intros <-.
    + by intros [= <-].
    + eexists. split; [done|]. by apply not_elem_of_dom.
  - assert (b ≠ fresh (dom h)) as Hne.
    { intros ->. apply Hfresh, elem_of_dom. eauto. }
    set (b' := fresh (dom h)) in *.
    unfold reallocate, ArrayPtr_new, new_array, on_heap, mbind, M_bind; simpl.
    rewrite decide_True by lia. simpl. rewrite decide_True by lia. simpl.
    fold b'. set (h1 := <[b' := replicate (Z.to_nat c) T_default]> h).
    unfold std_move, std_copy, ptr_diff, begin_, end_, gets, Get; simpl.
    rewrite decide_True by done. rewrite Z.add_0_l, Z.sub_0_r.
    rewrite decide_True by lia. unfold mbind, M_bind.
    rewrite (copy_n_prefix (Z.to_nat sz) h1 b b' l0
               (replicate (Z.to_nat c) T_default)).
    + simpl. unfold ArrayPtr_destroy, delete_array; simpl.
      rewrite decide_True.
      2:{ split; [done|]. unfold h1. rewrite !lookup_insert_ne by done. eauto. }
      eexists _, _. split; [reflexivity|]. simpl.
      unfold wf, buffer, frame, relocated; simpl.
      rewrite lookup_delete_ne, lookup_insert_eq by done. simpl.
      rewrite drop_replicate.
      repeat split; try lia.
      * rewrite length_app, length_take, length_replicate. f_equal. lia.
      * rewrite lookup_delete_ne by congruence.
        unfold h1. rewrite !lookup_insert_ne; [done| |]; by intros <-.
      * by intros [= <-].
      * eexists. split; [done|]. by apply not_elem_of_dom.
    + done.
    + unfold h1. by rewrite lookup_insert_ne.
    + unfold h1. by rewrite lookup_insert_eq.
    + lia.
    + rewrite length_replicate. lia.
Qed.

(** *** [Resize] *)

(** The two drafts of [Resize] order the same assignments differently. *)
Lemma Resize_draft d n (s : state) :
  Resize T_default d n s = Resize T_default part_000 n s.
Proof.
  destruct d; [done|]. destruct s as [v h].
  unfold Resize, mbind, M_bind, mret, M_ret, gets; simpl.
  destruct (decide (n > capacity_ v));
    [|by repeat case_decide; repeat case_match; simplify_eq/=].
  generalize (n `max` (if decide (capacity_ v = 0) then 1 else wrap (capacity_ v * 2))).
  intros c.
  unfold on_heap, items_swap, set_items, set_capacity, set_size, gets, mbind, M_bind,
    ArrayPtr_destroy, delete_array; simpl.
  repeat (case_match; simplify_eq/=; try done).
Qed.

Lemma Resize_unfold n (s : state) :
  Resize T_default part_000 n s
  = (capacity ← gets capacity_;
     size ← gets size_;
     (if decide (n > capacity) then
        reallocate T_default
          (Z.max n (if decide (capacity = 0) then 1 else wrap (capacity * 2)))
      else if decide (n > size) then
        default_loop T_default (Z.to_nat (n - size)) size
      else mret tt);;
     set_size n) s.
Proof. reflexivity. Qed.

Lemma wf_set_size v h n :
  wf v h → 0 ≤ n ≤ capacity_ v → wf (MkVec (items_ v) n (capacity_ v)) h.
Proof. unfold wf; simpl. intros (? & ? & ? & ?) ?. done. Qed.

Lemma grown_gt n c : c < n → c < grown n c ∧ n ≤ grown n c.
Proof. unfold grown. lia. Qed.

Lemma Resize_grow d v h n :
  wf v h → capacity_ v < n → grown n (capacity_ v) ≤ max_alloc →
  ∃ v' h',
    Resize T_default d n (St v h) = Ok tt (St v' h')
    ∧ size_ v' = n ∧ capacity_ v' = grown n (capacity_ v) ∧ wf v' h'
    ∧ buffer v' h' = elements v h
        ++ replicate (Z.to_nat (grown n (capacity_ v)) - Z.to_nat (size_ v)) T_default
    ∧ frame v h v' h' ∧ relocated h v'.
Proof.
  intros Hwf Hn Hmax. pose proof (wf_bounds _ _ Hwf) as Hb.
  pose proof max_alloc_lt as Hm.
  pose proof (grown_gt n (capacity_ v) Hn) as Hg.
  rewrite Resize_draft, Resize_unfold.
  unfold mbind, M_bind, gets; cbn [this mem].
  rewrite decide_True by lia.
  rewrite (wrap_small (capacity_ v * 2)) by lia.
  fold (grown n (capacity_ v)).
  destruct (reallocate_ok v h (grown n (capacity_ v)))
    as (v1 & h1 & Hrun & Hsz & Hcap & Hwf1 & Hbuf & Hfr & Hrel); try (done || lia).
  rewrite Hrun. simpl.
  eexists _, _. split; [reflexivity|]. simpl.
  split; [done|]. split; [done|].
  split; [apply wf_set_size; [done | lia]|].
  split; [done|].
  split; [|done].
  intros b0 Hb0 Hne. apply Hfr; done.
Qed.

Lemma Resize_grow_throw d v h n :
  wf v h → capacity_ v < n → max_alloc < grown n (capacity_ v) →
  Resize T_default d n (St v h) = Throw bad_alloc (St v h).
Proof.
  intros Hwf Hn Hmax. pose proof (wf_bounds _ _ Hwf) as Hb.
  pose proof max_alloc_lt as Hm.
  rewrite Resize_draft, Resize_unfold.
  unfold mbind, M_bind, gets; cbn [this mem].
  rewrite decide_True by lia.
  rewrite (wrap_small (capacity_ v * 2)) by lia.
  fold (grown n (capacity_ v)).
  rewrite reallocate_throw; [done|lia|done].
Qed.

Lemma Resize_within d v h n :
  wf v h → size_ v < n ≤ capacity_ v →
  Resize T_default d n (St v h)
  = Ok tt (St (MkVec (items_ v) n (capacity_ v))
             (set_buffer v h
                (take (Z.to_nat (size_ v)) (buffer v h)
                 ++ replicate (Z.to_nat (n - size_ v)) T_default
                 ++ drop (Z.to_nat n) (buffer v h)))).
Proof.
  intros Hwf Hn. pose proof (wf_bounds _ _ Hwf) as Hb.
  rewrite Resize_draft.
  unfold Resize, mbind, M_bind, gets; simpl.
  rewrite decide_False by lia. rewrite decide_True by lia.
  rewrite <- (Z2Nat.id (size_ v)) at 2 by lia.
  rewrite default_loop_spec by (done || lia). simpl.
  unfold set_size; simpl.
  by replace (Z.to_nat (size_ v) + Z.to_nat (n - size_ v))%nat with (Z.to_nat n) by lia.
Qed.

Lemma Resize_shrink d v h n :
  wf v h → n ≤ size_ v →
  Resize T_default d n (St v h) = Ok tt (St (MkVec (items_ v) n (capacity_ v)) h).
Proof.
  intros Hwf Hn. pose proof (wf_bounds _ _ Hwf) as Hb.
  rewrite Resize_draft.
  unfold Resize, mbind, M_bind, gets; simpl.
  rewrite decide_False by lia. by rewrite decide_False by lia.
Qed.

(** *** In-place updates seen from any vector value with the same buffer *)

Lemma wf_update v h v' l :
  wf v h → items_ v' = items_ v → capacity_ v' = capacity_ v →
  0 ≤ size_ v' ≤ capacity_ v → length l = length (buffer v h) →
  wf v' (set_buffer v h l).
Proof.
  intros Hwf Hi Hc Hs Hl. destruct v' as [it sz cp]; simpl in *; subst.
  by apply wf_set_buffer.
Qed.

Lemma buffer_update v h v' l :
  wf v h → items_ v' = items_ v → length l = length (buffer v h) →
  buffer v' (set_buffer v h l) = l.
Proof.
  intros Hwf Hi Hl. rewrite <- (buffer_set_buffer v h l 0 Hwf Hl) at 2.
  unfold buffer; simpl. by rewrite Hi.
Qed.

Lemma frame_update v h v' l :
  items_ v' = items_ v → frame v h v' (set_buffer v h l).
Proof.
  intros Hi b0 Hb0 Hne. rewrite Hi. by apply (frame_set_buffer v h l 0).
Qed.

Lemma frame_same v h v' : items_ v' = items_ v → frame v h v' h.
Proof. intros Hi b0 _ Hne. by rewrite Hi. Qed.

Lemma frame_items v h v1 v2 h' :
  items_ v2 = items_ v1 → frame v h v1 h' → frame v h v2 h'.
Proof. intros Hi Hf b0 Hb0 Hne. rewrite Hi. by apply Hf. Qed.

Lemma elements_eq_buffer v1 h1 v2 h2 :
  size_ v1 = size_ v2 → buffer v1 h1 = buffer v2 h2 →
  elements v1 h1 = elements v2 h2.
Proof. unfold elements. by intros -> ->. Qed.

(** *** [ResizeCurrentVector] and [PushBack] *)

Lemma ResizeCurrentVector_ok d v h :
  wf v h →
  (size_ v = capacity_ v → grown (size_ v + 1) (capacity_ v) ≤ max_alloc) →
  ∃ v' h',
    ResizeCurrentVector T_default d (St v h) = Ok tt (St v' h')
    ∧ size_ v' = size_ v + 1
    ∧ capacity_ v' = (if decide (size_ v = capacity_ v)
                      then grown (size_ v + 1) (capacity_ v) else capacity_ v)
    ∧ wf v' h'
    ∧ take (Z.to_nat (size_ v)) (buffer v' h') = elements v h
    ∧ frame v h v' h'
    ∧ (size_ v < capacity_ v → items_ v' = items_ v ∧ h' = h)
    ∧ (size_ v = capacity_ v → relocated h v').
Proof.
  intros Hwf Hmax. pose proof (wf_bounds _ _ Hwf) as Hb.
  pose proof max_alloc_lt as Hm.
  unfold ResizeCurrentVector, mbind, M_bind, gets; cbn [this mem].
  rewrite (wrap_small (size_ v + 1)) by lia.
  destruct (decide (capacity_ v ≤ size_ v)) as [Hfull|Hroom].
  - assert (size_ v = capacity_ v) as Heq by lia.
    destruct (Resize_grow d v h (size_ v + 1))
      as (v' & h' & Hrun & Hsz & Hcap & Hwf' & Hbuf & Hfr & Hrel); [done|lia|auto|].
    exists v', h'. rewrite decide_True by done.
    split; [done|]. split; [done|]. split; [done|]. split; [done|].
    split; [|split; [done|split; [lia|done]]].
    rewrite Hbuf. rewrite take_app_length'; [done|].
    by rewrite elements_length.
  - eexists _, _. split; [reflexivity|]. simpl.
    rewrite decide_False by lia.
    split; [done|]. split; [done|].
    split; [apply wf_set_size; [done|lia]|].
    split; [done|]. split; [by apply frame_same|]. split; [done|lia].
Qed.

Lemma ResizeCurrentVector_throw d v h :
  wf v h → size_ v = capacity_ v →
  max_alloc < grown (size_ v + 1) (capacity_ v) →
  ResizeCurrentVector T_default d (St v h) = Throw bad_alloc (St v h).
Proof.
  intros Hwf Heq Hmax. pose proof (wf_bounds _ _ Hwf) as Hb.
  pose proof max_alloc_lt as Hm.
  unfold ResizeCurrentVector, mbind, M_bind, gets; cbn [this mem].
  rewrite (wrap_small (size_ v + 1)) by lia.
  rewrite decide_True by lia.
  apply Resize_grow_throw; [done|lia|done].
Qed.

(** *** Reading a reference argument *)

Lemma deref_run h (item : ref T) x :
  value_of h item = Some x → deref item h = Ok x h.
Proof.
  destruct item as [y|p]; simpl; [by intros [= ->]|].
  intros Hx. unfold read. by rewrite Hx.
Qed.

Lemma deref_undefined h (item : ref T) :
  value_of h item = None → deref item h = Undefined.
Proof.
  destruct item as [y|p]; simpl; [done|].
  intros Hx. unfold read. by rewrite Hx.
Qed.

Lemma on_heap_deref v h (item : ref T) x :
  value_of h item = Some x → on_heap (deref item) (St v h) = Ok x (St v h).
Proof. intros Hx. unfold on_heap; simpl. by rewrite (deref_run _ _ _ Hx). Qed.

(** A reference that does not point into the vector's array designates the
    same value after a call that respects the frame. *)
Lemma value_of_frame v h v' h' (item : ref T) x :
  frame v h v' h' → ¬ inside v item →
  value_of h item = Some x → value_of h' item = Some x.
Proof.
  intros Hfr Hout. destruct item as [y|p]; simpl in *; [done|].
  unfold load. destruct (base p) as [b0|] eqn:Hp; simpl; [|done].
  destruct (h !! b0) as [l|] eqn:Hl; simpl; [|done].
  destruct (Hfr b0) as [-> _]; [by apply elem_of_dom|congruence|].
  by rewrite Hl.
Qed.

Lemma PushBack_ok d v h (item : ref T) x :
  wf v h →
  (size_ v = capacity_ v → grown (size_ v + 1) (capacity_ v) ≤ max_alloc) →
  value_of h item = Some x →
  (size_ v = capacity_ v → ¬ inside v item) →
  ∃ v' h',
    PushBack T_default d item (St v h) = Ok tt (St v' h')
    ∧ size_ v' = size_ v + 1
    ∧ capacity_ v' = (if decide (size_ v = capacity_ v)
                      then grown (size_ v + 1) (capacity_ v) else capacity_ v)
    ∧ wf v' h'
    ∧ elements v' h' = elements v h ++ [x]
    ∧ frame v h v' h'
    ∧ (size_ v < capacity_ v → items_ v' = items_ v)
    ∧ (size_ v = capacity_ v → relocated h v').
Proof.
  intros Hwf Hmax Hval Hout. pose proof (wf_bounds _ _ Hwf) as Hb.
  pose proof max_alloc_lt as Hm.
  destruct (ResizeCurrentVector_ok d v h Hwf Hmax)
    as (v1 & h1 & Hrun & Hsz & Hcap & Hwf1 & Hbuf & Hfr & Hsame & Hrel).
  pose proof (wf_bounds _ _ Hwf1) as Hb1.
  pose proof (buffer_length _ _ Hwf1) as Hlen1.
  assert (value_of h1 item = Some x) as Hval1.
  { destruct (decide (size_ v = capacity_ v)) as [Hfull|Hroom].
    - by apply (value_of_frame v h v1 h1); [|apply Hout|].
    - destruct Hsame as [_ ->]; [lia|done]. }
  unfold PushBack, mbind, M_bind. rewrite Hrun. unfold gets; cbn [this mem].
  rewrite (on_heap_deref v1 h1 item x Hval1).
  rewrite Hsz. replace (size_ v + 1 - 1) with (size_ v) by lia.
  rewrite (wrap_small (size_ v)) by lia.
  rewrite write_in_place by (done || lia).
  eexists _, _. split; [reflexivity|].
  assert (length (<[Z.to_nat (size_ v):=x]> (buffer v1 h1)) = length (buffer v1 h1))
    as Hl by apply length_insert.
  split; [done|]. split; [done|].
  split; [by apply wf_set_buffer_same|].
  split; [|split; [|split]].
  - unfold elements at 1. rewrite buffer_set_buffer_same by done.
    rewrite Hsz. replace (Z.to_nat (size_ v + 1)) with (S (Z.to_nat (size_ v))) by lia.
    rewrite (take_S_r _ _ x) by (apply list_lookup_insert_eq; lia).
    rewrite take_insert_ge by lia. by rewrite Hbuf.
  - eapply frame_trans; [exact Hfr|]. by apply frame_update.
  - intros Hlt. by apply Hsame.
  - done.
Qed.

Lemma PushBack_throw d v h (item : ref T) :
  wf v h → size_ v = capacity_ v →
  max_alloc < grown (size_ v + 1) (capacity_ v) →
  PushBack T_default d item (St v h) = Throw bad_alloc (St v h).
Proof.
  intros Hwf Heq Hmax. unfold PushBack, mbind, M_bind.
  by rewrite ResizeCurrentVector_throw.
Qed.

(** *** [PopBack], [Clear], [Reserve], [At] *)

Lemma PopBack_ok d v h :
  0 < size_ v < 2 ^ 64 →
  PopBack d (St v h) = Ok tt (St (MkVec (items_ v) (size_ v - 1) (capacity_ v)) h).
Proof.
  intros Hs.
  destruct d; unfold PopBack, mbind, M_bind, gets, IsEmpty, assert, set_size;
    cbn [this mem]; rewrite bool_decide_eq_false_2 by lia; simpl;
    by rewrite wrap_small by lia.
Qed.

Lemma PopBack_empty_part_000 v h :
  size_ v = 0 → PopBack part_000 (St v h) = AssertFail.
Proof.
  intros Hs. unfold PopBack, mbind, M_bind, gets, IsEmpty, assert; cbn [this mem].
  by rewrite bool_decide_eq_true_2.
Qed.

Lemma PopBack_empty_part_001 v h :
  size_ v = 0 → PopBack part_001 (St v h) = Ok tt (St v h).
Proof.
  intros Hs. unfold PopBack, mbind, M_bind, gets, IsEmpty; cbn [this mem].
  by rewrite bool_decide_eq_true_2.
Qed.

Lemma elements_set_size v h n :
  wf v h → 0 ≤ n ≤ size_ v →
  elements (MkVec (items_ v) n (capacity_ v)) h = take (Z.to_nat n) (elements v h).
Proof.
  intros Hwf Hn. unfold elements, buffer; simpl.
  rewrite take_take. f_equal. lia.
Qed.

Lemma Reserve_noop v h c :
  c ≤ capacity_ v → Reserve T_default c (St v h) = Ok tt (St v h).
Proof.
  intros Hc. unfold Reserve, mbind, M_bind, gets; cbn [this mem].
  by rewrite decide_False by lia.
Qed.

Lemma Reserve_unfold c (s : state) :
  Reserve T_default c s
  = (capacity ← gets capacity_;
     if decide (capacity < c) then reallocate T_default c else mret tt) s.
Proof. reflexivity. Qed.

Lemma Reserve_grow v h c :
  wf v h → capacity_ v < c → c ≤ max_alloc →
  ∃ v' h',
    Reserve T_default c (St v h) = Ok tt (St v' h')
    ∧ size_ v' = size_ v ∧ capacity_ v' = c ∧ wf v' h'
    ∧ elements v' h' = elements v h
    ∧ buffer v' h' = elements v h
                     ++ replicate (Z.to_nat c - Z.to_nat (size_ v)) T_default
    ∧ frame v h v' h' ∧ relocated h v'.
Proof.
  intros Hwf Hc Hmax. pose proof (wf_bounds _ _ Hwf) as Hb.
  rewrite Reserve_unfold. unfold mbind, M_bind, gets; cbn [this mem].
  rewrite decide_True by lia.
  destruct (reallocate_ok v h c)
    as (v' & h' & Hrun & Hsz & Hcap & Hwf' & Hbuf & Hfr & Hrel);
    try (done || lia).
  exists v', h'. split; [done|]. split; [done|]. split; [done|]. split; [done|].
  split; [|done].
  unfold elements at 1. rewrite Hbuf, Hsz. rewrite take_app_length'; [done|].
  by rewrite elements_length.
Qed.

Lemma Reserve_throw v h c :
  0 ≤ capacity_ v < c → max_alloc < c →
  Reserve T_default c (St v h) = Throw bad_alloc (St v h).
Proof.
  intros Hc Hmax.
  rewrite Reserve_unfold. unfold mbind, M_bind, gets; cbn [this mem].
  rewrite decide_True by lia. apply reallocate_throw; lia.
Qed.

Lemma At_in_range v h i :
  i < size_ v → At i (St v h) = Ok (at_index (items_ v) i) (St v h).
Proof.
  intros Hi. unfold At, mbind, M_bind, gets; cbn [this mem].
  by rewrite decide_False by lia.
Qed.

Lemma At_out_of_range v h i :
  size_ v ≤ i → At i (St v h) = Throw out_of_range (St v h).
Proof.
  intros Hi. unfold At, mbind, M_bind, gets; cbn [this mem].
  by rewrite decide_True by lia.
Qed.

(** The reference [items_[i]] of a well-formed vector designates the
    [i]-th slot of its buffer. *)
Lemma load_at_index v h i :
  wf v h → 0 ≤ i →
  load h (at_index (items_ v) i) = buffer v h !! Z.to_nat i.
Proof.
  intros Hwf Hi.
  destruct (wf_cases v h Hwf) as [(Hv & Hc & Hs & Hbuf)|(b & l0 & Hv & Hh & Hbuf & Hlen & Hpos)].
  - rewrite Hv, Hbuf. done.
  - rewrite Hv, Hbuf. unfold load, at_index, ptr_add; simpl.
    rewrite Hh; simpl. by rewrite decide_True by lia.
Qed.

(** *** [Insert] *)

Lemma shift_right_in_place v h (i : Z) :
  wf v h → 0 ≤ i < size_ v →
  on_heap (std_copy_backward (at_index (items_ v) i) (ptr_add (end_ v) (-1)) (end_ v))
          (St v h)
  = Ok (at_index (items_ v) (i + 1))
       (St v (set_buffer v h
          (take (S (Z.to_nat i)) (buffer v h)
           ++ take (Z.to_nat (size_ v - 1 - i)) (drop (Z.to_nat i) (buffer v h))
           ++ drop (Z.to_nat (size_ v)) (buffer v h)))).
Proof.
  intros Hwf Hi. pose proof (wf_bounds _ _ Hwf) as Hb.
  destruct (wf_cases v h Hwf) as [(Hv & Hc & Hs & Hbuf)|(b & l0 & Hv & Hh & Hbuf & Hlen & Hpos)];
    [lia|].
  unfold on_heap, at_index, end_, set_buffer, Get; simpl. rewrite Hv, Hbuf; simpl.
  unfold ptr_add; simpl. rewrite !Z.add_0_l.
  replace (size_ v + -1) with (size_ v - 1) by lia.
  replace (size_ v) with (size_ v - 1 + 1) at 2 by lia.
  rewrite (std_copy_backward_shift h b l0 i (size_ v - 1)) by (done || lia).
  by replace (Z.to_nat (size_ v - 1) + 1)%nat with (Z.to_nat (size_ v)) by lia.
Qed.

Lemma value_of_set_buffer v h l (item : ref T) x :
  value_of h item = Some x → ¬ inside v item →
  value_of (set_buffer v h l) item = Some x.
Proof.
  intros Hval Hout.
  by apply (value_of_frame v h v (set_buffer v h l)); [apply frame_update|..].
Qed.

(** A readable reference does not point into an array that has only just
    been allocated. *)
Lemma relocated_outside h v' (item : ref T) x :
  value_of h item = Some x → relocated h v' → ¬ inside v' item.
Proof.
  intros Hval (b' & Hit & Hnone). destruct item as [y|p]; simpl in *; [tauto|].
  unfold Get. rewrite Hit; simpl. intros Hp.
  unfold load in Hval. rewrite Hp in Hval; simpl in Hval.
  by rewrite Hnone in Hval.
Qed.

(** [Insert] before an element: the value stored is the one the reference
    designates once the elements have been shifted. *)
Lemma Insert_middle d v h (i : Z) (item : ref T) x :
  wf v h → 0 ≤ i < size_ v →
  (size_ v = capacity_ v → grown (size_ v + 1) (capacity_ v) ≤ max_alloc) →
  (∀ v1 h1,
     ResizeCurrentVector T_default d (St v h) = Ok tt (St v1 h1) →
     value_of
       (set_buffer v1 h1
          (take (S (Z.to_nat i)) (buffer v1 h1)
           ++ take (Z.to_nat (size_ v1 - 1 - i)) (drop (Z.to_nat i) (buffer v1 h1))
           ++ drop (Z.to_nat (size_ v1)) (buffer v1 h1))) item = Some x) →
  ∃ v' h',
    Insert T_default d (ptr_add (begin_ v) i) item (St v h)
    = Ok (ptr_add (begin_ v') i) (St v' h')
    ∧ size_ v' = size_ v + 1
    ∧ capacity_ v' = (if decide (size_ v = capacity_ v)
                      then grown (size_ v + 1) (capacity_ v) else capacity_ v)
    ∧ wf v' h'
    ∧ elements v' h' = take (Z.to_nat i) (elements v h)
                       ++ x :: drop (Z.to_nat i) (elements v h)
    ∧ frame v h v' h'
    ∧ (size_ v < capacity_ v → items_ v' = items_ v)
    ∧ (size_ v = capacity_ v → relocated h v').
Proof.
  intros Hwf Hi Hmax Hread. pose proof (wf_bounds _ _ Hwf) as Hb.
  pose proof (elements_length _ _ Hwf) as Hel.
  unfold Insert, mbind at 1, M_bind at 1, gets; cbn [this mem].
  rewrite decide_False.
  2:{ unfold cend, begin_, ptr_add. intros [= ?]. lia. }
  unfold mbind, M_bind; cbn [this mem].
  assert (ptr_diff (ptr_add (begin_ v) i) (Get (items_ v)) = Some i) as ->.
  { unfold ptr_diff, begin_, ptr_add; simpl. rewrite decide_True by done.
    f_equal. lia. }
  destruct (ResizeCurrentVector_ok d v h Hwf Hmax)
    as (v1 & h1 & Hrun & Hsz & Hcap & Hwf1 & Hbuf & Hfr & Hsame & Hrel).
  specialize (Hread v1 h1 Hrun).
  pose proof (wf_bounds _ _ Hwf1) as Hb1.
  pose proof (buffer_length _ _ Hwf1) as Hlen1.
  rewrite Hrun. cbn [this mem].
  rewrite shift_right_in_place by (done || lia). cbn [this mem].
  set (l1 := take (S (Z.to_nat i)) (buffer v1 h1) ++ _) in *.
  assert (length l1 = length (buffer v1 h1)) as Hl1.
  { unfold l1. rewrite !length_app, !length_take, !length_drop. lia. }
  assert (ptr_add (at_index (items_ v1) (i + 1)) (-1) = at_index (items_ v1) i) as ->.
  { unfold at_index, ptr_add; simpl. f_equal. lia. }
  pose proof (wf_set_buffer_same _ _ l1 Hwf1 Hl1) as Hwf2.
  rewrite (on_heap_deref v1 _ item x Hread).
  rewrite write_in_place by (done || lia).
  rewrite set_buffer_twice, buffer_set_buffer_same by done.
  exists v1, (set_buffer v1 h1 (<[Z.to_nat i:=x]> l1)).
  split; [done|]. split; [done|]. split; [done|].
  split; [apply wf_set_buffer_same; [done|by rewrite length_insert]|].
  split; [|split; [|split]]; [| | |done].
  + unfold elements at 1.
    rewrite buffer_set_buffer_same by (done || by rewrite length_insert).
    rewrite Hsz. replace (Z.to_nat (size_ v + 1)) with (S (Z.to_nat (size_ v))) by lia.
    unfold l1. rewrite Hsz.
    replace (Z.to_nat (size_ v + 1 - 1 - i)) with (Z.to_nat (size_ v) - Z.to_nat i)%nat by lia.
    replace (Z.to_nat (size_ v + 1)) with (Z.to_nat (size_ v) + 1)%nat by lia.
    rewrite insert_shift_right by lia. by rewrite Hbuf.
  + eapply frame_trans; [exact Hfr|]. by apply frame_update.
  + intros Hlt. by apply Hsame.
Qed.

Lemma Insert_ok d v h (i : Z) (item : ref T) x :
  wf v h → 0 ≤ i ≤ size_ v →
  (size_ v = capacity_ v → grown (size_ v + 1) (capacity_ v) ≤ max_alloc) →
  value_of h item = Some x → ¬ inside v item →
  ∃ v' h',
    Insert T_default d (ptr_add (begin_ v) i) item (St v h)
    = Ok (ptr_add (begin_ v') i) (St v' h')
    ∧ size_ v' = size_ v + 1
    ∧ capacity_ v' = (if decide (size_ v = capacity_ v)
                      then grown (size_ v + 1) (capacity_ v) else capacity_ v)
    ∧ wf v' h'
    ∧ elements v' h' = take (Z.to_nat i) (elements v h)
                       ++ x :: drop (Z.to_nat i) (elements v h)
    ∧ frame v h v' h'
    ∧ (size_ v < capacity_ v → items_ v' = items_ v)
    ∧ (size_ v = capacity_ v → relocated h v').
Proof.
  intros Hwf Hi Hmax Hval Hout. pose proof (wf_bounds _ _ Hwf) as Hb.
  pose proof (elements_length _ _ Hwf) as Hel.
  destruct (decide (i = size_ v)) as [->|Hne].
  - unfold Insert, mbind at 1, M_bind at 1, gets; cbn [this mem].
    rewrite decide_True by done.
    destruct (PushBack_ok d v h item x Hwf Hmax Hval)
      as (v' & h' & Hrun & Hsz & Hcap & Hwf' & Hels & Hfr & Hsame & Hrel); [done|].
    unfold mbind, M_bind. rewrite Hrun. cbn [this mem].
    exists v', h'. split.
    { unfold mret, M_ret. f_equal. unfold end_, begin_, ptr_add; simpl.
      f_equal. lia. }
    split; [done|]. split; [done|]. split; [done|].
    split; [|done].
    rewrite Hels, take_ge, drop_ge by lia. done.
  - apply Insert_middle; [done|lia|done|].
    intros v1 h1 Hrun1.
    destruct (ResizeCurrentVector_ok d v h Hwf Hmax)
      as (v2 & h2 & Hrun & _ & _ & _ & _ & Hfr & Hsame & Hrel).
    rewrite Hrun in Hrun1. injection Hrun1 as <- <-.
    apply value_of_set_buffer; [by apply (value_of_frame v h v2 h2)|].
    destruct (decide (size_ v = capacity_ v)) as [Hfull|Hroom].
    + by apply (relocated_outside h v2 item x); [|apply Hrel].
    + destruct Hsame as [Hit _]; [lia|].
      destruct item as [y|p]; simpl in *; [done|]. by rewrite Hit.
Qed.

Lemma Insert_throw d v h (i : Z) (item : ref T) :
  wf v h → 0 ≤ i ≤ size_ v → size_ v = capacity_ v →
  max_alloc < grown (size_ v + 1) (capacity_ v) →
  Insert T_default d (ptr_add (begin_ v) i) item (St v h) = Throw bad_alloc (St v h).
Proof.
  intros Hwf Hi Heq Hmax.
  unfold Insert, mbind at 1, M_bind at 1, gets; cbn [this mem].
  destruct (decide (i = size_ v)) as [->|Hne].
  - rewrite decide_True by done. unfold mbind, M_bind.
    by rewrite PushBack_throw.
  - rewrite decide_False.
    2:{ unfold cend, begin_, ptr_add. intros [= ?]. lia. }
    unfold mbind, M_bind; cbn [this mem].
    assert (ptr_diff (ptr_add (begin_ v) i) (Get (items_ v)) = Some i) as ->.
    { unfold ptr_diff, begin_, ptr_add; simpl. rewrite decide_True by done.
      f_equal. lia. }
    by rewrite ResizeCurrentVector_throw.
Qed.

(** The assertions of part_000 on a position in [[begin(), end()]] hold. *)
Lemma position_asserts v h (i : Z) :
  0 ≤ i ≤ size_ v →
  (e ← gets end_; c ← ptr_le (ptr_add (begin_ v) i) e; assert c;;
   b ← gets begin_; c ← ptr_le b (ptr_add (begin_ v) i); assert c) (St v h)
  = Ok tt (St v h).
Proof.
  intros Hi.
  unfold mbind, M_bind, gets, ptr_le, ptr_diff, begin_, end_, ptr_add; simpl.
  rewrite !decide_True by done. unfold mret, M_ret, assert.
  rewrite bool_decide_eq_true_2 by lia. simpl.
  rewrite decide_True by done. by rewrite bool_decide_eq_true_2 by lia.
Qed.

(** The rvalue overload asserts that the position lies in
    [[begin(), end()]] and then runs the same statements. *)
Lemma Insert_rvalue_eq d v h (i : Z) (item : ref T) :
  0 ≤ i ≤ size_ v →
  Insert_rvalue T_default d (ptr_add (begin_ v) i) item (St v h)
  = Insert T_default d (ptr_add (begin_ v) i) item (St v h).
Proof.
  intros Hi. unfold Insert_rvalue, Insert.
  destruct d; [|done].
  unfold mbind at 1, M_bind at 1. by rewrite position_asserts.
Qed.

(** *** [Erase] *)

Lemma shift_left_in_place v h (i : Z) :
  wf v h → 0 ≤ i → i + 1 < size_ v →
  on_heap (std_move (at_index (items_ v) (i + 1)) (end_ v) (at_index (items_ v) i))
          (St v h)
  = Ok (ptr_add (end_ v) (-1))
       (St v (set_buffer v h
          (take (Z.to_nat i) (buffer v h)
           ++ take (Z.to_nat (size_ v - i - 1)) (drop (S (Z.to_nat i)) (buffer v h))
           ++ drop (Z.to_nat (size_ v) - 1) (buffer v h)))).
Proof.
  intros Hwf Hi Hn. pose proof (wf_bounds _ _ Hwf) as Hb.
  destruct (wf_cases v h Hwf) as [(Hv & Hc & Hs & Hbuf)|(b & l0 & Hv & Hh & Hbuf & Hlen & Hpos)];
    [lia|].
  unfold on_heap, std_move, at_index, end_, set_buffer, Get; simpl. rewrite Hv, Hbuf; simpl.
  unfold ptr_add; simpl. rewrite !Z.add_0_l.
  rewrite (std_copy_shift_left h b l0 i (size_ v)) by (done || lia).
  by replace (size_ v + -1) with (size_ v - 1) by lia.
Qed.

Lemma Erase_ok d v h (i : Z) :
  wf v h → 0 ≤ i < size_ v →
  ∃ h',
    let v' := MkVec (items_ v) (size_ v - 1) (capacity_ v) in
    Erase d (ptr_add (begin_ v) i) (St v h) = Ok (ptr_add (begin_ v') i) (St v' h')
    ∧ wf v' h'
    ∧ elements v' h' = take (Z.to_nat i) (elements v h)
                       ++ drop (S (Z.to_nat i)) (elements v h)
    ∧ frame v h v' h'.
Proof.
  intros Hwf Hi. pose proof (wf_bounds _ _ Hwf) as Hb.
  pose proof max_alloc_lt as Hm.
  pose proof (buffer_length _ _ Hwf) as Hlen.
  assert (Erase d (ptr_add (begin_ v) i) (St v h)
          = Erase part_001 (ptr_add (begin_ v) i) (St v h)) as ->.
  { destruct d; [|done]. unfold Erase.
    unfold mbind at 1, M_bind at 1. rewrite position_asserts by lia. done. }
  unfold Erase. unfold mbind at 1 2, M_bind at 1 2, mret at 1, M_ret at 1, gets; cbn [this mem].
  assert (ptr_diff (ptr_add (begin_ v) i) (begin_ v) = Some i) as ->.
  { unfold ptr_diff, begin_, ptr_add; simpl. rewrite decide_True by done.
    f_equal. lia. }
  unfold mbind at 1 2, M_bind at 1 2; cbn [this mem].
  unfold ptr_lt. 
  assert (ptr_diff (ptr_add (begin_ v) i) (ptr_add (end_ v) (-1))
          = Some (i - (size_ v - 1))) as ->.
  { unfold ptr_diff, begin_, end_, ptr_add; simpl. rewrite decide_True by done.
    f_equal. lia. }
  unfold mret at 1, M_ret at 1.
  destruct (decide (i + 1 < size_ v)) as [Hlt|Hlast].
  - rewrite bool_decide_eq_true_2 by lia.
    unfold mbind, M_bind, gets; cbn [this mem].
    rewrite shift_left_in_place by (done || lia).
    unfold mret, M_ret, set_size; cbn [this mem].
    rewrite wrap_small by lia.
    set (l1 := take (Z.to_nat i) (buffer v h) ++ _).
    assert (length l1 = length (buffer v h)) as Hl1.
    { unfold l1. rewrite !length_app, !length_take, !length_drop. lia. }
    exists (set_buffer v h l1). simpl. split; [done|].
    split; [apply wf_set_buffer; [done|done|lia]|].
    split; [|apply frame_set_buffer].
    unfold elements at 1. rewrite buffer_set_buffer by done. simpl.
    unfold l1.
    replace (Z.to_nat (size_ v - 1)) with (Z.to_nat (size_ v) - 1)%nat by lia.
    replace (Z.to_nat (size_ v - i - 1))
      with (Z.to_nat (size_ v) - Z.to_nat i - 1)%nat by lia.
    by rewrite erase_shift_left by lia.
  - rewrite bool_decide_eq_false_2 by lia.
    unfold mbind, M_bind, mret, M_ret, gets, set_size; cbn [this mem].
    rewrite wrap_small by lia.
    exists h. simpl. split; [done|].
    split; [apply wf_set_size; [done|lia]|].
    split; [|apply frame_refl].
    rewrite elements_set_size by (done || lia).
    pose proof (elements_length _ _ Hwf) as Hel.
    rewrite (drop_ge (elements v h)) by lia. rewrite app_nil_r.
    f_equal. lia.
Qed.

Lemma Resize_grow_elements d v h n :
  wf v h → capacity_ v < n → grown n (capacity_ v) ≤ max_alloc →
  ∃ v' h',
    Resize T_default d n (St v h) = Ok tt (St v' h')
    ∧ size_ v' = n ∧ capacity_ v' = grown n (capacity_ v) ∧ wf v' h'
    ∧ elements v' h'
      = elements v h ++ replicate (Z.to_nat (n - size_ v)) T_default
    ∧ frame v h v' h' ∧ relocated h v'.
Proof.
  intros Hwf Hn Hmax. pose proof (wf_bounds _ _ Hwf) as Hb.
  pose proof (elements_length _ _ Hwf) as Hel.
  pose proof (grown_gt n (capacity_ v) Hn) as Hg.
  destruct (Resize_grow d v h n Hwf Hn Hmax)
    as (v' & h' & Hrun & Hsz & Hcap & Hwf' & Hbuf & Hfr & Hrel).
  exists v', h'. split; [done|]. split; [done|]. split; [done|]. split; [done|].
  split; [|done].
  unfold elements at 1. rewrite Hbuf, Hsz, take_app, Hel.
  rewrite take_ge by lia. rewrite take_replicate. do 2 f_equal. lia.
Qed.

Lemma Resize_within_elements d v h n :
  wf v h → size_ v < n ≤ capacity_ v →
  ∃ h',
    let v' := MkVec (items_ v) n (capacity_ v) in
    Resize T_default d n (St v h) = Ok tt (St v' h')
    ∧ wf v' h'
    ∧ elements v' h'
      = elements v h ++ replicate (Z.to_nat (n - size_ v)) T_default
    ∧ frame v h v' h'.
Proof.
  intros Hwf Hn. pose proof (wf_bounds _ _ Hwf) as Hb.
  pose proof (buffer_length _ _ Hwf) as Hlen.
  rewrite Resize_within by done.
  set (l1 := take (Z.to_nat (size_ v)) (buffer v h) ++ _).
  assert (length l1 = length (buffer v h)) as Hl1.
  { unfold l1. rewrite !length_app, !length_take, length_replicate, length_drop. lia. }
  exists (set_buffer v h l1). simpl. split; [done|].
  split; [apply wf_set_buffer; [done|done|lia]|].
  split; [|apply frame_set_buffer].
  unfold elements at 1. rewrite buffer_set_buffer by done. simpl.
  unfold l1, elements. rewrite app_assoc, take_app_length'; [done|].
  rewrite length_app, length_take, length_replicate. lia.
Qed.

(** Appending while there is room never reallocates. *)
Lemma push_all_room d xs : ∀ v h,
  wf v h → size_ v + Z.of_nat (length xs) ≤ capacity_ v →
  ∃ h',
    let v' := MkVec (items_ v) (size_ v + Z.of_nat (length xs)) (capacity_ v) in
    push_all T_default d xs (St v h) = Ok tt (St v' h')
    ∧ wf v' h' ∧ elements v' h' = elements v h ++ xs ∧ frame v h v' h'.
Proof.
  induction xs as [|x xs IH]; intros v h Hwf Hroom; simpl in *.
  - exists h. rewrite Z.add_0_r, app_nil_r.
    destruct v; simpl. split; [done|]. split; [done|]. split; [done|].
    by apply frame_same.
  - destruct (PushBack_ok d v h (Outside x) x Hwf)
      as (v1 & h1 & Hrun & Hsz & Hcap & Hwf1 & Hels & Hfr & Hsame & _);
      [lia|done|by intros _ []|].
    rewrite decide_False in Hcap by lia.
    specialize (Hsame ltac:(lia)).
    destruct (IH v1 h1 Hwf1) as (h' & Hrun' & Hwf' & Hels' & Hfr'); [lia|].
    exists h'. unfold mbind, M_bind. rewrite Hrun.
    rewrite Hsame, Hsz, Hcap in Hrun', Hwf', Hels', Hfr'.
    replace (size_ v + 1 + Z.of_nat (length xs))
      with (size_ v + Z.of_nat (S (length xs))) in * by lia.
    split; [done|]. split; [done|].
    split; [by rewrite Hels', Hels, <- app_assoc|].
    eapply frame_trans; [exact Hfr|done].
Qed.

Lemma wf_empty_vector (h : gmap block (list T)) : wf empty_vector h.
Proof. unfold wf, empty_vector, max_alloc; simpl. repeat split; lia. Qed.

Lemma elements_empty_vector (h : gmap block (list T)) : elements empty_vector h = [].
Proof. done. Qed.

End MethodFacts.

(** ** Relations that every call respects *)

Section Respect.
Context {S : Type} (R : S → S → Prop).
Hypothesis R_refl : ∀ s, R s s.
Hypothesis R_trans : ∀ s1 s2 s3, R s1 s2 → R s2 s3 → R s1 s3.

Lemma respects_ret {A} (a : A) s : respects R (mret a) s.
Proof. apply R_refl. Qed.

Lemma respects_undefined {A} s : respects R (undefined : M S A) s.
Proof. done. Qed.

Lemma respects_throw {A} e s : respects R (throw e : M S A) s.
Proof. apply R_refl. Qed.

Lemma respects_assert b s : respects R (assert b) s.
Proof. unfold respects, assert. destruct b; [apply R_refl | done]. Qed.

Lemma respects_bind {A B} (m : M S A) (f : A → M S B) s :
  respects R m s →
  (∀ a s1, m s = Ok a s1 → respects R (f a) s1) →
  respects R (m ≫= f) s.
Proof.
  unfold respects, mbind, M_bind. intros Hm Hf.
  destruct (m s) as [a s1| e s1 | |] eqn:E; simpl in *; try done.
  specialize (Hf a s1 eq_refl).
  destruct (f a s1); simpl in *; try done; by eapply R_trans.
Qed.

End Respect.

Section HeapOnly.
Context {T : Type} `{EqDecision T}.
Implicit Types (h : gmap block (list T)) (p : ptr).

Lemma only_refl ob h : only ob h h.
Proof. by split. Qed.

Lemma only_trans ob h1 h2 h3 : only ob h1 h2 → only ob h2 h3 → only ob h1 h3.
Proof.
  intros [H12 D12] [H23 D23]. split.
  - intros b0 Hb0. by rewrite H23, H12.
  - intros b0 Hb0. by apply D23, D12.
Qed.

Lemma write_only p x h : respects (only (base p)) (write p x) h.
Proof.
  unfold respects, write, store. destruct p as [[b|] o]; simpl; [|done].
  destruct (h !! b) as [l|]; simpl; [|done].
  case_decide; simpl; [|done]. split.
  - intros b0 Hb0. rewrite lookup_insert_ne; [done|congruence].
  - intros b0 Hb0. destruct (decide (b = b0)) as [->|Hne].
    + by rewrite lookup_insert_eq.
    + by rewrite lookup_insert_ne.
Qed.

Lemma read_only ob p h : respects (only ob) (read p) h.
Proof. unfold respects, read. destruct (load h p); simpl; [apply only_refl|done]. Qed.

Lemma deref_only ob (item : ref T) h : respects (only ob) (deref item) h.
Proof. destruct item; [apply only_refl|apply read_only]. Qed.

Lemma copy_n_only n : ∀ first d_first h,
  respects (only (base d_first)) (copy_n n first d_first) h.
Proof.
  induction n as [|n IH]; intros first d_first h; simpl.
  - apply respects_ret, only_refl.
  - apply respects_bind; [apply only_trans|apply read_only|]. intros x h1 _.
    apply respects_bind; [apply only_trans|apply write_only|]. intros _ h2 _.
    apply (IH (ptr_add first 1) (ptr_add d_first 1)).
Qed.

Lemma copy_backward_n_only n : ∀ last d_last h,
  respects (only (base d_last)) (copy_backward_n n last d_last) h.
Proof.
  induction n as [|n IH]; intros last d_last h; simpl.
  - apply respects_ret, only_refl.
  - apply respects_bind; [apply only_trans|apply read_only|]. intros x h1 _.
    apply respects_bind; [apply only_trans|apply (write_only (ptr_add d_last (-1)))|].
    intros _ h2 _.
    apply (IH (ptr_add last (-1)) (ptr_add d_last (-1))).
Qed.

Lemma std_copy_only first last d_first h :
  respects (only (base d_first)) (std_copy first last d_first) h.
Proof.
  unfold std_copy. destruct (ptr_diff last first); [|done].
  case_decide; [|done].
  apply respects_bind; [apply only_trans|apply copy_n_only|]. intros _ h1 _.
  apply respects_ret, only_refl.
Qed.

Lemma std_copy_backward_only first last d_last h :
  respects (only (base d_last)) (std_copy_backward first last d_last) h.
Proof.
  unfold std_copy_backward. destruct (ptr_diff last first); [|done].
  case_decide; [|done].
  apply respects_bind; [apply only_trans|apply copy_backward_n_only|]. intros _ h1 _.
  apply respects_ret, only_refl.
Qed.

Lemma std_copy_backward_result first last d_last h it h' :
  std_copy_backward first last d_last h = Ok it h' → base it = base d_last.
Proof.
  unfold std_copy_backward, mbind, M_bind, mret, M_ret.
  destruct (ptr_diff last first); [|done]. case_decide; [|done].
  destruct (copy_backward_n _ _ _ h); try done. by intros [= <- _].
Qed.

Lemma delete_array_other p h :
  post (λ h', ∀ b0, base p ≠ Some b0 → h' !! b0 = h !! b0) (delete_array p h).
Proof.
  unfold delete_array. destruct p as [[b|] o]; simpl.
  - case_decide; simpl; [|done]. intros b0 Hb0.
    rewrite lookup_delete_ne; [done|congruence].
  - case_decide; simpl; done.
Qed.

(** What [ArrayPtr(size)] returns: the null pointer and the same store, or
    a new array. *)
Lemma ArrayPtr_new_cases (T_default : T) size h :
  match ArrayPtr_new T_default size h with
  | Ok a h' =>
      (a = MkArrayPtr nullptr ∧ h' = h)
      ∨ (∃ b, a = MkArrayPtr (Ptr (Some b) 0) ∧ h !! b = None
              ∧ h' = <[b := replicate (Z.to_nat size) T_default]> h)
  | Throw e h' => e = bad_alloc ∧ h' = h
  | AssertFail => False
  | Undefined => False
  end.
Proof.
  unfold ArrayPtr_new, new_array, mbind, M_bind, mret, M_ret; simpl.
  repeat case_decide; simpl; auto.
  right. eexists. split; [done|]. split; [|done].
  apply not_elem_of_dom, is_fresh.
Qed.

End HeapOnly.

Section MethodsRespect.
Context {T : Type} `{EqDecision T}.
Variable T_default : T.
Implicit Types (s : @state T) (d : draft).

(** A preorder on states that holds across every step that keeps the
    buffer pointer and the capacity and writes to the own array only. *)
Variable R : @state T → @state T → Prop.
Hypothesis R_refl : ∀ s, R s s.
Hypothesis R_trans : ∀ s1 s2 s3, R s1 s2 → R s2 s3 → R s1 s3.
Hypothesis R_local : ∀ s s',
  items_ (this s') = items_ (this s) →
  capacity_ (this s') = capacity_ (this s) →
  only (base (Get (items_ (this s)))) (mem s) (mem s') →
  R s s'.

Lemma on_heap_inv {A} (m : M (gmap block (list T)) A) s a s' :
  on_heap m s = Ok a s' → this s' = this s ∧ m (mem s) = Ok a (mem s').
Proof.
  unfold on_heap. destruct (m (mem s)); try done. by intros [= <- <-].
Qed.

Lemma gets_inv {A} (g : SimpleVector → A) s a s' :
  gets g s = Ok a s' → a = g (this s) ∧ s' = s.
Proof. by intros [= <- <-]. Qed.

Lemma respects_gets {A} (g : SimpleVector → A) s : respects R (gets g) s.
Proof. apply R_refl. Qed.

Lemma respects_set_size n s : respects R (set_size n) s.
Proof. apply R_local; simpl; [done|done|apply only_refl]. Qed.

Lemma respects_on_heap {A} (m : M (gmap block (list T)) A) s :
  respects (only (base (Get (items_ (this s))))) m (mem s) →
  respects R (on_heap m) s.
Proof.
  unfold respects, on_heap. destruct (m (mem s)); simpl; try done;
    intros Ho; by apply R_local.
Qed.

Lemma respects_ptr_le p q s : respects R (ptr_le p q) s.
Proof.
  unfold ptr_le. destruct (ptr_diff p q); [apply respects_ret|]; done.
Qed.

Lemma respects_ptr_lt p q s : respects R (ptr_lt p q) s.
Proof.
  unfold ptr_lt. destruct (ptr_diff p q); [apply respects_ret|]; done.
Qed.

Lemma respects_default_loop k : ∀ i s, respects R (default_loop T_default k i) s.
Proof.
  induction k as [|k IH]; intros i s; simpl.
  - by apply respects_ret.
  - apply respects_bind; [done|apply respects_gets|].
    intros a s1 [-> ->]%gets_inv.
    apply respects_bind; [done| |intros; apply IH].
    apply respects_on_heap, (write_only (at_index _ _)).
Qed.

Lemma respects_Clear s : respects R Clear s.
Proof. apply respects_set_size. Qed.

Lemma respects_PopBack d s : respects R (PopBack d) s.
Proof.
  destruct d; unfold PopBack.
  - apply respects_bind; [done|apply respects_gets|]. intros e s1 _.
    apply respects_bind; [done|by apply respects_assert|]. intros _ s2 _.
    apply respects_bind; [done|apply respects_gets|]. intros n s3 _.
    apply respects_set_size.
  - apply respects_bind; [done|apply respects_gets|]. intros e s1 _.
    destruct (negb e); [|by apply respects_ret].
    apply respects_bind; [done|apply respects_gets|]. intros n s3 _.
    apply respects_set_size.
Qed.

Lemma respects_position_asserts d pos s :
  respects R
    (match d with
     | part_000 =>
         e ← gets end_; c ← ptr_le pos e; assert c;;
         b ← gets begin_; c ← ptr_le b pos; assert c
     | part_001 => mret tt
     end) s.
Proof.
  destruct d; [|by apply respects_ret].
  apply respects_bind; [done|apply respects_gets|]. intros e s1 _.
  apply respects_bind; [done|apply respects_ptr_le|]. intros c s2 _.
  apply respects_bind; [done|by apply respects_assert|]. intros _ s3 _.
  apply respects_bind; [done|apply respects_gets|]. intros b s4 _.
  apply respects_bind; [done|apply respects_ptr_le|]. intros c' s5 _.
  by apply respects_assert.
Qed.

Lemma respects_Erase d pos s : respects R (Erase d pos) s.
Proof.
  unfold Erase.
  apply respects_bind; [done|apply respects_position_asserts|]. intros _ s1 _.
  apply respects_bind; [done|apply respects_gets|]. intros b s2 _.
  destruct (ptr_diff pos b); [|done].
  apply respects_bind; [done|apply respects_gets|]. intros e s3 _.
  apply respects_bind; [done|apply respects_ptr_lt|]. intros c s4 _.
  apply respects_bind; [done| |].
  - destruct c; [|by apply respects_ret].
    apply respects_bind; [done|apply respects_gets|].
    intros a s5 [-> ->]%gets_inv.
    apply respects_bind; [done| |intros; by apply respects_ret].
    apply respects_on_heap, (std_copy_only _ _ (at_index _ _)).
  - intros _ s5 _.
    apply respects_bind; [done|apply respects_gets|]. intros n s6 _.
    apply respects_bind; [done|apply respects_set_size|]. intros _ s7 _.
    apply respects_bind; [done|apply respects_gets|]. intros a s8 _.
    by apply respects_ret.
Qed.

Lemma respects_subscript d i s : respects R (subscript d i) s.
Proof.
  unfold subscript.
  apply respects_bind; [done| |].
  - destruct d; [|by apply respects_ret].
    apply respects_bind; [done|apply respects_gets|]. intros n s1 _.
    by apply respects_assert.
  - intros _ s1 _.
    apply respects_bind; [done|apply respects_gets|]. intros a s2 _.
    by apply respects_ret.
Qed.

Lemma subscript_result d i s r s' :
  subscript d i s = Ok r s' → s' = s ∧ r = at_index (items_ (this s)) i.
Proof.
  unfold subscript, mbind, M_bind, mret, M_ret, gets, assert.
  destruct d; simpl; [|by intros [= <- <-]].
  case_bool_decide; simpl; [|done]. by intros [= <- <-].
Qed.

Lemma respects_At i s : respects R (At i) s.
Proof.
  unfold At.
  apply respects_bind; [done|apply respects_gets|]. intros n s1 _.
  case_decide; [by apply respects_throw|].
  apply respects_bind; [done|apply respects_gets|]. intros a s2 _.
  by apply respects_ret.
Qed.

Lemma At_result i s r s' :
  At i s = Ok r s' → s' = s ∧ r = at_index (items_ (this s)) i.
Proof.
  unfold At, mbind, M_bind, mret, M_ret, gets, throw; simpl.
  case_decide; [done|]. by intros [= <- <-].
Qed.

(** [Resize] within the capacity does not reallocate. *)
Lemma respects_Resize_within d n s :
  n ≤ capacity_ (this s) → respects R (Resize T_default d n) s.
Proof.
  intros Hn. unfold respects. rewrite Resize_draft, Resize_unfold.
  apply respects_bind; [done|apply respects_gets|].
  intros c s1 [-> ->]%gets_inv.
  apply respects_bind; [done|apply respects_gets|].
  intros sz s2 [-> ->]%gets_inv.
  rewrite decide_False by lia.
  apply respects_bind; [done| |intros; apply respects_set_size].
  case_decide; [apply respects_default_loop | by apply respects_ret].
Qed.

(** From here on: the reallocating statements respect the relation too. *)
Hypothesis R_reallocate : ∀ c s,
  capacity_ (this s) < c → respects R (reallocate T_default c) s.

Lemma respects_Resize d n s : respects R (Resize T_default d n) s.
Proof.
  destruct (decide (n ≤ capacity_ (this s))) as [Hle|Hgt];
    [by apply respects_Resize_within|].
  unfold respects. rewrite Resize_draft, Resize_unfold.
  apply respects_bind; [done|apply respects_gets|].
  intros c s1 [-> ->]%gets_inv.
  apply respects_bind; [done|apply respects_gets|].
  intros sz s2 [-> ->]%gets_inv.
  rewrite decide_True by lia.
  apply respects_bind; [done| |intros; apply respects_set_size].
  apply R_reallocate. lia.
Qed.

Lemma respects_Reserve c s : respects R (Reserve T_default c) s.
Proof.
  unfold respects. rewrite Reserve_unfold.
  apply respects_bind; [done|apply respects_gets|].
  intros cp s1 [-> ->]%gets_inv.
  case_decide; [by apply R_reallocate | by apply respects_ret].
Qed.

Lemma respects_ResizeCurrentVector d s :
  respects R (ResizeCurrentVector T_default d) s.
Proof.
  unfold ResizeCurrentVector.
  apply respects_bind; [done|apply respects_gets|]. intros c s1 _.
  apply respects_bind; [done|apply respects_gets|]. intros n s2 _.
  case_decide; [apply respects_Resize | apply respects_set_size].
Qed.

Lemma respects_PushBack d (item : ref T) s :
  respects R (PushBack T_default d item) s.
Proof.
  unfold PushBack.
  apply respects_bind; [done|apply respects_ResizeCurrentVector|]. intros _ s1 _.
  apply respects_bind; [done|apply respects_gets|].
  intros a s2 [-> ->]%gets_inv.
  apply respects_bind; [done|apply respects_gets|].
  intros n s3 [-> ->]%gets_inv.
  apply respects_bind; [done|apply respects_on_heap, deref_only|].
  intros x s4 [Hthis _]%on_heap_inv.
  apply respects_on_heap. rewrite Hthis. apply (write_only (at_index _ _)).
Qed.

Lemma respects_Insert_tail d pos (item : ref T) s :
  respects R
    (e ← gets cend;
     if decide (pos = e) then
       PushBack T_default d item;;
       e ← gets end_; mret (ptr_add e (-1))
     else
       items ← gets items_;
       match ptr_diff pos (Get items) with
       | None => undefined
       | Some curr_index =>
           ResizeCurrentVector T_default d;;
           items ← gets items_; e ← gets end_;
           it ← on_heap (std_copy_backward (at_index items curr_index) (ptr_add e (-1)) e);
           let it := ptr_add it (-1) in
           x ← on_heap (deref item);
           on_heap (write it x);;
           mret it
       end) s.
Proof.
  apply respects_bind; [done|apply respects_gets|]. intros e s1 _.
  case_decide.
  - apply respects_bind; [done|apply respects_PushBack|]. intros _ s2 _.
    apply respects_bind; [done|apply respects_gets|]. intros e' s3 _.
    by apply respects_ret.
  - apply respects_bind; [done|apply respects_gets|]. intros a s2 _.
    destruct (ptr_diff pos (Get a)); [|done].
    apply respects_bind; [done|apply respects_ResizeCurrentVector|]. intros _ s3 _.
    apply respects_bind; [done|apply respects_gets|].
    intros a' s4 [-> ->]%gets_inv.
    apply respects_bind; [done|apply respects_gets|].
    intros e' s5 [-> ->]%gets_inv.
    apply respects_bind; [done| |].
    + apply respects_on_heap, (std_copy_backward_only _ _ (end_ _)).
    + intros it s6 [Hthis Hrun]%on_heap_inv.
      apply std_copy_backward_result in Hrun.
      apply respects_bind; [done|apply respects_on_heap, deref_only|].
      intros x s7 [Hthis7 _]%on_heap_inv.
      apply respects_bind; [done| |intros; by apply respects_ret].
      apply respects_on_heap.
      replace (base (Get (items_ (this s7)))) with (base (ptr_add it (-1)))
        by (rewrite Hthis7, Hthis; simpl; by rewrite Hrun).
      apply write_only.
Qed.

Lemma respects_Insert d pos (item : ref T) s :
  respects R (Insert T_default d pos item) s.
Proof. apply respects_Insert_tail. Qed.

Lemma respects_Insert_rvalue d pos (item : ref T) s :
  respects R (Insert_rvalue T_default d pos item) s.
Proof.
  unfold Insert_rvalue.
  apply respects_bind; [done|apply respects_position_asserts|]. intros _ s1 _.
  apply respects_Insert_tail.
Qed.

(** Every call on a vector respects the relation. *)
Lemma respects_invoke d c s : respects R (invoke T_default d c) s.
Proof.
  destruct c; unfold invoke.
  - apply respects_bind; [done|apply respects_PushBack|]. intros; by apply respects_ret.
  - apply respects_bind; [done|apply respects_PopBack|]. intros; by apply respects_ret.
  - apply respects_bind; [done|apply respects_gets|]. intros b s1 _.
    apply respects_bind; [done|apply respects_Insert|]. intros; by apply respects_ret.
  - apply respects_bind; [done|apply respects_gets|]. intros b s1 _.
    apply respects_bind; [done|apply respects_Insert_rvalue|].
    intros; by apply respects_ret.
  - apply respects_bind; [done|apply respects_gets|]. intros b s1 _.
    apply respects_bind; [done|apply respects_Erase|]. intros; by apply respects_ret.
  - apply respects_bind; [done|apply respects_Resize|]. intros; by apply respects_ret.
  - apply respects_bind; [done|apply respects_Reserve|]. intros; by apply respects_ret.
  - apply respects_bind; [done|apply respects_Clear|]. intros; by apply respects_ret.
  - apply respects_bind; [done|apply respects_subscript|]. intros r s1 _.
    apply respects_bind; [done|apply respects_on_heap, read_only|].
    intros; by apply respects_ret.
  - apply respects_bind; [done|apply respects_subscript|].
    intros r s1 [-> ->]%subscript_result.
    apply respects_bind; [done|apply respects_on_heap, (write_only (at_index _ _))|].
    intros; by apply respects_ret.
  - apply respects_bind; [done|apply respects_At|]. intros r s1 _.
    apply respects_bind; [done|apply respects_on_heap, read_only|].
    intros; by apply respects_ret.
  - apply respects_bind; [done|apply respects_At|].
    intros r s1 [-> ->]%At_result.
    apply respects_bind; [done|apply respects_on_heap, (write_only (at_index _ _))|].
    intros; by apply respects_ret.
  - apply respects_bind; [done|apply respects_gets|]. intros; by apply respects_ret.
  - apply respects_bind; [done|apply respects_gets|]. intros; by apply respects_ret.
  - apply respects_bind; [done|apply respects_gets|]. intros; by apply respects_ret.
Qed.

Lemma respects_invoke_all d cs : ∀ s, respects R (invoke_all T_default d cs) s.
Proof.
  induction cs as [|c cs IH]; intros s; simpl.
  - by apply respects_ret.
  - apply respects_bind; [done|apply respects_invoke|]. intros; apply IH.
Qed.

End MethodsRespect.

(** ** The frame of a call and the monotonicity of the capacity *)

Section FrameAndCapacity.
Context {T : Type} `{EqDecision T}.
Variable T_default : T.
Implicit Types (s : @state T) (d : draft).

Lemma frame_st_refl s : frame_st s s.
Proof. by intros b0 _ Hne. Qed.

Lemma frame_st_trans s1 s2 s3 : frame_st s1 s2 → frame_st s2 s3 → frame_st s1 s3.
Proof. apply frame_trans. Qed.

Lemma frame_st_local s s' :
  items_ (this s') = items_ (this s) →
  capacity_ (this s') = capacity_ (this s) →
  only (base (Get (items_ (this s)))) (mem s) (mem s') →
  frame_st s s'.
Proof.
  intros Hi _ [Ho _] b0 Hb0 Hne. rewrite Hi. split; [|done]. apply Ho. congruence.
Qed.

Lemma reallocate_outcome c v h :
  match reallocate T_default c (St v h) with
  | Ok _ s' =>
      capacity_ (this s') = c ∧ frame_st (St v h) s' ∧ keeps_live (St v h) s'
  | Throw _ s' => s' = St v h
  | AssertFail => True
  | Undefined => True
  end.
Proof.
  unfold reallocate, mbind, M_bind, on_heap; simpl.
  pose proof (ArrayPtr_new_cases T_default c h) as Hnew.
  destruct (ArrayPtr_new T_default c h) as [a h1|e h1| |]; simpl; try done;
    [|by destruct Hnew as [_ ->]].
  pose proof (std_copy_only (begin_ v) (end_ v) (Get a) h1) as Hcopy.
  unfold std_move. unfold respects in Hcopy.
  destruct (std_copy (begin_ v) (end_ v) (Get a) h1) as [p h2|e h2| |] eqn:Ecopy;
    simpl in *; try done.
  2:{ unfold std_copy, mbind, M_bind, mret, M_ret in Ecopy.
      destruct (ptr_diff _ _); [|done]. case_decide; [|done].
      destruct (copy_n _ _ _ _) eqn:En; try done.
      exfalso. clear -En. revert En.
      generalize (begin_ v) (Get a) h1.
      induction (Z.to_nat z) as [|n IH]; intros f q h0; simpl; [done|].
      unfold mbind, M_bind, read, write.
      destruct (load h0 f); [|done]. destruct (store h0 q _); [|done].
      apply IH. }
  destruct Hcopy as [Hcopy Hkeep].
  pose proof (delete_array_other (raw_ptr_ (items_ v)) h2) as Hdel.
  unfold ArrayPtr_destroy in *.
  destruct (delete_array (raw_ptr_ (items_ v)) h2) as [[] h3|e h3| |] eqn:Edel;
    simpl in *; try done.
  2:{ unfold delete_array in Edel. repeat case_match; done. }
  split; [done|]. split.
  - intros b0 Hb0 Hne. simpl in *.
    assert (h !! b0 ≠ None) as Hsome by (by apply elem_of_dom in Hb0 as [? ->]).
    destruct Hnew as [[-> ->]|(b & -> & Hb & ->)]; simpl in *.
    + split; [|done]. rewrite Hdel by done. by rewrite Hcopy.
    + assert (b ≠ b0) by congruence.
      split; [|congruence].
      rewrite Hdel by done. rewrite Hcopy by congruence.
      by rewrite lookup_insert_ne.
  - unfold keeps_live, live, Get; simpl. intros Hlive.
    destruct Hnew as [[-> ->]|(b & -> & Hb & ->)]; simpl in *; [done|].
    rewrite Hdel.
    + apply Hkeep. by rewrite lookup_insert_eq.
    + destruct (base (raw_ptr_ (items_ v))) as [b1|]; [|done].
      intros [= ->]. rewrite Hb in Hlive. by destruct Hlive.
Qed.

Lemma reallocate_frame c s : respects frame_st (reallocate T_default c) s.
Proof.
  destruct s as [v h]. unfold respects.
  pose proof (reallocate_outcome c v h) as Hout.
  destruct (reallocate T_default c (St v h)); simpl in *; try done.
  - tauto.
  - subst. apply frame_st_refl.
Qed.

(** Every call leaves the arrays of other vectors alone. *)
Lemma invoke_frame d c s : respects frame_st (invoke T_default d c) s.
Proof.
  apply (respects_invoke T_default frame_st frame_st_refl frame_st_trans
           frame_st_local (λ c s _, reallocate_frame c s)).
Qed.

Lemma invoke_all_frame d cs s : respects frame_st (invoke_all T_default d cs) s.
Proof.
  apply (respects_invoke_all T_default frame_st frame_st_refl frame_st_trans
           frame_st_local (λ c s _, reallocate_frame c s)).
Qed.

Lemma capacity_le_refl s : capacity_le s s.
Proof. unfold capacity_le. lia. Qed.

Lemma capacity_le_trans s1 s2 s3 :
  capacity_le s1 s2 → capacity_le s2 s3 → capacity_le s1 s3.
Proof. unfold capacity_le. lia. Qed.

Lemma capacity_le_local s s' :
  items_ (this s') = items_ (this s) →
  capacity_ (this s') = capacity_ (this s) →
  only (base (Get (items_ (this s)))) (mem s) (mem s') →
  capacity_le s s'.
Proof. unfold capacity_le. lia. Qed.

Lemma reallocate_capacity c s :
  capacity_ (this s) < c → respects capacity_le (reallocate T_default c) s.
Proof.
  intros Hc. destruct s as [v h]. unfold respects.
  pose proof (reallocate_outcome c v h) as Hout.
  destruct (reallocate T_default c (St v h)); simpl in *; try done.
  - unfold capacity_le. simpl. lia.
  - subst. apply capacity_le_refl.
Qed.

(** No call on a vector lowers its capacity. *)
Lemma invoke_capacity d c s : respects capacity_le (invoke T_default d c) s.
Proof.
  apply (respects_invoke T_default capacity_le capacity_le_refl capacity_le_trans
           capacity_le_local reallocate_capacity).
Qed.

Lemma keeps_live_refl s : keeps_live s s.
Proof. by intros ?. Qed.

Lemma keeps_live_trans s1 s2 s3 :
  keeps_live s1 s2 → keeps_live s2 s3 → keeps_live s1 s3.
Proof. unfold keeps_live. tauto. Qed.

Lemma keeps_live_local s s' :
  items_ (this s') = items_ (this s) →
  capacity_ (this s') = capacity_ (this s) →
  only (base (Get (items_ (this s)))) (mem s) (mem s') →
  keeps_live s s'.
Proof.
  intros Hi _ [_ Hkeep]. unfold keeps_live, live. rewrite Hi.
  destruct (base (Get (items_ (this s)))); [apply Hkeep|done].
Qed.

Lemma reallocate_keeps_live c s : respects keeps_live (reallocate T_default c) s.
Proof.
  destruct s as [v h]. unfold respects.
  pose proof (reallocate_outcome c v h) as Hout.
  destruct (reallocate T_default c (St v h)); simpl in *; try done.
  - tauto.
  - subst. apply keeps_live_refl.
Qed.

(** No call leaves the vector with a buffer that has been freed. *)
Lemma invoke_keeps_live d c s : respects keeps_live (invoke T_default d c) s.
Proof.
  apply (respects_invoke T_default keeps_live keeps_live_refl keeps_live_trans
           keeps_live_local (λ c s _, reallocate_keeps_live c s)).
Qed.

Lemma capacity_same_refl s : capacity_same s s.
Proof. done. Qed.

Lemma capacity_same_trans s1 s2 s3 :
  capacity_same s1 s2 → capacity_same s2 s3 → capacity_same s1 s3.
Proof. unfold capacity_same. congruence. Qed.

Lemma capacity_same_local s s' :
  items_ (this s') = items_ (this s) →
  capacity_ (this s') = capacity_ (this s) →
  only (base (Get (items_ (this s)))) (mem s) (mem s') →
  capacity_same s s'.
Proof. done. Qed.

End FrameAndCapacity.

(** ** Facts about programs with several vectors *)

Section WorldFacts.
Context {T : Type} `{EqDecision T}.
Variable T_default : T.
Implicit Types (w : @world T) (h : gmap block (list T)) (v : SimpleVector)
  (d : draft) (x y : nat).

Lemma world_eta w : World (heap_of w) (vecs w) = w.
Proof. by destruct w. Qed.

Lemma call_run {A} x (m : M (@state T) A) w v a s :
  vecs w !! x = Some v → m (St v (heap_of w)) = Ok a s →
  call x m w = Ok a (World (mem s) (<[x := this s]> (vecs w))).
Proof. intros Hx Hm. unfold call. by rewrite Hx, Hm. Qed.

Lemma call_gets {A} x (g : SimpleVector → A) w v :
  vecs w !! x = Some v → call x (gets g) w = Ok (g v) w.
Proof.
  intros Hx. rewrite (call_run x _ w v (g v) (St v (heap_of w))) by done.
  simpl. by rewrite insert_id, world_eta.
Qed.

Lemma vec_eta v : MkVec (items_ v) (size_ v) (capacity_ v) = v.
Proof. by destruct v. Qed.

(** [swap] of two different objects exchanges their three members. *)
Lemma swap_distinct x y w vx vy :
  x ≠ y → vecs w !! x = Some vx → vecs w !! y = Some vy →
  swap x y w = Ok tt (World (heap_of w) (<[y := vx]> (<[x := vy]> (vecs w)))).
Proof.
  intros Hne Hx Hy. unfold swap, mbind, M_bind.
  rewrite (call_gets x _ w vx), (call_gets y _ w vy) by done.
  unfold call at 1; rewrite Hx; simpl.
  unfold call at 1; simpl; rewrite lookup_insert_ne, Hy by done; simpl.
  unfold call at 1; simpl. rewrite lookup_insert_ne, lookup_insert_eq by done; simpl.
  unfold call at 1; simpl. rewrite lookup_insert_ne, lookup_insert_eq by done; simpl.
  unfold call at 1; simpl. rewrite lookup_insert_ne, lookup_insert_eq by done; simpl.
  unfold call at 1; simpl. rewrite lookup_insert_ne, lookup_insert_eq by done; simpl.
  unfold call at 1; simpl. rewrite lookup_insert_ne, lookup_insert_eq by done; simpl.
  unfold call at 1; simpl. rewrite lookup_insert_ne, lookup_insert_eq by done; simpl.
  unfold call at 1; simpl. rewrite lookup_insert_ne, lookup_insert_eq by done; simpl.
  unfold call at 1; simpl. rewrite lookup_insert_ne, lookup_insert_eq by done; simpl.
  do 2 f_equal. rewrite !vec_eta.
  apply map_eq. intros k.
  destruct (decide (k = x)), (decide (k = y)); by simplify_map_eq.
Qed.

(** [swap] of an object with itself changes nothing. *)
Lemma swap_self x w v :
  vecs w !! x = Some v → swap x x w = Ok tt w.
Proof.
  intros Hx. unfold swap, mbind, M_bind.
  rewrite !(call_gets x _ w v) by done.
  unfold call at 1; rewrite Hx; simpl.
  unfold call at 1; simpl; rewrite lookup_insert_eq; simpl.
  unfold call at 1; simpl; rewrite lookup_insert_eq; simpl.
  unfold call at 1; simpl; rewrite lookup_insert_eq; simpl.
  unfold call at 1; simpl; rewrite lookup_insert_eq; simpl.
  unfold call at 1; simpl; rewrite lookup_insert_eq; simpl.
  unfold call at 1; simpl; rewrite lookup_insert_eq; simpl.
  unfold call at 1; simpl; rewrite lookup_insert_eq; simpl.
  unfold call at 1; simpl; rewrite lookup_insert_eq; simpl.
  unfold call at 1; simpl; rewrite lookup_insert_eq; simpl.
  rewrite !insert_insert_eq, vec_eta, insert_id by done.
  by rewrite world_eta.
Qed.

(** [operator==] on well-formed vectors compares the element sequences. *)
Lemma std_equal_elements v1 v2 h :
  wf v1 h → wf v2 h →
  std_equal (begin_ v1) (end_ v1) (begin_ v2) (end_ v2) h
  = Ok (bool_decide (elements v1 h = elements v2 h)) h.
Proof.
  intros Hwf1 Hwf2.
  pose proof (wf_bounds _ _ Hwf1) as Hb1. pose proof (wf_bounds _ _ Hwf2) as Hb2.
  pose proof (elements_length _ _ Hwf1) as Hl1.
  pose proof (elements_length _ _ Hwf2) as Hl2.
  assert (∀ v, wf v h →
            read_n (Z.to_nat (size_ v)) (begin_ v) h = Ok (elements v h) h) as Hread.
  { intros v Hwf. pose proof (wf_bounds _ _ Hwf) as Hb.
    destruct (wf_cases v h Hwf) as [(Hv & Hc & Hs & Hbuf)|(b & l0 & Hv & Hh & Hbuf & Hlen & Hpos)].
    - unfold elements. rewrite Hs, Hbuf. done.
    - unfold elements, begin_, Get. rewrite Hv, Hbuf; simpl.
      rewrite (read_n_block _ h b l0 0) by (done || simpl; lia).
      by rewrite drop_0. }
  unfold std_equal, ptr_diff, begin_, end_, ptr_add; simpl.
  rewrite !decide_True by done.
  replace (offset (Get (items_ v1)) + size_ v1 - offset (Get (items_ v1)))
    with (size_ v1) by lia.
  replace (offset (Get (items_ v2)) + size_ v2 - offset (Get (items_ v2)))
    with (size_ v2) by lia.
  rewrite decide_True by lia.
  case_decide as Hsz.
  - unfold mbind, M_bind. fold (begin_ v1). fold (begin_ v2).
    rewrite (Hread v1 Hwf1), (Hread v2 Hwf2). done.
  - unfold mret, M_ret. rewrite bool_decide_eq_false_2; [done|].
    intros Heq. rewrite Heq in Hl1. lia.
Qed.

Lemma equal_elements x y w vx vy :
  vecs w !! x = Some vx → vecs w !! y = Some vy →
  wf vx (heap_of w) → wf vy (heap_of w) →
  equal x y w
  = Ok (bool_decide (elements vx (heap_of w) = elements vy (heap_of w))) w.
Proof.
  intros Hx Hy Hwfx Hwfy. unfold equal. rewrite Hx, Hy.
  rewrite std_equal_elements by done. by rewrite world_eta.
Qed.

Lemma separated_disjoint w : separated w → disjoint w.
Proof.
  intros [Hwf Hsep]. split; [|done].
  intros x v b Hx Hb.
  destruct (wf_cases v _ (Hwf x v Hx)) as [(Hv & _)|(b' & l & Hv & Hl & _)];
    rewrite Hv in Hb; simpl in Hb; simplify_eq. eauto.
Qed.

(** The element sequence of a vector depends on its own array only. *)
Lemma elements_agree v h h' :
  (∀ b, base (Get (items_ v)) = Some b → h' !! b = h !! b) →
  elements v h' = elements v h.
Proof.
  intros Hag. unfold elements, buffer.
  destruct (base (Get (items_ v))) as [b|]; [|done]. by rewrite Hag.
Qed.

Lemma wf_agree v h h' :
  (∀ b, base (Get (items_ v)) = Some b → h' !! b = h !! b) →
  wf v h → wf v h'.
Proof.
  intros Hag. unfold wf.
  destruct (base (Get (items_ v))) as [b|]; [|done]. by rewrite Hag.
Qed.

(** A call on one object keeps the objects disjoint and leaves the
    observable state of every other object as it was. *)
Lemma call_frame {A} x (m : M (@state T) A) w :
  (∀ s, respects frame_st m s) → (∀ s, respects keeps_live m s) →
  disjoint w →
  post (λ w', disjoint w' ∧ ∀ y, y ≠ x → observe w' y = observe w y) (call x m w).
Proof.
  intros Hframe Hlive [Halive Hsep]. unfold call.
  destruct (vecs w !! x) as [vx|] eqn:Ex; [|done].
  specialize (Hframe (St vx (heap_of w))). specialize (Hlive (St vx (heap_of w))).
  unfold respects in *.
  assert (∀ s', frame_st (St vx (heap_of w)) s' → keeps_live (St vx (heap_of w)) s' →
            disjoint (World (mem s') (<[x := this s']> (vecs w)))
            ∧ ∀ y, y ≠ x →
                observe (World (mem s') (<[x := this s']> (vecs w))) y = observe w y)
    as Hmain.
  { intros s' Hf Hl.
    assert (∀ y vy b, y ≠ x → vecs w !! y = Some vy →
              base (Get (items_ vy)) = Some b →
              mem s' !! b = heap_of w !! b ∧ base (Get (items_ (this s'))) ≠ Some b)
      as Hother.
    { intros y vy b Hy Hvy Hb. apply Hf; simpl.
      - apply elem_of_dom. by eapply Halive.
      - intros Hx. by eapply (Hsep x y vx vy b). }
    split; [split|]; simpl.
    - intros z v b Hz Hb. destruct (decide (z = x)) as [->|Hzx].
      + rewrite lookup_insert_eq in Hz. simplify_eq.
        assert (live s') as Hls.
        { apply Hl. unfold live; simpl.
          destruct (base (Get (items_ vx))) eqn:E; [by eapply Halive|done]. }
        unfold live in Hls. by rewrite Hb in Hls.
      + rewrite lookup_insert_ne in Hz by done.
        destruct (Hother z v b Hzx Hz Hb) as [-> _]. by eapply Halive.
    - intros z1 z2 v1 v2 b Hne H1 H2 Hb.
      destruct (decide (z1 = x)) as [->|Hz1], (decide (z2 = x)) as [->|Hz2];
        try done.
      + rewrite lookup_insert_eq in H1. rewrite lookup_insert_ne in H2 by done.
        simplify_eq. intros Hb2.
        destruct (Hother z2 v2 b Hz2 H2 Hb2) as [_ Hn]. done.
      + rewrite lookup_insert_ne in H1 by done. rewrite lookup_insert_eq in H2.
        simplify_eq. by destruct (Hother z1 v1 b Hz1 H1 Hb) as [_ Hn].
      + rewrite lookup_insert_ne in H1, H2 by done.
        exact (Hsep z1 z2 v1 v2 b Hne H1 H2 Hb).
    - intros y Hy. unfold observe; simpl. rewrite lookup_insert_ne by done.
      destruct (vecs w !! y) as [vy|] eqn:Ey; [|done]. simpl.
      do 2 f_equal. apply elements_agree. intros b Hb.
      by destruct (Hother y vy b Hy Ey Hb) as [-> _]. }
  destruct (m (St vx (heap_of w))); simpl in *; try done; by apply Hmain.
Qed.

Lemma call_all_frame d p : ∀ w,
  disjoint w →
  post (λ w', disjoint w' ∧ ∀ y, y ∉ p.*1 → observe w' y = observe w y)
       (call_all T_default d p w).
Proof.
  induction p as [|[x c] p IH]; intros w Hdis; simpl.
  - done.
  - pose proof (call_frame x (invoke T_default d c) w
                  (invoke_frame T_default d c) (invoke_keeps_live T_default d c) Hdis)
      as Hcall.
    unfold mbind, M_bind.
    destruct (call x (invoke T_default d c) w) as [a w1|e w1| |]; simpl in *; try done.
    + destruct Hcall as [Hdis1 Hobs1]. specialize (IH w1 Hdis1).
      destruct (call_all T_default d p w1) as [a' w2|e w2| |]; simpl in *; try done.
      * destruct IH as [Hdis2 Hobs2]. split; [done|].
        intros y [Hyx Hyp]%not_elem_of_cons. by rewrite Hobs2, Hobs1.
      * destruct IH as [Hdis2 Hobs2]. split; [done|].
        intros y [Hyx Hyp]%not_elem_of_cons. by rewrite Hobs2, Hobs1.
    + destruct Hcall as [Hdis1 Hobs1]. split; [done|].
      intros y [Hyx Hyp]%not_elem_of_cons. by apply Hobs1.
Qed.

(** *** Copy construction and copy assignment *)

Lemma ctor_copy_ok (other : SimpleVector) h :
  wf other h →
  ∃ v' h',
    ctor_copy T_default other (St empty_vector h) = Ok tt (St v' h')
    ∧ size_ v' = size_ other ∧ capacity_ v' = capacity_ other
    ∧ wf v' h' ∧ elements v' h' = elements other h
    ∧ (∀ b, is_Some (h !! b) → h' !! b = h !! b)
    ∧ (∀ b, base (Get (items_ v')) = Some b → h !! b = None).
Proof.
  intros Hwf. pose proof (wf_bounds _ _ Hwf) as Hb.
  destruct (wf_cases other h Hwf)
    as [(Hv & Hc & Hs & Hbuf)|(b & l0 & Hv & Hh & Hbuf & Hlen & Hpos)];
    unfold elements at 2; rewrite Hbuf; clear Hbuf Hwf;
    destruct other as [it sz cp]; simpl in *; subst it.
  - subst sz cp. exists empty_vector, h. split; [done|].
    split; [done|]. split; [done|]. split; [apply wf_empty_vector|]. done.
  - pose proof (is_fresh (dom h)) as Hfresh.
    assert (b ≠ fresh (dom h)) as Hne.
    { intros ->. apply Hfresh, elem_of_dom. eauto. }
    set (b' := fresh (dom h)) in *.
    unfold ctor_copy, ArrayPtr_new, new_array, on_heap, GetCapacity, GetSize,
      mbind, M_bind; simpl.
    rewrite decide_True by lia. simpl. rewrite decide_True by lia. simpl.
    fold b'. set (h1 := <[b' := replicate (Z.to_nat cp) T_default]> h).
    unfold std_copy, ptr_diff, begin_, end_, gets, Get; simpl.
    rewrite decide_True by done. rewrite Z.add_0_l, Z.sub_0_r.
    rewrite decide_True by lia. unfold mbind, M_bind.
    rewrite (copy_n_prefix (Z.to_nat sz) h1 b b' l0
               (replicate (Z.to_nat cp) T_default)).
    + simpl. eexists _, _. split; [reflexivity|]. simpl.
      unfold h1. rewrite insert_insert_eq.
      unfold wf, elements, buffer; simpl. rewrite lookup_insert_eq; simpl.
      rewrite drop_replicate.
      repeat split; try lia.
      * rewrite length_app, length_take, length_replicate. f_equal. lia.
      * rewrite take_app_length'; [done|]. rewrite length_take. lia.
      * intros b0 Hb0. rewrite lookup_insert_ne; [done|].
        intros <-. apply Hfresh, elem_of_dom. done.
      * intros b0 [= <-]. by apply not_elem_of_dom.
    + done.
    + unfold h1. by rewrite lookup_insert_ne.
    + unfold h1. by rewrite lookup_insert_eq.
    + lia.
    + rewrite length_replicate. lia.
Qed.

(** A world stays separated when the object [x] is given a vector whose
    array is new, provided the arrays of the other objects are kept. *)
Lemma separated_replace w x v' h' :
  separated w → wf v' h' →
  (∀ b, base (Get (items_ v')) = Some b → heap_of w !! b = None) →
  (∀ z vz b, z ≠ x → vecs w !! z = Some vz → base (Get (items_ vz)) = Some b →
     h' !! b = heap_of w !! b) →
  separated (World h' (<[x := v']> (vecs w)))
  ∧ ∀ z, z ≠ x → observe (World h' (<[x := v']> (vecs w))) z = observe w z.
Proof.
  intros Hsep Hwf' Hfresh Hkeep.
  pose proof (separated_disjoint w Hsep) as [Halive _].
  destruct Hsep as [Hwf Hsep].
  split; [split|]; simpl.
  - intros z vz Hz. destruct (decide (z = x)) as [->|Hzx].
    + rewrite lookup_insert_eq in Hz. by simplify_eq.
    + rewrite lookup_insert_ne in Hz by done.
      eapply wf_agree; [|by eapply Hwf]. intros b Hb. by eapply Hkeep.
  - intros z1 z2 v1 v2 b Hne H1 H2 Hb.
    destruct (decide (z1 = x)) as [->|Hz1], (decide (z2 = x)) as [->|Hz2];
      try done.
    + rewrite lookup_insert_eq in H1. rewrite lookup_insert_ne in H2 by done.
      simplify_eq. intros Hb2.
      destruct (Halive z2 v2 b H2 Hb2) as [l Hl].
      by rewrite (Hfresh b Hb) in Hl.
    + rewrite lookup_insert_ne in H1 by done. rewrite lookup_insert_eq in H2.
      simplify_eq. intros Hb2.
      destruct (Halive z1 v1 b H1 Hb) as [l Hl].
      by rewrite (Hfresh b Hb2) in Hl.
    + rewrite lookup_insert_ne in H1, H2 by done.
      exact (Hsep z1 z2 v1 v2 b Hne H1 H2 Hb).
  - intros z Hz. unfold observe; simpl. rewrite lookup_insert_ne by done.
    destruct (vecs w !! z) as [vz|] eqn:Ez; [|done]. simpl.
    do 2 f_equal. apply elements_agree. intros b Hb. by eapply Hkeep.
Qed.

Lemma copy_construct_run x y w vy :
  separated w → vecs w !! x = None → vecs w !! y = Some vy →
  ∃ v' h',
    copy_construct T_default x y w = Ok tt (World h' (<[x := v']> (vecs w)))
    ∧ size_ v' = size_ vy ∧ capacity_ v' = capacity_ vy
    ∧ wf v' h' ∧ elements v' h' = elements vy (heap_of w)
    ∧ (∀ b, is_Some (heap_of w !! b) → h' !! b = heap_of w !! b)
    ∧ (∀ b, base (Get (items_ v')) = Some b → heap_of w !! b = None).
Proof.
  intros Hsep Hx Hy.
  destruct (ctor_copy_ok vy (heap_of w)) as (v' & h' & Hrun & Hrest);
    [by eapply (proj1 Hsep)|].
  exists v', h'. split; [|done].
  unfold copy_construct, mbind, M_bind.
  rewrite (call_gets y id w vy) by done. simpl.
  unfold construct. by rewrite Hx, Hrun.
Qed.

Lemma copy_construct_ok x y w vy :
  separated w → vecs w !! x = None → vecs w !! y = Some vy →
  ∃ w',
    copy_construct T_default x y w = Ok tt w'
    ∧ observe w' x = Some (size_ vy, capacity_ vy, elements vy (heap_of w))
    ∧ separated w'
    ∧ ∀ z, z ≠ x → observe w' z = observe w z.
Proof.
  intros Hsep Hx Hy.
  pose proof (separated_disjoint w Hsep) as [Halive _].
  destruct (copy_construct_run x y w vy Hsep Hx Hy)
    as (v' & h' & Hrun & Hsz & Hcap & Hwf' & Hels & Hkeep & Hfresh).
  destruct (separated_replace w x v' h' Hsep Hwf' Hfresh) as [Hsep' Hobs].
  { intros z vz b _ Hz Hb. apply Hkeep. by eapply Halive. }
  eexists. split; [exact Hrun|]. split; [|done].
  unfold observe; simpl. rewrite lookup_insert_eq; simpl.
  by rewrite Hsz, Hcap, Hels.
Qed.

Lemma copy_and_swap_ok x y w vx vy :
  separated w → x ≠ y → vecs w !! x = Some vx → vecs w !! y = Some vy →
  ∃ w',
    copy_and_swap T_default x y w = Ok tt w'
    ∧ observe w' x = Some (size_ vy, capacity_ vy, elements vy (heap_of w))
    ∧ separated w'
    ∧ ∀ z, z ≠ x → observe w' z = observe w z.
Proof.
  intros Hsep Hne Hx Hy.
  pose proof (separated_disjoint w Hsep) as [Halive Hdist].
  pose proof (is_fresh (dom (vecs w))) as Hfresh.
  unfold copy_and_swap. set (temp := fresh (dom (vecs w))) in *.
  assert (vecs w !! temp = None) as Htemp by (by apply not_elem_of_dom).
  assert (x ≠ temp) as Hxt by (intros ->; congruence).
  destruct (copy_construct_run temp y w vy Hsep Htemp Hy)
    as (vt & h1 & Hrun & Hsz & Hcap & Hwft & Hels & Hkeep & Hnew).
  unfold mbind, M_bind. rewrite Hrun.
  rewrite (swap_distinct x temp _ vx vt); simpl;
    [|done|by rewrite lookup_insert_ne|by rewrite lookup_insert_eq].
  unfold destroy; simpl. rewrite lookup_insert_eq.
  assert (wf vx (heap_of w)) as Hwfx by (by eapply (proj1 Hsep)).
  assert (∃ h2, ArrayPtr_destroy (items_ vx) h1 = Ok tt h2
                ∧ (∀ b, base (Get (items_ vx)) ≠ Some b → h2 !! b = h1 !! b))
    as (h2 & Hdel & Hh2).
  { unfold ArrayPtr_destroy, delete_array.
    destruct (wf_cases vx _ Hwfx) as [(Hv & _)|(b & l & Hv & Hl & _)];
      rewrite Hv; simpl.
    - eauto.
    - rewrite decide_True.
      + eexists. split; [done|]. intros b0 Hb0.
        rewrite lookup_delete_ne; [done|congruence].
      + split; [done|]. rewrite Hkeep by eauto. eauto. }
  rewrite Hdel.
  assert (delete temp (<[temp:=vx]> (<[x:=vt]> (<[temp:=vt]> (vecs w))))
          = <[x := vt]> (vecs w)) as ->.
  { apply map_eq. intros k.
    destruct (decide (k = temp)), (decide (k = x)); by simplify_map_eq. }
  assert (∀ b, base (Get (items_ vt)) = Some b → base (Get (items_ vx)) ≠ Some b)
    as Hbt.
  { intros b Hb Hbx. destruct (Halive x vx b Hx Hbx) as [l Hl].
    by rewrite (Hnew b Hb) in Hl. }
  destruct (separated_replace w x vt h2 Hsep) as [Hsep' Hobs].
  { eapply wf_agree; [|exact Hwft]. intros b Hb. apply Hh2. by apply Hbt. }
  { done. }
  { intros z vz b Hz Hvz Hb. rewrite Hh2.
    - apply Hkeep. by eapply Halive.
    - intros Hbx. by eapply (Hdist x z vx vz b). }
  eexists. split; [done|]. split; [|done].
  unfold observe; simpl. rewrite lookup_insert_eq; simpl.
  rewrite Hsz, Hcap. do 2 f_equal. rewrite <- Hels.
  apply elements_agree. intros b Hb. apply Hh2. by apply Hbt.
Qed.

(** The two drafts of copy assignment. *)
Lemma copy_assign_self d x w vx :
  vecs w !! x = Some vx → wf vx (heap_of w) →
  copy_assign T_default d x x w = Ok tt w.
Proof.
  intros Hx Hwf. unfold copy_assign, mbind, M_bind. destruct d.
  - rewrite (equal_elements x x w vx vx) by done.
    by rewrite bool_decide_eq_true_2.
  - unfold mret, M_ret. by rewrite bool_decide_eq_true_2.
Qed.

Lemma copy_assign_part_001 x y w :
  x ≠ y → copy_assign T_default part_001 x y w = copy_and_swap T_default x y w.
Proof.
  intros Hne. unfold copy_assign, mbind, M_bind, mret, M_ret.
  by rewrite bool_decide_eq_false_2.
Qed.

Lemma copy_assign_part_000 x y w vx vy :
  vecs w !! x = Some vx → vecs w !! y = Some vy →
  wf vx (heap_of w) → wf vy (heap_of w) →
  copy_assign T_default part_000 x y w
  = if decide (elements vx (heap_of w) = elements vy (heap_of w))
    then Ok tt w else copy_and_swap T_default x y w.
Proof.
  intros Hx Hy Hwfx Hwfy. unfold copy_assign, mbind, M_bind.
  rewrite (equal_elements x y w vx vy) by done.
  case_decide.
  - by rewrite bool_decide_eq_true_2.
  - by rewrite bool_decide_eq_false_2.
Qed.

Lemma separated_check_sound w : separated_check w → separated w.
Proof.
  intros [Hwf Hsep]. split.
  - intros x v Hx. by apply (Hwf x v).
  - intros x y vx vy b Hne Hx Hy Hb Hb'.
    destruct (Hsep x vx Hx y vy Hy) as [?|[?|?]]; congruence.
Qed.

(** *** The constructors establish the invariant *)

Lemma fresh_block_None (h : gmap block (list T)) : h !! fresh (dom h) = None.
Proof. apply not_elem_of_dom, is_fresh. Qed.

Lemma insert_fresh_other (h : gmap block (list T)) l b :
  is_Some (h !! b) → <[fresh (dom h) := l]> h !! b = h !! b.
Proof.
  intros Hb. apply lookup_insert_ne. intros <-.
  rewrite fresh_block_None in Hb. by destruct Hb.
Qed.

Lemma ArrayPtr_new_ok n (h : gmap block (list T)) :
  0 < n ≤ max_alloc →
  ArrayPtr_new T_default n h
  = Ok (MkArrayPtr (Ptr (Some (fresh (dom h))) 0))
       (<[fresh (dom h) := replicate (Z.to_nat n) T_default]> h).
Proof.
  intros Hn. unfold ArrayPtr_new, new_array, mbind, M_bind, mret, M_ret; simpl.
  rewrite decide_True by lia. by rewrite decide_True by lia.
Qed.

Lemma ArrayPtr_new_throw n (h : gmap block (list T)) :
  max_alloc < n → ArrayPtr_new T_default n h = Throw bad_alloc h.
Proof.
  intros Hn. pose proof max_alloc_lt.
  unfold ArrayPtr_new, new_array, mbind, M_bind, mret, M_ret; simpl.
  rewrite decide_True by (unfold max_alloc in *; lia).
  by rewrite decide_False by lia.
Qed.

Lemma ArrayPtr_new_null (h : gmap block (list T)) :
  ArrayPtr_new T_default 0 h = Ok (MkArrayPtr nullptr) h.
Proof. done. Qed.

Lemma ctor_size_ok n (h : gmap block (list T)) :
  0 ≤ n ≤ max_alloc →
  ∃ v' h',
    ctor_size T_default n (St empty_vector h) = Ok tt (St v' h')
    ∧ wf v' h' ∧ size_ v' = n ∧ capacity_ v' = n
    ∧ elements v' h' = replicate (Z.to_nat n) T_default
    ∧ (∀ b, is_Some (h !! b) → h' !! b = h !! b).
Proof.
  intros Hn. unfold ctor_size, mbind, M_bind, on_heap; simpl.
  destruct (decide (n = 0)) as [->|Hpos].
  - exists empty_vector, h. split; [done|]. by split; [apply wf_empty_vector|].
  - rewrite ArrayPtr_new_ok by lia. simpl.
    eexists _, _. split; [reflexivity|].
    split; [|split; [done|split; [done|split]]].
    + unfold wf; simpl. rewrite lookup_insert_eq; simpl.
      rewrite length_replicate. repeat split; lia.
    + unfold elements, buffer; simpl. rewrite lookup_insert_eq; simpl.
      by rewrite take_replicate, Nat.min_id.
    + intros b Hb. by apply insert_fresh_other.
Qed.

Lemma ctor_fill_ok n (x : T) (h : gmap block (list T)) :
  0 ≤ n ≤ max_alloc →
  ∃ v' h',
    ctor_fill T_default n x (St empty_vector h) = Ok tt (St v' h')
    ∧ wf v' h' ∧ size_ v' = n ∧ capacity_ v' = n
    ∧ elements v' h' = replicate (Z.to_nat n) x
    ∧ (∀ b, is_Some (h !! b) → h' !! b = h !! b).
Proof.
  intros Hn. unfold ctor_fill, mbind, M_bind, on_heap; simpl.
  destruct (decide (n = 0)) as [->|Hpos].
  - exists empty_vector, h. split; [done|]. by split; [apply wf_empty_vector|].
  - rewrite ArrayPtr_new_ok by lia. simpl.
    unfold gets, std_fill, ptr_diff, begin_, end_, ptr_add, Get; simpl.
    rewrite decide_True by done. rewrite Z.add_0_l, Z.sub_0_r.
    rewrite decide_True by lia.
    rewrite (fill_n_block (Z.to_nat n) _ (fresh (dom h))
               (replicate (Z.to_nat n) T_default) 0 x);
      [|by rewrite lookup_insert_eq|rewrite length_replicate; lia].
    simpl. eexists _, _. split; [reflexivity|].
    rewrite insert_insert_eq.
    rewrite drop_replicate, Nat.sub_diag, app_nil_r.
    split; [|split; [done|split; [done|split]]].
    + unfold wf; simpl. rewrite lookup_insert_eq; simpl.
      rewrite length_replicate. repeat split; lia.
    + unfold elements, buffer; simpl. rewrite lookup_insert_eq; simpl.
      by rewrite take_replicate, Nat.min_id.
    + intros b Hb. by apply insert_fresh_other.
Qed.

Lemma ctor_init_ok init (h : gmap block (list T)) :
  Z.of_nat (length init) ≤ max_alloc →
  ∃ v' h',
    ctor_init T_default init (St empty_vector h) = Ok tt (St v' h')
    ∧ wf v' h' ∧ size_ v' = Z.of_nat (length init)
    ∧ capacity_ v' = Z.of_nat (length init)
    ∧ elements v' h' = init
    ∧ (∀ b, is_Some (h !! b) → h' !! b = h !! b).
Proof.
  intros Hn. unfold ctor_init, mbind, M_bind, on_heap; simpl.
  destruct init as [|x0 init0].
  - exists empty_vector, h. split; [done|]. by split; [apply wf_empty_vector|].
  - assert (Hpos : 0 < Z.of_nat (length (x0 :: init0))) by (cbn [length]; lia).
    remember (x0 :: init0) as init eqn:Hinit.
    rewrite ArrayPtr_new_ok by lia. cbn [this mem].
    unfold gets, Get; cbn [this mem items_ raw_ptr_].
    rewrite (copy_list_block init _ (fresh (dom h))
               (replicate (Z.to_nat (Z.of_nat (length init))) T_default) 0);
      [|by rewrite lookup_insert_eq|rewrite length_replicate; lia].
    eexists _, _. split; [reflexivity|].
    rewrite insert_insert_eq.
    rewrite drop_replicate, Nat2Z.id, Nat.add_0_l, Nat.sub_diag, app_nil_r.
    rewrite take_0, app_nil_l.
    split; [|split; [done|split; [done|split]]].
    + unfold wf; cbn [items_ size_ capacity_ Get raw_ptr_ base offset].
      rewrite lookup_insert_eq. cbn [fmap option_fmap option_map].
      rewrite Nat2Z.id. repeat split; lia.
    + unfold elements, buffer; cbn [items_ size_ capacity_ Get raw_ptr_ base offset].
      rewrite lookup_insert_eq, Nat2Z.id. simpl. by apply take_ge.
    + intros b Hb. by apply insert_fresh_other.
Qed.

Lemma ctor_reserve_ok n (h : gmap block (list T)) :
  0 ≤ n ≤ max_alloc →
  ∃ v' h',
    ctor_reserve T_default n (St empty_vector h) = Ok tt (St v' h')
    ∧ wf v' h' ∧ size_ v' = 0 ∧ capacity_ v' = n ∧ elements v' h' = []
    ∧ (∀ b, is_Some (h !! b) → h' !! b = h !! b).
Proof.
  intros Hn. unfold ctor_reserve.
  destruct (decide (n = 0)) as [->|Hpos].
  - exists empty_vector, h. rewrite Reserve_noop by done.
    by split; [|split; [apply wf_empty_vector|]].
  - destruct (Reserve_grow T_default empty_vector h n)
      as (v' & h' & Hrun & Hsz & Hcap & Hwf' & Hels & _ & Hfr & _);
      [apply wf_empty_vector | simpl; lia | lia |].
    exists v', h'. split; [done|]. split; [done|]. split; [done|].
    split; [done|]. split; [done|].
    intros b Hb. apply Hfr; [by apply elem_of_dom|done].
Qed.

End WorldFacts.

(** ** The two drafts, operation by operation *)

Section DraftFacts.
Context {T : Type} `{EqDecision T}.
Variable T_default : T.
Implicit Types (s : @state T) (w : @world T) (d : draft).

Lemma completed_bind {S A B} (m : M S A) (f : A → M S B) (t : S) :
  completed ((m ≫= f) t) → completed (m t).
Proof. unfold mbind, M_bind. by destruct (m t). Qed.

Lemma bind_eq {S A B} (m1 m2 : M S A) (f1 f2 : A → M S B) (t : S) :
  m1 t = m2 t → (∀ a (t' : S), m2 t = Ok a t' → f1 a t' = f2 a t') →
  (m1 ≫= f1) t = (m2 ≫= f2) t.
Proof.
  intros Hm Hf. unfold mbind, M_bind. rewrite Hm.
  destruct (m2 t) as [a t'| | |] eqn:E; try done. by apply Hf.
Qed.

Lemma ResizeCurrentVector_draft d s :
  ResizeCurrentVector T_default d s = ResizeCurrentVector T_default part_000 s.
Proof.
  unfold ResizeCurrentVector. apply bind_eq; [done|]. intros c s1 _.
  apply bind_eq; [done|]. intros n s2 _.
  case_decide; [apply Resize_draft | done].
Qed.

Lemma PushBack_draft d x s :
  PushBack T_default d x s = PushBack T_default part_000 x s.
Proof.
  unfold PushBack. apply bind_eq; [apply ResizeCurrentVector_draft|]. done.
Qed.

Lemma Insert_draft d pos x s :
  Insert T_default d pos x s = Insert T_default part_000 pos x s.
Proof.
  unfold Insert. apply bind_eq; [done|]. intros e s1 _.
  case_decide.
  - apply bind_eq; [apply PushBack_draft|]. done.
  - apply bind_eq; [done|]. intros a s2 _.
    destruct (ptr_diff pos (Get a)); [|done].
    apply bind_eq; [apply ResizeCurrentVector_draft|]. done.
Qed.

(** The assertions of part_000 either hold, leaving the state as it is, or
    stop the program. *)
Lemma position_asserts_cases pos s :
  let m : M (@state T) unit :=
    e ← gets end_; c ← ptr_le pos e; assert c;;
    b ← gets begin_; c ← ptr_le b pos; assert c in
  m s = Ok tt s ∨ ¬ completed (m s).
Proof.
  unfold mbind, M_bind, gets, ptr_le, assert, mret, M_ret, undefined. simpl.
  destruct (ptr_diff pos (end_ (this s))); simpl; [|right; tauto].
  case_bool_decide; simpl; [|right; tauto].
  destruct (ptr_diff (begin_ (this s)) pos); simpl; [|right; tauto].
  case_bool_decide; simpl; [by left|right; tauto].
Qed.

Lemma position_asserts_skip {A} pos (f : M (@state T) A) s :
  completed
    (((e ← gets end_; c ← ptr_le pos e; assert c;;
       b ← gets begin_; c ← ptr_le b pos; assert c) ≫= λ _, f) s) →
  f s = ((e ← gets end_; c ← ptr_le pos e; assert c;;
          b ← gets begin_; c ← ptr_le b pos; assert c) ≫= λ _, f) s.
Proof.
  intros Hc. destruct (position_asserts_cases pos s) as [Hok|Hbad].
  - simpl in Hok. unfold mbind at 1, M_bind at 1. by rewrite Hok.
  - exfalso. apply Hbad. by eapply completed_bind.
Qed.

Lemma Insert_rvalue_draft pos x s :
  completed (Insert_rvalue T_default part_000 pos x s) →
  Insert_rvalue T_default part_001 pos x s
  = Insert_rvalue T_default part_000 pos x s.
Proof.
  intros Hc. transitivity (Insert T_default part_000 pos x s).
  - change (Insert_rvalue T_default part_001 pos x s)
      with (Insert T_default part_001 pos x s).
    apply Insert_draft.
  - exact (position_asserts_skip pos (Insert T_default part_000 pos x) s Hc).
Qed.

Lemma Erase_draft pos s :
  completed (Erase part_000 pos s) →
  Erase part_001 pos s = Erase (T:=T) part_000 pos s.
Proof.
  intros Hc. exact (position_asserts_skip pos _ s Hc).
Qed.

Lemma PopBack_draft s :
  completed (PopBack part_000 s) → PopBack part_001 s = PopBack (T:=T) part_000 s.
Proof.
  unfold PopBack, mbind, M_bind, gets, assert. simpl.
  by destruct (IsEmpty (this s)).
Qed.

Lemma subscript_draft i s :
  completed (subscript part_000 i s) →
  subscript part_001 i s = subscript (T:=T) part_000 i s.
Proof.
  unfold subscript, mbind, M_bind, gets, assert, mret, M_ret. simpl.
  by case_bool_decide.
Qed.

Lemma invoke_draft c s :
  completed (invoke T_default part_000 c s) →
  invoke T_default part_001 c s = invoke T_default part_000 c s.
Proof.
  destruct c; unfold invoke; intros Hc.
  - apply bind_eq; [apply PushBack_draft|done].
  - apply bind_eq; [|done]. apply PopBack_draft. by eapply completed_bind.
  - apply bind_eq; [done|]. intros b s1 [-> ->]%gets_inv.
    apply bind_eq; [apply Insert_draft|done].
  - apply bind_eq; [done|]. intros b s1 [-> ->]%gets_inv.
    apply bind_eq; [|done]. apply Insert_rvalue_draft.
    unfold mbind at 1, M_bind at 1, gets in Hc. by eapply completed_bind.
  - apply bind_eq; [done|]. intros b s1 [-> ->]%gets_inv.
    apply bind_eq; [|done]. apply Erase_draft.
    unfold mbind at 1, M_bind at 1, gets in Hc. by eapply completed_bind.
  - apply bind_eq; [apply Resize_draft|done].
  - done.
  - done.
  - apply bind_eq; [|done]. apply subscript_draft. by eapply completed_bind.
  - apply bind_eq; [|done]. apply subscript_draft. by eapply completed_bind.
  - done.
  - done.
  - done.
  - done.
  - done.
Qed.

Lemma call_eq {A} x (m1 m2 : M (@state T) A) w :
  (∀ v, vecs w !! x = Some v → m1 (St v (heap_of w)) = m2 (St v (heap_of w))) →
  call x m1 w = call x m2 w.
Proof.
  intros Hm. unfold call. destruct (vecs w !! x) as [v|]; [|done].
  by rewrite Hm.
Qed.

Lemma completed_call {A} x (m : M (@state T) A) w v :
  vecs w !! x = Some v → completed (call x m w) → completed (m (St v (heap_of w))).
Proof.
  intros Hx. unfold call. rewrite Hx. by destruct (m (St v (heap_of w))).
Qed.

Lemma read_n_outcome n : ∀ p (h : gmap block (list T)),
  (∃ xs, read_n n p h = Ok xs h) ∨ read_n n p h = Undefined.
Proof.
  induction n as [|n IH]; intros p h; simpl.
  - left. by eexists.
  - unfold mbind, M_bind, read.
    destruct (load h p); [|by right].
    destruct (IH (ptr_add p 1) h) as [[ys ->]| ->]; [left; by eexists|by right].
Qed.

(** A vector compares equal to itself, if the comparison is defined. *)
Lemma equal_self x w :
  completed (equal x x w) → equal x x w = Ok true w.
Proof.
  unfold equal. destruct (vecs w !! x) as [v|]; [|done].
  unfold std_equal. destruct (ptr_diff (end_ v) (begin_ v)); [|done].
  case_decide; [|done]. rewrite decide_True by done.
  unfold mbind, M_bind.
  destruct (read_n_outcome (Z.to_nat z) (begin_ v) (heap_of w)) as [[xs E]|E];
    rewrite E; [|done]. rewrite E.
  unfold mret, M_ret. rewrite bool_decide_eq_true_2 by done.
  by rewrite world_eta.
Qed.

Lemma copy_assign_draft x y w :
  x = y ∨ equal x y w = Ok false w →
  completed (copy_assign T_default part_000 x y w) →
  copy_assign T_default part_001 x y w = copy_assign T_default part_000 x y w.
Proof.
  intros Hcmp Hc. unfold copy_assign in *.
  destruct Hcmp as [->|Heq].
  - apply completed_bind in Hc. rewrite (bind_eq _ (mret true) _ (λ b, if b : bool then mret tt else copy_and_swap T_default y y) w).
    + unfold mbind, M_bind, mret, M_ret. by rewrite equal_self.
    + unfold mret, M_ret. by rewrite bool_decide_eq_true_2.
    + by intros [] s'.
  - unfold mbind, M_bind, mret, M_ret. rewrite Heq.
    assert (x ≠ y) as Hne.
    { intros ->. assert (completed (equal y y w)) as Hcy by (by rewrite Heq).
      apply equal_self in Hcy. congruence. }
    by rewrite bool_decide_eq_false_2.
Qed.

Lemma step_draft o w :
  comparable o w → completed (step T_default part_000 o w) →
  step T_default part_001 o w = step T_default part_000 o w.
Proof.
  destruct o; simpl; intros Hcmp Hc; try done.
  - apply bind_eq; [|done]. apply copy_assign_draft; [done|].
    by eapply completed_bind.
  - apply call_eq. intros v Hv. apply invoke_draft.
    by eapply completed_call.
Qed.

Lemma run_draft p : ∀ w,
  all_comparable T_default p w → completed (run T_default part_000 p w) →
  run T_default part_001 p w = run T_default part_000 p w.
Proof.
  induction p as [|o p IH]; intros w Hcmp Hc; simpl in *; [done|].
  destruct Hcmp as [Ho Hrest].
  apply bind_eq.
  - apply step_draft; [done|]. by eapply completed_bind.
  - intros r w' Hstep. rewrite Hstep in Hrest.
    apply bind_eq; [|done]. apply IH; [done|].
    unfold mbind at 1, M_bind at 1 in Hc. rewrite Hstep in Hc.
    by eapply completed_bind.
Qed.

End DraftFacts.

(** * The documented behaviour *)

(** C8. [At(i)] signals out-of-range exactly when [i >= size]; otherwise it
    returns the reference to element [i], and reading through it yields the
    [i]-th element.  In both cases the vector and the free store are left
    as they were.  [At(size())] always fails and [At(size() - 1)] succeeds
    on a non-empty vector. *)
Theorem At_checked {T} `{EqDecision T} (T_default : T) (d : draft)
    (v : SimpleVector) (h : gmap block (list T)) (i : Z) :
  wf v h → 0 ≤ i →
  (size_ v ≤ i ↔ At i (St v h) = Throw out_of_range (St v h))
  ∧ (i < size_ v →
       ∃ x, At i (St v h) = Ok (at_index (items_ v) i) (St v h)
            ∧ load h (at_index (items_ v) i) = Some x
            ∧ elements v h !! Z.to_nat i = Some x
            ∧ invoke T_default d (CallAt i) (St v h) = Ok (VElem x) (St v h))
  ∧ At (size_ v) (St v h) = Throw out_of_range (St v h)
  ∧ (0 < size_ v →
       ∃ x, last (elements v h) = Some x
            ∧ invoke T_default d (CallAt (size_ v - 1)) (St v h)
              = Ok (VElem x) (St v h)).
Proof.
  intros Hwf Hi. pose proof (wf_bounds _ _ Hwf) as Hb.
  pose proof (buffer_length _ _ Hwf) as Hlen.
  assert (∀ j, 0 ≤ j < size_ v →
            ∃ x, At j (St v h) = Ok (at_index (items_ v) j) (St v h)
                 ∧ load h (at_index (items_ v) j) = Some x
                 ∧ elements v h !! Z.to_nat j = Some x
                 ∧ invoke T_default d (CallAt j) (St v h) = Ok (VElem x) (St v h))
    as Hin.
  { intros j Hj.
    destruct (lookup_lt_is_Some_2 (buffer v h) (Z.to_nat j)) as [x Hx]; [lia|].
    exists x. rewrite At_in_range by lia.
    rewrite load_at_index by (done || lia).
    split; [done|]. split; [done|]. split.
    - unfold elements. rewrite lookup_take_lt by lia. done.
    - unfold invoke, mbind, M_bind. rewrite At_in_range by lia.
      unfold on_heap, read; simpl.
      rewrite load_at_index by (done || lia). by rewrite Hx. }
  split; [|split; [|split]].
  - split; [apply At_out_of_range|].
    intros Hthrow. destruct (decide (size_ v ≤ i)); [done|].
    rewrite At_in_range in Hthrow by lia. done.
  - intros Hlt. apply Hin. lia.
  - by apply At_out_of_range.
  - intros Hpos. destruct (Hin (size_ v - 1)) as (x & _ & _ & Hx & Hcall); [lia|].
    exists x. split; [|done].
    rewrite last_lookup, (elements_length _ _ Hwf).
    rewrite <- Hx. f_equal. lia.
Qed.

Lemma At_checked_witness :
  invoke 0 part_000 (CallAt 1) (St sample_vector sample_heap)
  = Ok (VElem 2) (St sample_vector sample_heap).
Proof.
  destruct (At_checked 0 part_000 sample_vector sample_heap 1) as (_ & H & _);
    [compute_done | lia |].
  destruct H as (x & _ & _ & Hx & Hcall); [simpl; lia|].
  vm_compute in Hx. injection Hx as <-. exact Hcall.
Defined.

(** C7, as the code has it.  On a non-empty vector [PopBack] returns
    normally (the assertion of part_000 holds), the size drops by one, the
    capacity and the buffer are the same and the elements at indices
    [0, size - 1) keep their values.  On an empty vector the two drafts
    differ: part_000 fails its assertion, part_001 tests [IsEmpty] and
    returns normally without any effect; neither draft throws. *)
Theorem PopBack_contract {T} (d : draft) (v : SimpleVector) (h : gmap block (list T)) :
  wf v h →
  (0 < size_ v →
     let v' := MkVec (items_ v) (size_ v - 1) (capacity_ v) in
     PopBack d (St v h) = Ok tt (St v' h)
     ∧ PopBack d (St v h) ≠ AssertFail
     ∧ wf v' h
     ∧ elements v' h = take (Z.to_nat (size_ v - 1)) (elements v h))
  ∧ (size_ v = 0 →
     PopBack part_000 (St v h) = AssertFail
     ∧ PopBack part_001 (St v h) = Ok tt (St v h)
     ∧ ∀ e s, PopBack d (St v h) ≠ Throw e s).
Proof.
  intros Hwf. pose proof (wf_bounds _ _ Hwf) as Hb.
  pose proof max_alloc_lt as Hm.
  split.
  - intros Hpos. simpl. rewrite PopBack_ok by lia.
    split; [done|]. split; [done|].
    split; [apply wf_set_size; [done|lia]|].
    apply elements_set_size; [done|lia].
  - intros Hz. rewrite PopBack_empty_part_000, PopBack_empty_part_001 by done.
    split; [done|]. split; [done|].
    intros e s. destruct d.
    + by rewrite PopBack_empty_part_000.
    + by rewrite PopBack_empty_part_001.
Qed.

Lemma PopBack_contract_witness :
  PopBack part_000 (St sample_vector sample_heap)
  = Ok tt (St (MkVec (MkArrayPtr (Ptr (Some 0%nat) 0)) 2 4) sample_heap).
Proof.
  destruct (PopBack_contract part_000 sample_vector sample_heap) as [H _];
    [compute_done|].
  destruct H as [H _]; [simpl; lia|]. exact H.
Defined.

(** C7, as stated, fails in part_001: there [PopBack] on the empty vector
    is neither undefined nor a failed assertion.  The body
    [if (!IsEmpty()) --size_;], part_001:128-134, returns normally and
    leaves the vector as it was. *)
Lemma PopBack_part_001_empty_returns :
  PopBack part_001 (St empty_vector (∅ : gmap block (list Z)))
  = Ok tt (St empty_vector ∅)
  ∧ ¬ (PopBack part_001 (St empty_vector (∅ : gmap block (list Z))) = AssertFail
       ∨ PopBack part_001 (St empty_vector (∅ : gmap block (list Z))) = Undefined).
Proof.
  split; [vm_compute; reflexivity|].
  intros [Hbad|Hbad]; vm_compute in Hbad; discriminate.
Qed.

(** C6. [Erase(begin() + i)] for [0 <= i < size] removes exactly element
    [i]: the elements before [i] keep their places, those after it move down
    by one in the same order, the size drops by one, the capacity and the
    buffer are the same, and the result is the iterator to index [i], which
    is [end()] when the last element was removed. *)
Theorem Erase_correct {T} (d : draft) (v : SimpleVector) (h : gmap block (list T))
    (i : Z) :
  wf v h → 0 ≤ i < size_ v →
  ∃ h',
    let v' := MkVec (items_ v) (size_ v - 1) (capacity_ v) in
    Erase d (ptr_add (begin_ v) i) (St v h) = Ok (ptr_add (begin_ v') i) (St v' h')
    ∧ wf v' h'
    ∧ elements v' h'
      = take (Z.to_nat i) (elements v h) ++ drop (S (Z.to_nat i)) (elements v h)
    ∧ (∀ k, (k < Z.to_nat i)%nat → elements v' h' !! k = elements v h !! k)
    ∧ (∀ k, (Z.to_nat i ≤ k)%nat → elements v' h' !! k = elements v h !! S k)
    ∧ (i = size_ v - 1 → ptr_add (begin_ v') i = end_ v').
Proof.
  intros Hwf Hi. pose proof (elements_length _ _ Hwf) as Hel.
  destruct (Erase_ok d v h i Hwf Hi) as (h' & Hrun & Hwf' & Hels & _).
  exists h'. simpl in *. split; [done|]. split; [done|]. split; [done|].
  split; [|split].
  - intros k Hk. rewrite Hels, lookup_app_l by (rewrite length_take; lia).
    by rewrite lookup_take_lt.
  - intros k Hk. rewrite Hels, lookup_app_r by (rewrite length_take; lia).
    rewrite length_take, lookup_drop. f_equal. lia.
  - intros ->. done.
Qed.

Lemma Erase_correct_witness :
  ∃ h', Erase part_000 (ptr_add (begin_ sample_vector) 0) (St sample_vector sample_heap)
        = Ok (Ptr (Some 0%nat) 0) (St (MkVec (MkArrayPtr (Ptr (Some 0%nat) 0)) 2 4) h')
        ∧ elements (MkVec (MkArrayPtr (Ptr (Some 0%nat) 0)) 2 4) h' = [2; 3].
Proof.
  destruct (Erase_correct part_000 sample_vector sample_heap 0)
    as (h' & Hrun & _ & Hels & _); [compute_done | simpl; lia |].
  exists h'. split; [exact Hrun | exact Hels].
Defined.

(** C5, at an input where the code departs from it.  The vector is
    [{1, 2, 3}] with capacity 4 and the call is [v.Insert(v.begin(), v[2])]:
    the argument is a reference to the third element.  [Insert] shifts the
    elements up first and reads the reference afterwards, when that place
    holds the former second element: the vector becomes [{2, 1, 2, 3}], not
    [{3, 1, 2, 3}].  Both overloads and both drafts do this.  With the same
    value passed as a temporary the result is [{3, 1, 2, 3}].  On the full
    vector [{1, 2}] the call [v.Insert(v.begin(), v[1])] reads the reference
    after the reallocation has deleted the array it points into: its
    behaviour is undefined. *)
Theorem Insert_of_own_element :
  ∀ d : draft,
    let v' := MkVec (MkArrayPtr (Ptr (Some 0%nat) 0)) 4 4 in
    subscript d 2 (St sample_vector sample_heap)
    = Ok (Ptr (Some 0%nat) 2) (St sample_vector sample_heap)
    ∧ value_of sample_heap (Place (Ptr (Some 0%nat) 2)) = Some 3
    ∧ Insert 0 d (begin_ sample_vector) (Place (Ptr (Some 0%nat) 2))
        (St sample_vector sample_heap)
      = Ok (begin_ v') (St v' {[ 0%nat := [2; 1; 2; 3] ]})
    ∧ Insert_rvalue 0 d (begin_ sample_vector) (Place (Ptr (Some 0%nat) 2))
        (St sample_vector sample_heap)
      = Ok (begin_ v') (St v' {[ 0%nat := [2; 1; 2; 3] ]})
    ∧ elements v' ({[ 0%nat := [2; 1; 2; 3] ]} : gmap block (list Z)) = [2; 1; 2; 3]
    ∧ Insert 0 d (begin_ sample_vector) (Outside 3) (St sample_vector sample_heap)
      = Ok (begin_ v') (St v' {[ 0%nat := [3; 1; 2; 3] ]})
    ∧ subscript d 1 (St full_vector full_heap)
      = Ok (Ptr (Some 0%nat) 1) (St full_vector full_heap)
    ∧ Insert 0 d (begin_ full_vector) (Place (Ptr (Some 0%nat) 1))
        (St full_vector full_heap) = Undefined.
Proof. intros []; vm_compute; repeat split; reflexivity. Qed.


(** C9. From the empty vector, [Reserve(k)] followed by [k] calls of
    [PushBack] gives size [k], capacity exactly [k] and the pushed
    elements, in the buffer that [Reserve] allocated (no second
    reallocation).  For any vector, [Reserve(c)] with [c <= capacity]
    changes nothing, and with [c > capacity] it makes the capacity exactly
    [c] and keeps the size and the elements. *)
Theorem Reserve_round_trip {T} `{EqDecision T} (T_default : T) (d : draft) :
  (∀ (h : gmap block (list T)) (xs : list T),
     Z.of_nat (length xs) ≤ max_alloc →
     ∃ v1 h1 v' h',
       Reserve T_default (Z.of_nat (length xs)) (St empty_vector h) = Ok tt (St v1 h1)
       ∧ push_all T_default d xs (St v1 h1) = Ok tt (St v' h')
       ∧ wf v' h'
       ∧ size_ v' = Z.of_nat (length xs)
       ∧ capacity_ v' = Z.of_nat (length xs)
       ∧ elements v' h' = xs
       ∧ items_ v' = items_ v1)
  ∧ (∀ (v : SimpleVector) (h : gmap block (list T)) c,
       c ≤ capacity_ v → Reserve T_default c (St v h) = Ok tt (St v h))
  ∧ (∀ (v : SimpleVector) (h : gmap block (list T)) c,
       wf v h → capacity_ v < c → c ≤ max_alloc →
       ∃ v' h', Reserve T_default c (St v h) = Ok tt (St v' h')
                ∧ wf v' h' ∧ capacity_ v' = c ∧ size_ v' = size_ v
                ∧ elements v' h' = elements v h).
Proof.
  split; [|split].
  - intros h xs Hmax.
    assert (∃ v1 h1,
              Reserve T_default (Z.of_nat (length xs)) (St empty_vector h)
              = Ok tt (St v1 h1)
              ∧ wf v1 h1 ∧ size_ v1 = 0 ∧ capacity_ v1 = Z.of_nat (length xs)
              ∧ elements v1 h1 = []) as (v1 & h1 & Hres & Hwf1 & Hsz1 & Hcap1 & Hels1).
    { destruct xs as [|x xs].
      - exists empty_vector, h. rewrite Reserve_noop by done.
        by split; [|split; [apply wf_empty_vector|]].
      - destruct (Reserve_grow T_default empty_vector h (Z.of_nat (length (x :: xs))))
          as (v1 & h1 & Hrun & Hsz & Hcap & Hwf1 & Hels & _);
          [apply wf_empty_vector | simpl; lia | done |].
        exists v1, h1. by rewrite Hels. }
    destruct (push_all_room T_default d xs v1 h1 Hwf1) as (h' & Hpush & Hwf' & Hels' & _);
      [lia|].
    simpl in *. rewrite Hsz1, Hcap1, Z.add_0_l in *.
    eexists v1, h1, _, h'. split; [done|]. split; [done|].
    split; [done|]. simpl. by rewrite Hels', Hels1.
  - intros v h c Hc. by apply Reserve_noop.
  - intros v h c Hwf Hc Hmax.
    destruct (Reserve_grow T_default v h c Hwf Hc Hmax)
      as (v' & h' & Hrun & Hsz & Hcap & Hwf' & Hels & _).
    by exists v', h'.
Qed.

Lemma Reserve_round_trip_witness :
  ∃ v1 h1 v' h',
    Reserve 0 3 (St empty_vector (∅ : gmap block (list Z))) = Ok tt (St v1 h1)
    ∧ push_all 0 part_000 [7; 8; 9] (St v1 h1) = Ok tt (St v' h')
    ∧ size_ v' = 3 ∧ capacity_ v' = 3 ∧ elements v' h' = [7; 8; 9].
Proof.
  destruct (proj1 (Reserve_round_trip 0 part_000) ∅ [7; 8; 9])
    as (v1 & h1 & v' & h' & Hres & Hpush & _ & Hsz & Hcap & Hels & _);
    [vm_compute; discriminate|].
  exists v1, h1, v', h'. split; [exact Hres|]. split; [exact Hpush|].
  split; [exact Hsz|]. split; [exact Hcap | exact Hels].
Defined.

(** C2, as the code has it.  In a program whose vectors are well formed and
    own different arrays, copy construction from [y] gives a new vector
    with the size, the capacity and the elements of [y].  Copy assignment
    [x = y] gives [x] the size and the elements of [y] in both drafts; its
    capacity is that of [y], except in part_000 when [x] already compares
    equal to [y]: then [x] is left untouched and keeps its own capacity.
    The source [y] is never changed, the result is again a program of
    vectors with different arrays, and self-assignment changes nothing.  In
    every such program a sequence of calls on some objects leaves every
    other object's size, capacity and elements as they were. *)
Theorem copy_semantics {T} `{EqDecision T} (T_default : T)
    (w : @world T) (x y : nat) (vx vy : SimpleVector) :
  separated w → x ≠ y → vecs w !! x = Some vx → vecs w !! y = Some vy →
  (∀ z, vecs w !! z = None →
     ∃ w', copy_construct T_default z y w = Ok tt w'
           ∧ observe w' z = Some (size_ vy, capacity_ vy, elements vy (heap_of w))
           ∧ observe w' y = observe w y
           ∧ separated w')
  ∧ (∀ d, ∃ w',
       copy_assign T_default d x y w = Ok tt w'
       ∧ observe w' x
         = Some (size_ vy,
                 (if decide (d = part_000
                             ∧ elements vx (heap_of w) = elements vy (heap_of w))
                  then capacity_ vx else capacity_ vy),
                 elements vy (heap_of w))
       ∧ observe w' y = observe w y
       ∧ separated w'
       ∧ (d = part_000 → elements vx (heap_of w) = elements vy (heap_of w) →
          w' = w))
  ∧ (∀ d, copy_assign T_default d x x w = Ok tt w
          ∧ copy_assign T_default d y y w = Ok tt w)
  ∧ (∀ d (w0 : @world T) p,
       separated w0 →
       post (λ w', ∀ z, z ∉ p.*1 → observe w' z = observe w0 z)
            (call_all T_default d p w0)).
Proof.
  intros Hsep Hne Hx Hy.
  assert (wf vx (heap_of w)) as Hwfx by (by eapply (proj1 Hsep)).
  assert (wf vy (heap_of w)) as Hwfy by (by eapply (proj1 Hsep)).
  split; [|split; [|split]].
  - intros z Hz.
    destruct (copy_construct_ok T_default z y w vy Hsep Hz Hy)
      as (w' & Hrun & Hobs & Hsep' & Hothers).
    exists w'. split; [done|]. split; [done|]. split; [|done].
    apply Hothers. intros ->. congruence.
  - intros d.
    destruct (copy_and_swap_ok T_default x y w vx vy Hsep Hne Hx Hy)
      as (w' & Hrun & Hobs & Hsep' & Hothers).
    destruct d.
    + rewrite (copy_assign_part_000 T_default x y w vx vy) by done.
      destruct (decide (elements vx (heap_of w) = elements vy (heap_of w)))
        as [Heq|Hneq].
      * exists w. rewrite decide_True by done.
        split; [done|]. split; [|done].
        unfold observe. rewrite Hx; simpl. rewrite <- Heq.
        assert (size_ vx = size_ vy) as ->; [|done].
        pose proof (elements_length _ _ Hwfx) as Hlx.
        pose proof (elements_length _ _ Hwfy) as Hly.
        pose proof (wf_bounds _ _ Hwfx). pose proof (wf_bounds _ _ Hwfy).
        rewrite Heq in Hlx. lia.
      * exists w'. rewrite decide_False by tauto.
        split; [done|]. split; [done|]. split; [by apply Hothers|].
        split; [done|]. done.
    + rewrite copy_assign_part_001 by done.
      exists w'. rewrite decide_False by (intros [? _]; done).
      split; [done|]. split; [done|]. split; [by apply Hothers|].
      split; [done|]. done.
  - intros d. split; by eapply copy_assign_self.
  - intros d w0 p Hsep0.
    pose proof (call_all_frame T_default d p w0 (separated_disjoint w0 Hsep0)) as Hall.
    destruct (call_all T_default d p w0); simpl in *; tauto.
Qed.

Lemma copy_semantics_witness :
  ∃ w', copy_assign 0 part_001 0%nat 1%nat large_small = Ok tt w'
        ∧ observe w' 0%nat = Some (1, 1, [7]).
Proof.
  destruct (copy_semantics 0 large_small 0%nat 1%nat
              (MkVec (MkArrayPtr (Ptr (Some 0%nat) 0)) 4 4)
              (MkVec (MkArrayPtr (Ptr (Some 1%nat) 0)) 1 1))
    as (_ & Hassign & _);
    [apply separated_check_sound; compute_done | lia | reflexivity | reflexivity |].
  destruct (Hassign part_001) as (w' & Hrun & Hobs & _).
  exists w'. split; [exact Hrun | exact Hobs].
Defined.

(** C2, as stated, fails in part_000: the program builds two vectors with
    the elements [{1, 2}], capacities 2 and 4; the assignment [a = b]
    returns at the guard [*this == rhs] and [a] keeps capacity 2. *)
Lemma copy_assign_capacity_counterexample :
  equal_vectors_program part_000 (World ∅ ∅) = Ok tt equal_vectors
  ∧ copy_assign 0 part_000 0%nat 1%nat equal_vectors = Ok tt equal_vectors
  ∧ observe equal_vectors 0%nat = Some (2, 2, [1; 2])
  ∧ observe equal_vectors 1%nat = Some (2, 4, [1; 2])
  ∧ ¬ (∀ w', copy_assign 0 part_000 0%nat 1%nat equal_vectors = Ok tt w' →
             snd <$> (fst <$> observe w' 0%nat)
             = snd <$> (fst <$> observe equal_vectors 1%nat)).
Proof.
  assert (copy_assign 0 part_000 0%nat 1%nat equal_vectors = Ok tt equal_vectors)
    as Hrun by (vm_compute; reflexivity).
  split; [vm_compute; reflexivity|]. split; [exact Hrun|].
  split; [vm_compute; reflexivity|]. split; [vm_compute; reflexivity|].
  intros Hclaim. specialize (Hclaim _ Hrun). vm_compute in Hclaim. discriminate.
Qed.

(** C10, as the code has it.  No call of a member function on a single
    vector lowers its capacity, whatever the arguments and whether the call
    returns or throws: [PushBack], [PopBack], [Insert], [Erase], [Resize],
    [Reserve], [Clear], [operator[]], [At] and the queries.  [Clear],
    [PopBack], [Erase] and a [Resize] that does not exceed the capacity
    leave the capacity exactly as it was.  (Copy assignment is not among
    them: it replaces the whole state by a copy of its source.) *)
Theorem capacity_monotone {T} `{EqDecision T} (T_default : T) (d : draft)
    (v : SimpleVector) (h : gmap block (list T)) :
  (∀ c, post (λ s', capacity_ v ≤ capacity_ (this s'))
             (invoke T_default d c (St v h)))
  ∧ post (λ s', capacity_ (this s') = capacity_ v) (Clear (St v h))
  ∧ post (λ s', capacity_ (this s') = capacity_ v) (PopBack d (St v h))
  ∧ (∀ pos, post (λ s', capacity_ (this s') = capacity_ v) (Erase d pos (St v h)))
  ∧ (∀ n, n ≤ capacity_ v →
          post (λ s', capacity_ (this s') = capacity_ v)
               (Resize T_default d n (St v h)))
  ∧ (∀ n, wf v h → n ≤ size_ v →
          Resize T_default d n (St v h)
          = Ok tt (St (MkVec (items_ v) n (capacity_ v)) h)).
Proof.
  split; [|split; [|split; [|split; [|split]]]].
  - intros c. apply (invoke_capacity T_default d c (St v h)).
  - apply (respects_Clear capacity_same); auto using capacity_same_local.
  - apply (respects_PopBack capacity_same);
      eauto using capacity_same_refl, capacity_same_trans, capacity_same_local.
  - intros pos. apply (respects_Erase capacity_same);
      eauto using capacity_same_refl, capacity_same_trans, capacity_same_local.
  - intros n Hn. apply (respects_Resize_within T_default capacity_same);
      eauto using capacity_same_refl, capacity_same_trans, capacity_same_local.
  - intros n Hwf Hn. by apply Resize_shrink.
Qed.

Lemma capacity_monotone_witness :
  Resize 0 part_000 1 (St sample_vector sample_heap)
  = Ok tt (St (MkVec (MkArrayPtr (Ptr (Some 0%nat) 0)) 1 4) sample_heap).
Proof.
  destruct (capacity_monotone 0 part_000 sample_vector sample_heap)
    as (_ & _ & _ & _ & _ & Hshrink).
  apply (Hshrink 1); [compute_done | simpl; lia].
Defined.

(** C10, as stated, fails for copy assignment, a member operation that is
    neither [swap] nor a move: assigning the one-element vector to the
    vector of capacity 4 lowers its capacity to 1, in both drafts. *)
Lemma copy_assign_lowers_capacity :
  large_small_program (World ∅ ∅) = Ok tt large_small
  ∧ observe large_small 0%nat = Some (4, 4, [1; 2; 3; 4])
  ∧ (∀ d, ∃ w', copy_assign 0 d 0%nat 1%nat large_small = Ok tt w'
                ∧ observe w' 0%nat = Some (1, 1, [7]))
  ∧ ¬ (∀ d w' c c',
         copy_assign 0 d 0%nat 1%nat large_small = Ok tt w' →
         GetCapacity <$> vecs large_small !! 0%nat = Some c →
         GetCapacity <$> vecs w' !! 0%nat = Some c' →
         c ≤ c').
Proof.
  set (w' := World {[ 1%nat := [7]; 2%nat := [7] ]}
                   {[ 0%nat := MkVec (MkArrayPtr (Ptr (Some 2%nat) 0)) 1 1;
                      1%nat := MkVec (MkArrayPtr (Ptr (Some 1%nat) 0)) 1 1 ]}).
  assert (∀ d, copy_assign 0 d 0%nat 1%nat large_small = Ok tt w') as Hrun
    by (intros []; vm_compute; reflexivity).
  split; [vm_compute; reflexivity|]. split; [vm_compute; reflexivity|].
  split.
  - intros d. exists w'. split; [apply Hrun | vm_compute; reflexivity].
  - intros Hclaim.
    specialize (Hclaim part_000 w' 4 1 (Hrun part_000) eq_refl eq_refl). lia.
Qed.

(** C3, as the code has it.  Move assignment [a = std::move(b)] of two
    different [ArrayPtr] objects exchanges their pointers: [a] owns the
    allocation of [b], and [b] is left with the allocation [a] had, so [b]
    is empty afterwards exactly when [a] was empty before.  Move
    construction from [b] gives the new object the allocation of [b] and
    leaves [b] empty.  Self-move-assignment changes nothing.  None of them
    touches the free store. *)
Theorem ArrayPtr_move {T} (s : @astate T) (a b : nat) (pa pb : ArrayPtr) :
  objs s !! a = Some pa → objs s !! b = Some pb → a ≠ b →
  ArrayPtr_move_assign a b s
  = Ok tt (AState (<[b := pa]> (<[a := pb]> (objs s))) (amem s))
  ∧ (∀ s', ArrayPtr_move_assign a b s = Ok tt s' →
       objs s' !! a = Some pb ∧ objs s' !! b = Some pa
       ∧ (to_bool <$> objs s' !! b) = Some (to_bool pa)
       ∧ amem s' = amem s)
  ∧ (∀ c, objs s !! c = None →
       ArrayPtr_move_construct c b s
       = Ok tt (AState (<[c := pb]> (<[b := MkArrayPtr nullptr]> (objs s))) (amem s)))
  ∧ ArrayPtr_move_assign a a s = Ok tt s.
Proof.
  intros Ha Hb Hne.
  assert (ArrayPtr_move_assign a b s
          = Ok tt (AState (<[b := pa]> (<[a := pb]> (objs s))) (amem s))) as Hrun.
  { unfold ArrayPtr_move_assign, mbind, M_bind, aget. rewrite Ha, Hb.
    case_decide as Heq.
    - unfold mret, M_ret. destruct pa as [ra], pb as [rb]; simpl in *; subst.
      rewrite !insert_id by (done || by rewrite insert_id). by destruct s.
    - unfold ArrayPtr_swap, mbind, M_bind, aget, aset. rewrite Ha, Hb. simpl.
      by destruct pa, pb. }
  split; [done|]. split; [|split].
  - rewrite Hrun. intros s' [= <-]. simpl.
    rewrite lookup_insert_ne, !lookup_insert_eq by done. done.
  - intros c Hc.
    unfold ArrayPtr_move_construct, mbind, M_bind, aget, aset. rewrite Hb. simpl.
    by destruct pb.
  - unfold ArrayPtr_move_assign, mbind, M_bind, aget. rewrite Ha. simpl.
    rewrite Ha. by rewrite decide_True.
Qed.

Lemma ArrayPtr_move_witness :
  ArrayPtr_move_assign 0%nat 1%nat two_buffers
  = Ok tt (AState {[ 0%nat := MkArrayPtr (Ptr (Some 1%nat) 0);
                     1%nat := MkArrayPtr (Ptr (Some 0%nat) 0) ]}
                  (amem two_buffers)).
Proof.
  destruct (ArrayPtr_move two_buffers 0%nat 1%nat
              (MkArrayPtr (Ptr (Some 0%nat) 0)) (MkArrayPtr (Ptr (Some 1%nat) 0)))
    as [Hrun _]; [reflexivity | reflexivity | lia |].
  rewrite Hrun. vm_compute. reflexivity.
Defined.

(** C3, as stated, fails: after [a = std::move(b)] with both objects owning
    an array, [b] is not empty; it holds the array [a] had. *)
Lemma move_assign_source_not_empty :
  ∃ s', ArrayPtr_move_assign 0%nat 1%nat two_buffers = Ok tt s'
        ∧ objs s' !! 1%nat = Some (MkArrayPtr (Ptr (Some 0%nat) 0))
        ∧ objs s' !! 1%nat ≠ Some (MkArrayPtr nullptr)
        ∧ (to_bool <$> objs s' !! 1%nat) = Some true.
Proof.
  eexists. split; [vm_compute; reflexivity|].
  split; [vm_compute; reflexivity|]. split; [vm_compute; discriminate|].
  vm_compute; reflexivity.
Qed.

(** C4, as the code has it.  On every program of public operations that
    part_000 runs without a failed assertion or undefined behaviour, that
    has no move construction or move assignment, and whose copy
    assignments are onto the object itself or onto an object that does not
    compare equal to the source, part_001 returns the same values and
    leaves the same objects and the same free store, also when the program
    ends in an exception.  A copy assignment onto an object that compares
    equal to a different source is where they part: part_000 leaves the
    target as it is, part_001 gives it a copy with the capacity of the
    source. *)
Theorem drafts_agree {T} `{EqDecision T} (T_default : T) :
  (∀ (p : list (op T)) (w : @world T),
     all_comparable T_default p w →
     completed (run T_default part_000 p w) →
     run T_default part_001 p w = run T_default part_000 p w)
  ∧ (∀ (w : @world T) x y vx vy,
       separated w → x ≠ y → vecs w !! x = Some vx → vecs w !! y = Some vy →
       elements vx (heap_of w) = elements vy (heap_of w) →
       copy_assign T_default part_000 x y w = Ok tt w
       ∧ ∃ w', copy_assign T_default part_001 x y w = Ok tt w'
               ∧ observe w' x
                 = Some (size_ vy, capacity_ vy, elements vy (heap_of w))).
Proof.
  split.
  - intros p w. apply run_draft.
  - intros w x y vx vy Hsep Hne Hx Hy Heq.
    assert (wf vx (heap_of w)) as Hwfx by (by eapply (proj1 Hsep)).
    assert (wf vy (heap_of w)) as Hwfy by (by eapply (proj1 Hsep)).
    split.
    + rewrite (copy_assign_part_000 T_default x y w vx vy) by done.
      by rewrite decide_True.
    + rewrite copy_assign_part_001 by done.
      destruct (copy_and_swap_ok T_default x y w vx vy Hsep Hne Hx Hy)
        as (w' & Hrun & Hobs & _).
      by exists w'.
Qed.

Lemma drafts_agree_witness :
  run 0 part_001 agreeing_program (World ∅ ∅)
  = run 0 part_000 agreeing_program (World ∅ ∅).
Proof.
  apply (proj1 (drafts_agree 0) agreeing_program (World ∅ ∅)).
  - vm_compute. repeat split; right; reflexivity.
  - vm_compute. exact I.
Defined.

(** C4, as stated, fails: the program has no precondition to meet, and
    its last operation, [GetCapacity], returns 2 in part_000 and 4 in
    part_001. *)
Lemma drafts_differ :
  (∃ w, run 0 part_000 diverging_program (World ∅ ∅)
        = Ok [VUnit; VUnit; VUnit; VUnit; VUnit; VSize 2] w)
  ∧ (∃ w, run 0 part_001 diverging_program (World ∅ ∅)
          = Ok [VUnit; VUnit; VUnit; VUnit; VUnit; VSize 4] w)
  ∧ run 0 part_001 diverging_program (World ∅ ∅)
    ≠ run 0 part_000 diverging_program (World ∅ ∅).
Proof.
  split; [eexists; vm_compute; reflexivity|].
  split; [eexists; vm_compute; reflexivity|].
  vm_compute. discriminate.
Qed.

(** The move constructor of part_001 frees the array it takes over:
    [other.items_ = std::exchange(items_, other.items_)] copy-assigns the
    pointer of [other] to [items_], and the temporary that the exchange
    returns takes the same pointer from [other] in the move assignment and
    deletes it.  Reading the moved-to vector is then undefined; in part_000
    it yields the element. *)
Lemma move_constructor_part_001_dangles :
  (∃ w, run 0 part_000 moving_program (World ∅ ∅) = Ok [VUnit; VUnit; VElem 1] w)
  ∧ run 0 part_001 moving_program (World ∅ ∅) = Undefined
  ∧ ∃ w v, run 0 part_001 (take 2 moving_program) (World ∅ ∅) = Ok [VUnit; VUnit] w
           ∧ vecs w !! 1%nat = Some v
           ∧ items_ v = MkArrayPtr (Ptr (Some 0%nat) 0)
           ∧ heap_of w !! 0%nat = None.
Proof.
  split; [eexists; vm_compute; reflexivity|].
  split; [vm_compute; reflexivity|].
  eexists _, _. split; [vm_compute; reflexivity|].
  split; [vm_compute; reflexivity|]. split; vm_compute; reflexivity.
Qed.

(** ** More facts about the member functions *)

Section MoreMethodFacts.
Context {T : Type} `{EqDecision T}.
Variable T_default : T.
Implicit Types (h : gmap block (list T)) (l : list T) (b : block)
  (v : SimpleVector) (d : draft).

Lemma subscript_in_range d v h i :
  i < size_ v → subscript d i (St v h) = Ok (at_index (items_ v) i) (St v h).
Proof.
  intros Hi. unfold subscript, mbind, M_bind, gets, assert; simpl.
  destruct d; simpl; [|done]. by rewrite bool_decide_eq_true_2.
Qed.

Lemma subscript_out_of_range v h i :
  size_ v ≤ i → subscript part_000 i (St v h) = AssertFail.
Proof.
  intros Hi. unfold subscript, mbind, M_bind, gets, assert; simpl.
  by rewrite bool_decide_eq_false_2 by lia.
Qed.

Lemma read_element v h i x :
  wf v h → 0 ≤ i → buffer v h !! Z.to_nat i = Some x →
  on_heap (read (at_index (items_ v) i)) (St v h) = Ok x (St v h).
Proof.
  intros Hwf Hi Hx. unfold on_heap, read; simpl.
  by rewrite load_at_index, Hx.
Qed.

Lemma elements_lookup v h (i : nat) :
  (i < Z.to_nat (size_ v))%nat → elements v h !! i = buffer v h !! i.
Proof. intros Hi. unfold elements. by rewrite lookup_take_lt. Qed.

Lemma Clear_run v h :
  Clear (St v h) = Ok tt (St (MkVec (items_ v) 0 (capacity_ v)) h).
Proof. done. Qed.

Lemma elements_write v h (i : Z) x :
  wf v h → 0 ≤ i < size_ v →
  elements v (set_buffer v h (<[Z.to_nat i := x]> (buffer v h)))
  = <[Z.to_nat i := x]> (elements v h).
Proof.
  intros Hwf Hi. pose proof (wf_bounds _ _ Hwf).
  unfold elements at 1.
  rewrite buffer_set_buffer_same by (done || by rewrite length_insert).
  unfold elements. rewrite take_insert_lt by lia. done.
Qed.

Lemma Erase_at_end_run d v h :
  wf v h → 0 < size_ v →
  Erase d (end_ v) (St v h)
  = Ok (end_ v) (St (MkVec (items_ v) (size_ v - 1) (capacity_ v)) h).
Proof.
  intros Hwf Hpos. pose proof (wf_bounds _ _ Hwf) as Hb.
  pose proof max_alloc_lt as Hm.
  change (end_ v) with (ptr_add (begin_ v) (size_ v)).
  assert (Erase d (ptr_add (begin_ v) (size_ v)) (St v h)
          = Erase part_001 (ptr_add (begin_ v) (size_ v)) (St v h)) as ->.
  { destruct d; [|done]. unfold Erase.
    unfold mbind at 1, M_bind at 1. rewrite position_asserts by lia. done. }
  unfold Erase. unfold mbind at 1 2, M_bind at 1 2, mret at 1, M_ret at 1, gets; cbn [this mem].
  assert (ptr_diff (ptr_add (begin_ v) (size_ v)) (begin_ v) = Some (size_ v)) as ->.
  { unfold ptr_diff, begin_, ptr_add; simpl. rewrite decide_True by done.
    f_equal. lia. }
  unfold mbind at 1 2, M_bind at 1 2; cbn [this mem].
  unfold ptr_lt.
  assert (ptr_diff (ptr_add (begin_ v) (size_ v)) (ptr_add (end_ v) (-1)) = Some 1) as ->.
  { unfold ptr_diff, begin_, end_, ptr_add; simpl. rewrite decide_True by done.
    f_equal. lia. }
  unfold mret at 1, M_ret at 1.
  rewrite bool_decide_eq_false_2 by lia.
  unfold mbind, M_bind, mret, M_ret, gets, set_size; cbn [this mem].
  by rewrite wrap_small by lia.
Qed.

End MoreMethodFacts.

(** ** More facts about programs with several vectors *)

Section MoreWorldFacts.
Context {T : Type} `{EqDecision T}.
Implicit Types (w : @world T) (h : gmap block (list T)) (v : SimpleVector)
  (x y : nat).

Lemma observe_insert_eq h (m : gmap nat SimpleVector) x v :
  observe (World h (<[x := v]> m)) x = Some (size_ v, capacity_ v, elements v h).
Proof. unfold observe; simpl. by rewrite lookup_insert_eq. Qed.

Lemma observe_insert_ne h (m : gmap nat SimpleVector) x z v :
  z ≠ x → observe (World h (<[x := v]> m)) z = observe (World h m) z.
Proof. intros Hne. unfold observe; simpl. by rewrite lookup_insert_ne. Qed.

Lemma observe_lookup w x v :
  vecs w !! x = Some v →
  observe w x = Some (size_ v, capacity_ v, elements v (heap_of w)).
Proof. intros Hx. unfold observe. by rewrite Hx. Qed.

(** Exchanging two objects of a separated program. *)
Lemma separated_exchange w x y vx vy :
  x ≠ y → vecs w !! x = Some vx → vecs w !! y = Some vy →
  separated w →
  separated (World (heap_of w) (<[y := vx]> (<[x := vy]> (vecs w)))).
Proof.
  intros Hne Hx Hy [Hwf Hsep].
  set (σ := λ z : nat, if decide (z = x) then y else if decide (z = y) then x else z).
  assert (∀ z, (<[y := vx]> (<[x := vy]> (vecs w))) !! z = vecs w !! σ z) as Hσ.
  { intros z. unfold σ. destruct (decide (z = x)), (decide (z = y));
      by simplify_map_eq. }
  assert (∀ z1 z2, z1 ≠ z2 → σ z1 ≠ σ z2) as Hinj.
  { intros z1 z2. unfold σ. repeat case_decide; congruence. }
  split; simpl.
  - intros z v. rewrite Hσ. apply Hwf.
  - intros z1 z2 v1 v2 b Hz. rewrite !Hσ. intros H1 H2.
    by apply (Hsep (σ z1) (σ z2)); [apply Hinj|..].
Qed.

End MoreWorldFacts.

(** ** Facts about the comparison operators *)

Section OrderingFacts.
Context {T : Type} `{EqDecision T}.
Variable T_less : T → T → bool.
Implicit Types (w : @world T) (h : gmap block (list T)) (v : SimpleVector)
  (xs ys : list T).

Lemma read_n_S_inv k p h xs :
  read_n (S k) p h = Ok xs h →
  ∃ x xs', read p h = Ok x h ∧ read_n k (ptr_add p 1) h = Ok xs' h ∧ xs = x :: xs'.
Proof.
  simpl. unfold mbind, M_bind, read.
  destruct (load h p) as [x|]; [|done].
  destruct (read_n k (ptr_add p 1) h) as [xs' h'| | |] eqn:E; try done.
  unfold mret, M_ret. intros [= <- <-]. by exists x, xs'.
Qed.

Lemma lexicographical_compare_n_lists n1 : ∀ n2 p1 p2 h xs ys,
  read_n n1 p1 h = Ok xs h → read_n n2 p2 h = Ok ys h →
  lexicographical_compare_n T_less n1 n2 p1 p2 h = Ok (lex_less T_less xs ys) h.
Proof.
  induction n1 as [|k1 IH]; intros [|k2] p1 p2 h xs ys H1 H2.
  - injection H1 as <-. injection H2 as <-. done.
  - injection H1 as <-.
    apply read_n_S_inv in H2 as (y & ys' & _ & _ & ->). done.
  - injection H2 as <-.
    apply read_n_S_inv in H1 as (x & xs' & _ & _ & ->). done.
  - apply read_n_S_inv in H1 as (x & xs' & Hx & H1 & ->).
    apply read_n_S_inv in H2 as (y & ys' & Hy & H2 & ->).
    simpl. unfold mbind, M_bind. rewrite Hx, Hy.
    destruct (T_less x y); [done|]. destruct (T_less y x); [done|].
    by apply IH.
Qed.

Lemma read_n_elements v h :
  wf v h → read_n (Z.to_nat (size_ v)) (begin_ v) h = Ok (elements v h) h.
Proof.
  intros Hwf. pose proof (wf_bounds _ _ Hwf) as Hb.
  destruct (wf_cases v h Hwf)
    as [(Hv & Hc & Hs & Hbuf)|(b & l0 & Hv & Hh & Hbuf & Hlen & Hpos)].
  - unfold elements. rewrite Hs, Hbuf. done.
  - unfold elements, begin_, Get. rewrite Hv, Hbuf; simpl.
    rewrite (read_n_block _ h b l0 0) by (done || simpl; lia).
    by rewrite drop_0.
Qed.

Lemma std_lexicographical_compare_elements v1 v2 h :
  wf v1 h → wf v2 h →
  std_lexicographical_compare T_less (begin_ v1) (end_ v1) (begin_ v2) (end_ v2) h
  = Ok (lex_less T_less (elements v1 h) (elements v2 h)) h.
Proof.
  intros Hwf1 Hwf2.
  pose proof (wf_bounds _ _ Hwf1) as Hb1. pose proof (wf_bounds _ _ Hwf2) as Hb2.
  unfold std_lexicographical_compare, ptr_diff, begin_, end_, ptr_add; simpl.
  rewrite !decide_True by done.
  replace (offset (Get (items_ v1)) + size_ v1 - offset (Get (items_ v1)))
    with (size_ v1) by lia.
  replace (offset (Get (items_ v2)) + size_ v2 - offset (Get (items_ v2)))
    with (size_ v2) by lia.
  rewrite decide_True by lia.
  fold (begin_ v1). fold (begin_ v2).
  apply lexicographical_compare_n_lists; by apply read_n_elements.
Qed.

Lemma less_elements x y w vx vy :
  vecs w !! x = Some vx → vecs w !! y = Some vy →
  wf vx (heap_of w) → wf vy (heap_of w) →
  less T_less x y w
  = Ok (lex_less T_less (elements vx (heap_of w)) (elements vy (heap_of w))) w.
Proof.
  intros Hx Hy Hwfx Hwfy. unfold less. rewrite Hx, Hy.
  rewrite std_lexicographical_compare_elements by done. by destruct w.
Qed.

(** On a strict total order of the elements, exactly one of [xs < ys],
    [xs = ys], [ys < xs] holds. *)
Lemma lex_less_trichotomy xs :
  (∀ a b, T_less a b = true → T_less b a = false) →
  (∀ a b, T_less a b = false → T_less b a = false → a = b) →
  ∀ ys,
    (lex_less T_less xs ys = true ∧ xs ≠ ys ∧ lex_less T_less ys xs = false)
    ∨ (lex_less T_less xs ys = false ∧ xs = ys ∧ lex_less T_less ys xs = false)
    ∨ (lex_less T_less xs ys = false ∧ xs ≠ ys ∧ lex_less T_less ys xs = true).
Proof.
  intros Hasym Htotal.
  induction xs as [|a xs IH]; intros [|b ys]; simpl.
  - right; left. done.
  - left. done.
  - right; right. done.
  - destruct (T_less a b) eqn:E1, (T_less b a) eqn:E2.
    + rewrite (Hasym _ _ E1) in E2. done.
    + left. split; [done|]. split; [|done].
      intros [= -> _]. rewrite E1 in E2. done.
    + right; right. split; [done|]. split; [|done].
      intros [= -> _]. rewrite E1 in E2. done.
    + assert (a = b) as -> by (by apply Htotal).
      destruct (IH ys) as [(? & ? & ?)|[(? & ? & ?)|(? & ? & ?)]].
      * left. split; [done|]. split; [congruence|done].
      * right; left. split; [done|]. split; [congruence|done].
      * right; right. split; [done|]. split; [congruence|done].
Qed.

End OrderingFacts.

(** ** Facts about [ArrayPtr] objects *)

Section ObjectFacts.
Context {T : Type} `{EqDecision T}.
Implicit Types (s : @astate T) (a b c : nat) (pa pb : ArrayPtr)
  (h : gmap block (list T)).

Lemma aget_run s a pa : objs s !! a = Some pa → aget a s = Ok pa s.
Proof. intros Ha. unfold aget. by rewrite Ha. Qed.

Lemma ArrayPtr_eta pa : MkArrayPtr (raw_ptr_ pa) = pa.
Proof. by destruct pa. Qed.

Lemma ArrayPtr_swap_run s a b pa pb :
  objs s !! a = Some pa → objs s !! b = Some pb →
  ArrayPtr_swap a b s = Ok tt (AState (<[b := pa]> (<[a := pb]> (objs s))) (amem s)).
Proof.
  intros Ha Hb. unfold ArrayPtr_swap, mbind, M_bind.
  rewrite (aget_run s a pa), (aget_run s b pb) by done.
  unfold aset; simpl. by rewrite !ArrayPtr_eta.
Qed.

Lemma ArrayPtr_move_construct_run s c b pb :
  objs s !! b = Some pb →
  ArrayPtr_move_construct c b s
  = Ok tt (AState (<[c := pb]> (<[b := MkArrayPtr nullptr]> (objs s))) (amem s)).
Proof.
  intros Hb. unfold ArrayPtr_move_construct, mbind, M_bind.
  rewrite (aget_run s b pb) by done. unfold aset; simpl. by rewrite ArrayPtr_eta.
Qed.

(** Whether the guard returns or the pointers are swapped, the two
    objects hold each other's pointer afterwards. *)
Lemma ArrayPtr_move_assign_run s a b pa pb :
  objs s !! a = Some pa → objs s !! b = Some pb →
  ArrayPtr_move_assign a b s
  = Ok tt (AState (<[b := pa]> (<[a := pb]> (objs s))) (amem s)).
Proof.
  intros Ha Hb. unfold ArrayPtr_move_assign, mbind, M_bind.
  rewrite (aget_run s a pa), (aget_run s b pb) by done.
  case_decide as Heq.
  - unfold mret, M_ret. destruct pa as [ra], pb as [rb]; simpl in *; subst.
    rewrite (insert_id (objs s) a) by done. rewrite insert_id by done.
    by destruct s.
  - by apply ArrayPtr_swap_run.
Qed.

Lemma ArrayPtr_end_null s a :
  objs s !! a = Some (MkArrayPtr nullptr) →
  ArrayPtr_end a s = Ok tt (AState (delete a (objs s)) (amem s)).
Proof. intros Ha. unfold ArrayPtr_end. by rewrite Ha. Qed.

Lemma ArrayPtr_end_block s a b :
  objs s !! a = Some (MkArrayPtr (Ptr (Some b) 0)) → is_Some (amem s !! b) →
  ArrayPtr_end a s = Ok tt (AState (delete a (objs s)) (delete b (amem s))).
Proof.
  intros Ha Hb. unfold ArrayPtr_end, ArrayPtr_destroy, delete_array.
  rewrite Ha; simpl. by rewrite decide_True.
Qed.

Lemma ArrayPtr_Release_run s a pa :
  objs s !! a = Some pa →
  ArrayPtr_Release a s
  = Ok (raw_ptr_ pa) (AState (<[a := MkArrayPtr nullptr]> (objs s)) (amem s)).
Proof.
  intros Ha. unfold ArrayPtr_Release, mbind, M_bind.
  by rewrite (aget_run s a pa).
Qed.

(** [std::swap] built from the move constructor and the move assignment
    of [ArrayPtr] exchanges the two pointers and frees nothing. *)
Lemma std_swap_ArrayPtr_run s tmp a b pa pb :
  objs s !! a = Some pa → objs s !! b = Some pb → objs s !! tmp = None → a ≠ b →
  std_swap_ArrayPtr tmp a b s
  = Ok tt (AState (<[b := pa]> (<[a := pb]> (objs s))) (amem s)).
Proof.
  intros Ha Hb Htmp Hne.
  assert (tmp ≠ a) as Hta by congruence. assert (tmp ≠ b) as Htb by congruence.
  unfold std_swap_ArrayPtr, mbind, M_bind.
  rewrite (ArrayPtr_move_construct_run s tmp a pa) by done.
  rewrite (ArrayPtr_move_assign_run _ a b (MkArrayPtr nullptr) pb); simpl;
    [|by rewrite lookup_insert_ne, lookup_insert_eq
     |by rewrite !lookup_insert_ne by done].
  rewrite (ArrayPtr_move_assign_run _ b tmp (MkArrayPtr nullptr) pa); simpl;
    [|by rewrite lookup_insert_eq
     |by rewrite !lookup_insert_ne, lookup_insert_eq by done].
  rewrite ArrayPtr_end_null; simpl; [|by rewrite lookup_insert_eq].
  do 2 f_equal. apply map_eq. intros k.
  destruct (decide (k = tmp)), (decide (k = a)), (decide (k = b));
    by simplify_map_eq.
Qed.

End ObjectFacts.

(** ** Facts about the moves of vectors *)

Section MoveFacts.
Context {T : Type} `{EqDecision T}.
Implicit Types (w : @world T) (h : gmap block (list T)) (v : SimpleVector)
  (x y : nat) (d : draft).

(** The exchanges of [capacity_] and [size_] that both move constructors
    start with, on a new object [x], followed by the statements [k]. *)
Lemma move_fields {A} (k : M (@world T) A) x y w vy :
  vecs w !! x = None → vecs w !! y = Some vy →
  (construct x (mret tt);;
   tmp ← call x (gets capacity_);
   o ← call y (gets capacity_);
   call x (set_capacity o);;
   call y (set_capacity tmp);;
   tmp ← call x (gets size_);
   o ← call y (gets size_);
   call x (set_size o);;
   call y (set_size tmp);;
   k) w
  = k (World (heap_of w)
         (<[y := MkVec (items_ vy) 0 0]>
            (<[x := MkVec (MkArrayPtr nullptr) (size_ vy) (capacity_ vy)]> (vecs w)))).
Proof.
  intros Hx Hy. assert (x ≠ y) as Hne by congruence.
  unfold mbind, M_bind.
  unfold construct at 1. rewrite Hx; simpl.
  do 8 (unfold call at 1; simpl;
        repeat (rewrite lookup_insert_eq || rewrite lookup_insert_ne by done);
        rewrite ?Hy; simpl).
  do 2 f_equal. apply map_eq. intros k0.
  destruct (decide (k0 = x)), (decide (k0 = y)); by simplify_map_eq.
Qed.

Lemma ArrayPtr_copy_assign_run (s : @astate T) a b pb :
  objs s !! b = Some pb →
  ArrayPtr_copy_assign a b s = Ok tt (AState (<[a := pb]> (objs s)) (amem s)).
Proof.
  intros Hb. unfold ArrayPtr_copy_assign, mbind, M_bind.
  by rewrite (aget_run s b pb).
Qed.

(** The move constructor of part_000 hands the whole state over and
    leaves the source empty; the free store is not involved. *)
Lemma move_construct_part_000_run x y w vy :
  vecs w !! x = None → vecs w !! y = Some vy →
  move_construct part_000 x y w
  = Ok tt (World (heap_of w) (<[y := empty_vector]> (<[x := vy]> (vecs w)))).
Proof.
  intros Hx Hy. assert (x ≠ y) as Hne by congruence.
  unfold move_construct.
  rewrite (move_fields _ x y w vy Hx Hy).
  unfold on_items; simpl.
  rewrite lookup_insert_ne, !lookup_insert_eq by done; simpl.
  rewrite (std_swap_ArrayPtr_run _ 2%nat 0%nat 1%nat (MkArrayPtr nullptr) (items_ vy))
    by done.
  simpl. rewrite lookup_insert_ne, !lookup_insert_eq by done.
  do 2 f_equal. rewrite vec_eta. apply map_eq. intros k.
  destruct (decide (k = x)), (decide (k = y)); by simplify_map_eq.
Qed.

(** The move constructor of part_001: the temporary returned by
    [std::exchange] takes the array from [other.items_] and deletes it
    when the statement ends. *)
Lemma move_construct_part_001_run x y w vy b :
  vecs w !! x = None → vecs w !! y = Some vy →
  items_ vy = MkArrayPtr (Ptr (Some b) 0) → is_Some (heap_of w !! b) →
  move_construct part_001 x y w
  = Ok tt (World (delete b (heap_of w)) (<[y := empty_vector]> (<[x := vy]> (vecs w)))).
Proof.
  intros Hx Hy Hit Hb. assert (x ≠ y) as Hne by congruence.
  unfold move_construct.
  rewrite (move_fields _ x y w vy Hx Hy).
  unfold on_items; simpl.
  rewrite lookup_insert_ne, !lookup_insert_eq by done; simpl.
  unfold std_exchange_ArrayPtr, mbind, M_bind.
  rewrite (ArrayPtr_move_construct_run _ 2%nat 0%nat (MkArrayPtr nullptr)) by done.
  rewrite (ArrayPtr_copy_assign_run _ 0%nat 1%nat (items_ vy)) by done.
  rewrite (ArrayPtr_move_assign_run _ 1%nat 2%nat (items_ vy) (MkArrayPtr nullptr))
    by done.
  rewrite (ArrayPtr_end_block _ 2%nat b); simpl; [|by rewrite Hit|done].
  rewrite lookup_delete_ne, lookup_insert_ne, lookup_insert_ne by done.
  rewrite lookup_insert_eq.
  rewrite lookup_delete_ne, lookup_insert_ne, lookup_insert_eq by done.
  do 2 f_equal. rewrite vec_eta. apply map_eq. intros k.
  destruct (decide (k = x)), (decide (k = y)); by simplify_map_eq.
Qed.

Lemma move_construct_part_001_null x y w vy :
  vecs w !! x = None → vecs w !! y = Some vy →
  items_ vy = MkArrayPtr nullptr →
  move_construct part_001 x y w
  = Ok tt (World (heap_of w) (<[y := empty_vector]> (<[x := vy]> (vecs w)))).
Proof.
  intros Hx Hy Hit. assert (x ≠ y) as Hne by congruence.
  destruct vy as [it sz cp]; simpl in Hit; subst it.
  unfold move_construct.
  rewrite (move_fields _ x y w _ Hx Hy).
  unfold on_items; simpl.
  rewrite lookup_insert_ne, !lookup_insert_eq by done; simpl.
  unfold std_exchange_ArrayPtr, mbind, M_bind.
  rewrite (ArrayPtr_move_construct_run _ 2%nat 0%nat (MkArrayPtr nullptr)) by done.
  rewrite (ArrayPtr_copy_assign_run _ 0%nat 1%nat (MkArrayPtr nullptr)) by done.
  rewrite (ArrayPtr_move_assign_run _ 1%nat 2%nat (MkArrayPtr nullptr)
             (MkArrayPtr nullptr)) by done.
  rewrite ArrayPtr_end_null; simpl; [|done].
  rewrite lookup_delete_ne, lookup_insert_ne, lookup_insert_ne by done.
  rewrite lookup_insert_eq.
  rewrite lookup_delete_ne, lookup_insert_ne, lookup_insert_eq by done.
  do 2 f_equal. apply map_eq. intros k.
  destruct (decide (k = x)), (decide (k = y)); by simplify_map_eq.
Qed.

Lemma ArrayPtr_destroy_wf v h :
  wf v h → ArrayPtr_destroy (items_ v) h = Ok tt (released v h).
Proof.
  intros Hwf. unfold released, ArrayPtr_destroy, delete_array.
  destruct (wf_cases v h Hwf) as [(Hv & _)|(b & l & Hv & Hb & _)];
    rewrite Hv; simpl; [done|].
  by rewrite decide_True by (by rewrite Hb).
Qed.

Lemma released_other v h b0 :
  base (Get (items_ v)) ≠ Some b0 → released v h !! b0 = h !! b0.
Proof.
  intros Hne. unfold released. destruct (base (Get (items_ v))) as [b|]; [|done].
  apply lookup_delete_ne. congruence.
Qed.

Lemma released_own v h b0 :
  base (Get (items_ v)) = Some b0 → released v h !! b0 = None.
Proof. intros Hb. unfold released. rewrite Hb. apply lookup_delete_eq. Qed.

Lemma move_assign_part_000_run x y w vx vy :
  x ≠ y → vecs w !! x = Some vx → vecs w !! y = Some vy → wf vx (heap_of w) →
  move_assign part_000 x y w
  = Ok tt (World (released vx (heap_of w))
             (<[y := empty_vector]> (<[x := vy]> (vecs w)))).
Proof.
  intros Hne Hx Hy Hwf. unfold move_assign. rewrite decide_False by done.
  set (temp := fresh (dom (vecs w))).
  assert (vecs w !! temp = None) as Htemp by (apply not_elem_of_dom, is_fresh).
  assert (temp ≠ x) as Htx by congruence. assert (temp ≠ y) as Hty by congruence.
  unfold mbind, M_bind.
  rewrite (move_construct_part_000_run temp y w vy) by done.
  rewrite (swap_distinct x temp _ vx vy); simpl;
    [|done|by rewrite !lookup_insert_ne by done
     |by rewrite lookup_insert_ne, lookup_insert_eq by done].
  unfold destroy; simpl. rewrite lookup_insert_eq.
  rewrite ArrayPtr_destroy_wf by done.
  do 2 f_equal. apply map_eq. intros k.
  destruct (decide (k = x)), (decide (k = y)), (decide (k = temp));
    by simplify_map_eq.
Qed.

(** A program stays separated when an object hands its array to a new
    or emptied object. *)
Lemma separated_handover w x y vy h' :
  separated w → x ≠ y → vecs w !! y = Some vy →
  (∀ z vz, z ≠ x → vecs w !! z = Some vz → wf vz h') →
  separated (World h' (<[y := empty_vector]> (<[x := vy]> (vecs w)))).
Proof.
  intros [Hwf Hsep] Hne Hy Hwf'. split; simpl.
  - intros z v Hz.
    destruct (decide (z = y)) as [->|Hzy]; [|destruct (decide (z = x)) as [->|Hzx]];
      simplify_map_eq; [apply wf_empty_vector|by eapply Hwf'|by eapply Hwf'].
  - intros z1 z2 v1 v2 b Hz H1 H2 Hb.
    destruct (decide (z1 = y)) as [->|Hz1y]; [by simplify_map_eq|].
    destruct (decide (z2 = y)) as [->|Hz2y]; [by simplify_map_eq|].
    destruct (decide (z1 = x)) as [->|Hz1x]; simplify_map_eq.
    + by apply (Hsep y z2 v1 v2 b).
    + destruct (decide (z2 = x)) as [->|Hz2x]; simplify_map_eq.
      * by apply (Hsep z1 y v1 v2 b).
      * by apply (Hsep z1 z2 v1 v2 b).
Qed.

Lemma move_assign_part_001_run x y w vx vy b :
  x ≠ y → vecs w !! x = Some vx → vecs w !! y = Some vy →
  items_ vy = MkArrayPtr (Ptr (Some b) 0) → is_Some (heap_of w !! b) →
  wf vx (heap_of w) → base (Get (items_ vx)) ≠ Some b →
  move_assign part_001 x y w
  = Ok tt (World (released vx (delete b (heap_of w)))
             (<[y := empty_vector]> (<[x := vy]> (vecs w)))).
Proof.
  intros Hne Hx Hy Hit Hb Hwf Hdiff. unfold move_assign. rewrite decide_False by done.
  set (temp := fresh (dom (vecs w))).
  assert (vecs w !! temp = None) as Htemp by (apply not_elem_of_dom, is_fresh).
  assert (temp ≠ x) as Htx by congruence. assert (temp ≠ y) as Hty by congruence.
  unfold mbind, M_bind.
  rewrite (move_construct_part_001_run temp y w vy b) by done.
  rewrite (swap_distinct x temp _ vx vy); simpl;
    [|done|by rewrite !lookup_insert_ne by done
     |by rewrite lookup_insert_ne, lookup_insert_eq by done].
  unfold destroy; simpl. rewrite lookup_insert_eq.
  rewrite ArrayPtr_destroy_wf.
  - do 2 f_equal. apply map_eq. intros k.
    destruct (decide (k = x)), (decide (k = y)), (decide (k = temp));
      by simplify_map_eq.
  - apply (wf_agree vx (heap_of w)); [|done].
    intros b0 Hb0. apply lookup_delete_ne. congruence.
Qed.

End MoveFacts.

(** ** Growth by repeated [PushBack] *)

Section GrowthFacts.
Context {T : Type} `{EqDecision T}.
Variable T_default : T.
Implicit Types (h : gmap block (list T)) (v : SimpleVector) (d : draft).

Lemma log2_up_room a :
  1 ≤ a → a < 2 ^ Z.log2_up a → Z.log2_up (a + 1) = Z.log2_up a.
Proof.
  intros Ha Hlt. destruct (decide (a = 1)) as [->|Hne].
  { rewrite Z.log2_up_1 in Hlt. simpl in Hlt. lia. }
  pose proof (Z.log2_up_spec a ltac:(lia)) as [Hlo Hhi].
  pose proof (Z.log2_up_nonneg a) as Hk.
  apply Z.log2_up_unique; [|lia].
  destruct (decide (Z.log2_up a = 0)) as [E|]; [|lia].
  rewrite E in Hlt. simpl in Hlt. lia.
Qed.

Lemma log2_up_full a :
  1 ≤ a → a = 2 ^ Z.log2_up a → Z.log2_up (a + 1) = Z.log2_up a + 1.
Proof.
  intros Ha He. pose proof (Z.log2_up_nonneg a) as Hk.
  apply Z.log2_up_unique; [lia|].
  replace (Z.pred (Z.log2_up a + 1)) with (Z.log2_up a) by lia.
  rewrite Z.pow_add_r by lia. change (2 ^ 1) with 2.
  set (k := Z.log2_up a) in *. lia.
Qed.

Lemma doubled_PushBack d v h (item : ref T) (x : T) :
  wf v h → doubled v → size_ v + 1 ≤ 2 ^ 62 →
  value_of h item = Some x → (size_ v = capacity_ v → ¬ inside v item) →
  ∃ v' h',
    PushBack T_default d item (St v h) = Ok tt (St v' h')
    ∧ wf v' h' ∧ elements v' h' = elements v h ++ [x]
    ∧ size_ v' = size_ v + 1 ∧ doubled v'.
Proof.
  intros Hwf Hd Hbound Hval Hout. pose proof (wf_bounds _ _ Hwf) as Hb.
  assert (size_ v = capacity_ v →
          grown (size_ v + 1) (capacity_ v) = (if decide (capacity_ v = 0) then 1
                                               else capacity_ v * 2)) as Hgrown.
  { intros Hfull. unfold grown. case_decide; lia. }
  destruct (PushBack_ok T_default d v h item x Hwf)
    as (v' & h' & Hrun & Hsz & Hcap & Hwf' & Hels & _); [|done|done|].
  { intros Hfull. rewrite (Hgrown Hfull). unfold max_alloc. case_decide; lia. }
  exists v', h'. split; [done|]. split; [done|]. split; [done|]. split; [done|].
  right. split; [lia|]. rewrite Hsz, Hcap.
  destruct Hd as [[Hs Hc]|[Hpos Hc]].
  - rewrite decide_True by lia. rewrite Hgrown by lia.
    rewrite decide_True by done. rewrite Hs. reflexivity.
  - case_decide as Hfull.
    + rewrite (Hgrown Hfull), decide_False by lia.
      rewrite log2_up_full by lia.
      rewrite Z.pow_add_r by (pose proof (Z.log2_up_nonneg (size_ v)); lia).
      change (2 ^ 1) with 2. lia.
    + rewrite log2_up_room by lia. done.
Qed.

Lemma push_all_doubled d xs : ∀ v h,
  wf v h → doubled v → size_ v + Z.of_nat (length xs) ≤ 2 ^ 62 →
  ∃ v' h',
    push_all T_default d xs (St v h) = Ok tt (St v' h')
    ∧ wf v' h' ∧ elements v' h' = elements v h ++ xs
    ∧ size_ v' = size_ v + Z.of_nat (length xs) ∧ doubled v'.
Proof.
  induction xs as [|x xs IH]; intros v h Hwf Hd Hbound.
  - exists v, h. simpl. rewrite app_nil_r, Z.add_0_r. done.
  - destruct (doubled_PushBack d v h (Outside x) x Hwf Hd)
      as (v1 & h1 & Hrun & Hwf1 & Hels1 & Hsz1 & Hd1);
      [simpl length in Hbound; lia|done|by intros _ []|].
    destruct (IH v1 h1 Hwf1 Hd1) as (v' & h' & Hrun' & Hwf' & Hels' & Hsz' & Hd');
      [simpl length in Hbound; lia|].
    exists v', h'. simpl push_all. unfold mbind, M_bind. rewrite Hrun.
    split; [done|]. split; [done|].
    split; [by rewrite Hels', Hels1, <- app_assoc|].
    split; [simpl length; lia|done].
Qed.

End GrowthFacts.

(** ** Ownership of the array across calls *)

Section Ownership.
Context {T : Type} `{EqDecision T}.
Variable T_default : T.
Implicit Types (s : @state T) (h : gmap block (list T)) (v : SimpleVector)
  (d : draft).

Lemma copy_n_no_throw n : ∀ first d_first h e h',
  copy_n n first d_first h ≠ Throw e h'.
Proof.
  induction n as [|n IH]; intros f q h e h'; simpl; [done|].
  unfold mbind, M_bind, read, write.
  destruct (load h f); [|done]. destruct (store h q _); [|done]. apply IH.
Qed.

Lemma std_copy_no_throw first last d_first h e h' :
  std_copy first last d_first h ≠ Throw e h'.
Proof.
  unfold std_copy, mbind, M_bind, mret, M_ret.
  destruct (ptr_diff _ _); [|done]. case_decide; [|done].
  destruct (copy_n _ _ _ _) eqn:En; try done.
  by apply copy_n_no_throw in En.
Qed.

Lemma delete_array_own p h h' b0 :
  delete_array p h = Ok tt h' → base p = Some b0 → h' !! b0 = None.
Proof.
  unfold delete_array. intros Hdel Hb. rewrite Hb in Hdel.
  case_decide; [|done]. injection Hdel as <-. apply lookup_delete_eq.
Qed.

Lemma own_only_refl s : own_only s s.
Proof.
  split; [done|]. split; [|by left].
  intros b0 Hnot. by rewrite decide_False.
Qed.

Lemma own_only_trans s1 s2 s3 : own_only s1 s2 → own_only s2 s3 → own_only s1 s3.
Proof.
  intros (Ht12 & Ho12 & Hn12) (Ht23 & Ho23 & Hn23).
  split; [tauto|]. split.
  - intros b0 Hnot3. rewrite (Ho23 b0 Hnot3).
    case_decide as Hown2.
    + case_decide as Hown1; [done|].
      destruct (Hn12 b0 Hown2) as [?|Hnone]; [done|by rewrite Hnone].
    + by apply Ho12.
  - intros b0 Hown3.
    destruct (Hn23 b0 Hown3) as [Hown2|Hnone]; [by apply Hn12|].
    destruct (decide (base (Get (items_ (this s2))) = Some b0)) as [Hown2|Hnot2];
      [by apply Hn12|].
    rewrite (Ho12 b0 Hnot2) in Hnone.
    case_decide; [by left|by right].
Qed.

Lemma own_only_local s s' :
  items_ (this s') = items_ (this s) →
  capacity_ (this s') = capacity_ (this s) →
  only (base (Get (items_ (this s)))) (mem s) (mem s') →
  own_only s s'.
Proof.
  intros Hit _ [Hother Hkeep]. unfold own_only, owned, tidy, live.
  rewrite Hit. split; [|split].
  - intros [Hoff Hlive]. split; [done|].
    destruct (base (Get (items_ (this s)))); [by apply Hkeep|done].
  - intros b0 Hnot. rewrite decide_False by done. by apply Hother.
  - intros b0 Hown. by left.
Qed.

Lemma reallocate_own_only c s : respects own_only (reallocate T_default c) s.
Proof.
  destruct s as [v h]. unfold respects, reallocate, mbind, M_bind, on_heap; simpl.
  pose proof (ArrayPtr_new_cases T_default c h) as Hnew.
  destruct (ArrayPtr_new T_default c h) as [a h1|e h1| |]; simpl; try done;
    [|destruct Hnew as [_ ->]; apply own_only_refl].
  pose proof (std_copy_only (begin_ v) (end_ v) (Get a) h1) as Hcopy.
  unfold std_move. unfold respects in Hcopy.
  destruct (std_copy (begin_ v) (end_ v) (Get a) h1) as [p h2|e h2| |] eqn:Ecopy;
    simpl in *; try done.
  2:{ by apply std_copy_no_throw in Ecopy. }
  destruct Hcopy as [Hcopy Hkeep].
  pose proof (delete_array_other (raw_ptr_ (items_ v)) h2) as Hdel.
  unfold ArrayPtr_destroy in *.
  destruct (delete_array (raw_ptr_ (items_ v)) h2) as [[] h3|e h3| |] eqn:Edel;
    simpl in *; try done.
  2:{ unfold delete_array in Edel. repeat case_match; done. }
  unfold own_only, owned, tidy, live, Get; simpl. split; [|split].
  - intros [Hoff Hlive].
    destruct Hnew as [[-> ->]|(b & -> & Hb & ->)]; simpl in *; [done|].
    split; [done|]. rewrite Hdel.
    + apply Hkeep. by rewrite lookup_insert_eq.
    + destruct (base (raw_ptr_ (items_ v))) as [b1|]; [|done].
      intros [= ->]. rewrite Hb in Hlive. by destruct Hlive.
  - intros b0 Hnot. case_decide as Hown.
    + by apply (delete_array_own _ _ _ _ Edel).
    + rewrite Hdel by done.
      destruct Hnew as [[-> ->]|(b & -> & Hb & ->)]; simpl in *.
      * by apply Hcopy.
      * rewrite Hcopy by done. apply lookup_insert_ne. congruence.
  - intros b0 Hown.
    destruct Hnew as [[-> ->]|(b & -> & Hb & ->)]; simpl in *; [done|].
    right. congruence.
Qed.

Lemma invoke_all_own_only d cs s : respects own_only (invoke_all T_default d cs) s.
Proof.
  apply (respects_invoke_all T_default own_only own_only_refl own_only_trans
           own_only_local (λ c s _, reallocate_own_only c s)).
Qed.

Lemma ArrayPtr_destroy_tidy s :
  tidy s →
  ArrayPtr_destroy (items_ (this s)) (mem s) = Ok tt (released (this s) (mem s)).
Proof.
  intros [Hoff Hlive]. unfold released, ArrayPtr_destroy, delete_array, live, Get in *.
  destruct (raw_ptr_ (items_ (this s))) as [[b|] o]; simpl in *; subst o.
  - by rewrite decide_True.
  - done.
Qed.

Lemma released_own_only s s' :
  own_only s s' → released (this s') (mem s') = released (this s) (mem s).
Proof.
  intros (_ & Hother & Hnew). apply map_eq. intros b0.
  assert (released (this s) (mem s) !! b0
          = if decide (base (Get (items_ (this s))) = Some b0)
            then None else mem s !! b0) as ->.
  { case_decide; [by apply released_own|by apply released_other]. }
  destruct (decide (base (Get (items_ (this s'))) = Some b0)) as [Hown|Hnot].
  - rewrite released_own by done.
    destruct (Hnew b0 Hown) as [Hown0|Hnone].
    + by rewrite decide_True.
    + case_decide; done.
  - rewrite released_other by done. by apply Hother.
Qed.

End Ownership.

(** ** Reference arguments that designate the vector's own elements *)

Section Aliasing.
Context {T : Type} `{EqDecision T}.
Variable T_default : T.
Implicit Types (s : @state T) (h : gmap block (list T)) (v : SimpleVector)
  (d : draft) (item : ref T).

(** When the vector is full, [ResizeCurrentVector] moves the elements to a
    new array and deletes the one the vector held. *)
Lemma ResizeCurrentVector_deletes d v h :
  wf v h → size_ v = capacity_ v →
  grown (size_ v + 1) (capacity_ v) ≤ max_alloc →
  ∃ v1 h1,
    ResizeCurrentVector T_default d (St v h) = Ok tt (St v1 h1)
    ∧ wf v1 h1 ∧ size_ v1 = size_ v + 1
    ∧ ∀ p, base p = base (Get (items_ v)) →
           load h1 p = None ∧ base p ≠ base (Get (items_ v1)).
Proof.
  intros Hwf Hfull Hmax.
  destruct (ResizeCurrentVector_ok T_default d v h Hwf)
    as (v1 & h1 & Hrun & Hsz & _ & Hwf1 & _ & _ & _ & Hrel); [done|].
  specialize (Hrel Hfull). destruct Hrel as (b' & Hit' & Hnone).
  exists v1, h1. split; [done|]. split; [done|]. split; [done|].
  intros p Hp. unfold load. rewrite Hp. unfold Get at 2. rewrite Hit'. simpl.
  destruct (wf_cases v h Hwf) as [(Hv & _)|(b & l0 & Hv & Hh & _)];
    unfold Get; rewrite Hv; simpl; [done|].
  assert (b ≠ b') as Hne by (intros ->; congruence).
  split; [|congruence].
  pose proof (respects_ResizeCurrentVector T_default own_only own_only_refl
                own_only_trans own_only_local
                (λ c s _, reallocate_own_only T_default c s) d (St v h)) as Hown.
  unfold respects in Hown. rewrite Hrun in Hown. simpl in Hown.
  destruct Hown as (_ & Hother & _).
  specialize (Hother b). cbn [this mem] in Hother.
  rewrite Hother.
  - unfold Get. rewrite Hv. simpl. by rewrite decide_True.
  - unfold owned, Get. simpl. rewrite Hit'. simpl. congruence.
Qed.

(** [PushBack] on a full vector with a reference into its own array reads
    the reference after the array has been deleted. *)
Lemma PushBack_inside_full d v h item :
  wf v h → size_ v = capacity_ v →
  grown (size_ v + 1) (capacity_ v) ≤ max_alloc →
  inside v item →
  PushBack T_default d item (St v h) = Undefined.
Proof.
  intros Hwf Hfull Hmax Hin.
  destruct (ResizeCurrentVector_deletes d v h Hwf Hfull Hmax)
    as (v1 & h1 & Hrun & _ & _ & Hgone).
  destruct item as [y|p]; simpl in Hin; [done|].
  destruct (Hgone p Hin) as [Hload _].
  unfold PushBack, mbind, M_bind. rewrite Hrun. unfold gets; cbn [this mem].
  unfold on_heap at 1; cbn [this mem deref]. unfold read. by rewrite Hload.
Qed.

(** So does [Insert], at every position. *)
Lemma Insert_inside_full d v h (i : Z) item :
  wf v h → 0 ≤ i ≤ size_ v → size_ v = capacity_ v →
  grown (size_ v + 1) (capacity_ v) ≤ max_alloc →
  inside v item →
  Insert T_default d (ptr_add (begin_ v) i) item (St v h) = Undefined.
Proof.
  intros Hwf Hi Hfull Hmax Hin. pose proof (wf_bounds _ _ Hwf) as Hb.
  unfold Insert, mbind at 1, M_bind at 1, gets; cbn [this mem].
  destruct (decide (i = size_ v)) as [->|Hne].
  - rewrite decide_True by done. unfold mbind, M_bind.
    by rewrite PushBack_inside_full.
  - rewrite decide_False.
    2:{ unfold cend, begin_, ptr_add. intros [= ?]. lia. }
    unfold mbind, M_bind; cbn [this mem].
    assert (ptr_diff (ptr_add (begin_ v) i) (Get (items_ v)) = Some i) as ->.
    { unfold ptr_diff, begin_, ptr_add; simpl. rewrite decide_True by done.
      f_equal. lia. }
    destruct (ResizeCurrentVector_deletes d v h Hwf Hfull Hmax)
      as (v1 & h1 & Hrun & Hwf1 & Hsz & Hgone).
    destruct item as [y|p]; simpl in Hin; [done|].
    destruct (Hgone p Hin) as [Hload Hother].
    rewrite Hrun. cbn [this mem].
    rewrite shift_right_in_place by (done || lia). cbn [this mem].
    unfold on_heap at 1; cbn [this mem deref]. unfold read.
    assert (load (set_buffer v1 h1
              (take (S (Z.to_nat i)) (buffer v1 h1)
               ++ take (Z.to_nat (size_ v1 - 1 - i)) (drop (Z.to_nat i) (buffer v1 h1))
               ++ drop (Z.to_nat (size_ v1)) (buffer v1 h1))) p = None) as ->; [|done].
    unfold set_buffer. destruct (base (Get (items_ v1))) as [b'|] eqn:Hb'; [|done].
    unfold load in *. destruct (base p) as [b|]; simpl in *; [|done].
    rewrite lookup_insert_ne by congruence. done.
Qed.

(** [Insert] at the end is [PushBack]. *)
Lemma Insert_at_end d v h item x :
  wf v h →
  (size_ v = capacity_ v → grown (size_ v + 1) (capacity_ v) ≤ max_alloc) →
  value_of h item = Some x →
  (size_ v = capacity_ v → ¬ inside v item) →
  ∃ v' h',
    Insert T_default d (ptr_add (begin_ v) (size_ v)) item (St v h)
    = Ok (ptr_add (begin_ v') (size_ v)) (St v' h')
    ∧ size_ v' = size_ v + 1
    ∧ capacity_ v' = (if decide (size_ v = capacity_ v)
                      then grown (size_ v + 1) (capacity_ v) else capacity_ v)
    ∧ wf v' h'
    ∧ elements v' h' = elements v h ++ [x]
    ∧ (size_ v < capacity_ v → items_ v' = items_ v).
Proof.
  intros Hwf Hmax Hval Hout.
  unfold Insert, mbind at 1, M_bind at 1, gets; cbn [this mem].
  rewrite decide_True by done.
  destruct (PushBack_ok T_default d v h item x Hwf Hmax Hval Hout)
    as (v' & h' & Hrun & Hsz & Hcap & Hwf' & Hels & _ & Hsame & _).
  unfold mbind, M_bind. rewrite Hrun. cbn [this mem].
  exists v', h'. split.
  { unfold mret, M_ret. f_equal. unfold end_, begin_, ptr_add; simpl.
    f_equal. lia. }
  done.
Qed.

(** The array after [Insert] has shifted the elements from [i] on, seen
    through a place of the array: below [i] and at [i] it holds what it
    held, above [i] what the place before it held. *)
Lemma shifted_lookup (l : list T) (i n j : nat) :
  (i < n)%nat → (n ≤ length l)%nat → (j < n)%nat →
  (take (S i) l ++ take (n - 1 - i) (drop i l) ++ drop n l) !! j
  = l !! (if decide (j ≤ i)%nat then j else j - 1)%nat.
Proof.
  intros Hi Hn Hj. case_decide as Hle.
  - rewrite lookup_app_l by (rewrite length_take; lia).
    by rewrite lookup_take_lt by lia.
  - rewrite lookup_app_r by (rewrite length_take; lia).
    rewrite length_take.
    rewrite lookup_app_l by (rewrite length_take, length_drop; lia).
    rewrite lookup_take_lt by lia. rewrite lookup_drop. f_equal. lia.
Qed.

(** [Insert] with room, given a reference to the vector's element [j]:
    the value stored at position [i] is the element [j] if [j <= i], and
    the element [j - 1] otherwise. *)
Lemma Insert_own_room d v h (i j : Z) y :
  wf v h → size_ v < capacity_ v → 0 ≤ i ≤ size_ v → 0 ≤ j < size_ v →
  elements v h !! Z.to_nat (if decide (j ≤ i) then j else j - 1) = Some y →
  ∃ v' h',
    Insert T_default d (ptr_add (begin_ v) i) (Place (at_index (items_ v) j)) (St v h)
    = Ok (ptr_add (begin_ v') i) (St v' h')
    ∧ size_ v' = size_ v + 1
    ∧ capacity_ v' = capacity_ v
    ∧ wf v' h'
    ∧ elements v' h' = take (Z.to_nat i) (elements v h)
                       ++ y :: drop (Z.to_nat i) (elements v h)
    ∧ items_ v' = items_ v.
Proof.
  intros Hwf Hroom Hi Hj Hy. pose proof (wf_bounds _ _ Hwf) as Hb.
  pose proof (elements_length _ _ Hwf) as Hel.
  pose proof (buffer_length _ _ Hwf) as Hlen.
  destruct (decide (i = size_ v)) as [->|Hne].
  - rewrite decide_True in Hy by lia.
    destruct (Insert_at_end d v h (Place (at_index (items_ v) j)) y Hwf)
      as (v' & h' & Hrun & Hsz & Hcap & Hwf' & Hels & Hsame); [lia| |lia|].
    { simpl. rewrite load_at_index by (done || lia).
      rewrite <- Hy. symmetry. apply elements_lookup. lia. }
    exists v', h'. rewrite decide_False in Hcap by lia.
    split; [done|]. split; [done|]. split; [done|]. split; [done|].
    split; [|apply Hsame; lia].
    rewrite Hels, take_ge, drop_ge by lia. done.
  - destruct (Insert_middle T_default d v h i (Place (at_index (items_ v) j)) y Hwf)
      as (v' & h' & Hrun & Hsz & Hcap & Hwf' & Hels & _ & Hsame & _); [lia|lia| |].
    { intros v1 h1 Hrun1.
      destruct (ResizeCurrentVector_ok T_default d v h Hwf)
        as (v2 & h2 & Hrun & Hsz & _ & Hwf2 & _ & _ & Hsame & _); [lia|].
      rewrite Hrun in Hrun1. injection Hrun1 as <- <-.
      destruct Hsame as [Hit ->]; [lia|].
      assert (buffer v2 h = buffer v h) as Hbuf by (unfold buffer; by rewrite Hit).
      rewrite Hbuf, <- Hit.
      set (l1 := take _ _ ++ _).
      assert (length l1 = length (buffer v2 h)) as Hl1.
      { unfold l1. rewrite Hbuf, !length_app, !length_take, !length_drop. lia. }
      change (load (set_buffer v2 h l1) (at_index (items_ v2) j) = Some y).
      rewrite load_at_index by (by apply wf_set_buffer_same || lia).
      rewrite buffer_set_buffer_same by done.
      unfold l1. rewrite Hsz.
      replace (Z.to_nat (size_ v + 1 - 1 - i))
        with (Z.to_nat (size_ v + 1) - 1 - Z.to_nat i)%nat by lia.
      rewrite shifted_lookup by lia.
      rewrite <- Hy. rewrite elements_lookup by (case_decide; lia).
      f_equal. repeat case_decide; lia. }
    exists v', h'. rewrite decide_False in Hcap by lia.
    split; [done|]. split; [done|]. split; [done|]. split; [done|].
    split; [done|]. apply Hsame. lia.
Qed.

(** [Insert] is defined for every readable reference when there is room,
    and for every readable reference that does not point into the
    vector's own array when there is none. *)
Lemma Insert_defined d v h (i : Z) item :
  wf v h → 0 ≤ i ≤ size_ v →
  (size_ v = capacity_ v → grown (size_ v + 1) (capacity_ v) ≤ max_alloc) →
  is_Some (value_of h item) →
  (size_ v = capacity_ v → ¬ inside v item) →
  ∃ v' h',
    Insert T_default d (ptr_add (begin_ v) i) item (St v h)
    = Ok (ptr_add (begin_ v') i) (St v' h')
    ∧ wf v' h'
    ∧ size_ v' = size_ v + 1
    ∧ capacity_ v' = (if decide (size_ v = capacity_ v)
                      then grown (size_ v + 1) (capacity_ v) else capacity_ v)
    ∧ (size_ v < capacity_ v → items_ v' = items_ v).
Proof.
  intros Hwf Hi Hmax [x Hval] Hout. pose proof (wf_bounds _ _ Hwf) as Hb.
  pose proof (buffer_length _ _ Hwf) as Hlen.
  destruct (decide (i = size_ v)) as [->|Hne].
  { destruct (Insert_at_end d v h item x Hwf Hmax Hval Hout)
      as (v' & h' & Hrun & Hsz & Hcap & Hwf' & _ & Hsame).
    by exists v', h'. }
  assert (∃ y, ∀ v1 h1,
            ResizeCurrentVector T_default d (St v h) = Ok tt (St v1 h1) →
            value_of
              (set_buffer v1 h1
                 (take (S (Z.to_nat i)) (buffer v1 h1)
                  ++ take (Z.to_nat (size_ v1 - 1 - i)) (drop (Z.to_nat i) (buffer v1 h1))
                  ++ drop (Z.to_nat (size_ v1)) (buffer v1 h1))) item = Some y)
    as [y Hread].
  { destruct (ResizeCurrentVector_ok T_default d v h Hwf Hmax)
      as (v2 & h2 & Hrun & Hsz & _ & Hwf2 & _ & Hfr & Hsame & Hrel).
    pose proof (buffer_length _ _ Hwf2) as Hlen2.
    pose proof (wf_bounds _ _ Hwf2) as Hb2.
    set (l1 := take (S (Z.to_nat i)) (buffer v2 h2)
               ++ take (Z.to_nat (size_ v2 - 1 - i)) (drop (Z.to_nat i) (buffer v2 h2))
               ++ drop (Z.to_nat (size_ v2)) (buffer v2 h2)).
    assert (length l1 = length (buffer v2 h2)) as Hl1.
    { unfold l1. rewrite !length_app, !length_take, !length_drop. lia. }
    assert (is_Some (value_of (set_buffer v2 h2 l1) item)) as [y Hy].
    { destruct (decide (size_ v = capacity_ v)) as [Hfull|Hroom].
      - exists x. apply value_of_set_buffer;
          [by apply (value_of_frame v h v2 h2); [|apply Hout|]|].
        by apply (relocated_outside h v2 item x); [|apply Hrel].
      - destruct Hsame as [Hit ->]; [lia|].
        destruct item as [z|p]; simpl in *; [by eexists|].
        destruct (wf_cases v2 h Hwf2)
          as [(Hv & Hc & _)|(b & l0 & Hv & Hh & Hbuf & Hlen0 & Hpos)]; [lia|].
        unfold set_buffer, Get. rewrite Hv. simpl.
        unfold load in *. destruct (base p) as [b0|]; simpl in *; [|done].
        destruct (decide (b0 = b)) as [->|Hnb].
        + rewrite lookup_insert_eq. simpl. rewrite Hh in Hval. simpl in Hval.
          case_decide; [|done]. apply lookup_lt_is_Some_2.
          rewrite Hl1, Hbuf. by apply lookup_lt_Some in Hval.
        + rewrite lookup_insert_ne by done. by rewrite Hval. }
    exists y. intros v1 h1 Hrun1. rewrite Hrun in Hrun1.
    by injection Hrun1 as <- <-. }
  destruct (Insert_middle T_default d v h i item y Hwf)
    as (v' & h' & Hrun & Hsz & Hcap & Hwf' & _ & _ & Hsame & _); [lia|done|done|].
  by exists v', h'.
Qed.

End Aliasing.

(** * Further properties of the code *)

(** ** The constructors *)

(** X1. [SimpleVector(n)], part_000:38-41 with [ArrayPtr(size_t)],
    array_ptr.h:13-21.  For a count the free store can serve, the new
    vector satisfies the class invariant, has size and capacity [n] and
    [n] value-initialised elements, and the arrays that existed are as
    they were.  For [n = 0] nothing is allocated.  A larger count leaves
    with [bad_alloc] and an unchanged free store. *)
Theorem sized_constructor {T} `{EqDecision T} (T_default : T) (n : Z)
    (h : gmap block (list T)) :
  0 ≤ n →
  (n ≤ max_alloc →
     ∃ v' h',
       ctor_size T_default n (St empty_vector h) = Ok tt (St v' h')
       ∧ wf v' h' ∧ size_ v' = n ∧ capacity_ v' = n
       ∧ elements v' h' = replicate (Z.to_nat n) T_default
       ∧ (∀ b, is_Some (h !! b) → h' !! b = h !! b))
  ∧ (n = 0 → ctor_size T_default n (St empty_vector h) = Ok tt (St empty_vector h))
  ∧ (max_alloc < n →
     ctor_size T_default n (St empty_vector h) = Throw bad_alloc (St empty_vector h)).
Proof.
  intros Hn. split; [|split].
  - intros Hmax. by apply ctor_size_ok.
  - by intros ->.
  - intros Hmax. unfold ctor_size, mbind, M_bind, on_heap; simpl.
    by rewrite ArrayPtr_new_throw.
Qed.

Lemma sized_constructor_witness :
  ∃ v' h',
    ctor_size 0 3 (St empty_vector (∅ : gmap block (list Z))) = Ok tt (St v' h')
    ∧ capacity_ v' = 3 ∧ elements v' h' = [0; 0; 0].
Proof.
  destruct (sized_constructor 0 3 (∅ : gmap block (list Z))) as [Hok _]; [lia|].
  destruct Hok as (v' & h' & Hrun & _ & _ & Hcap & Hels & _);
    [vm_compute; discriminate|].
  exists v', h'. split; [exact Hrun|]. split; [exact Hcap | exact Hels].
Defined.

(** X2. [SimpleVector(n, value)], part_000:43-51: size and capacity [n],
    every element equal to [value]; for [n = 0] the constructor returns
    before [std::fill] and nothing is allocated; a count the free store
    cannot serve leaves with [bad_alloc]. *)
Theorem filling_constructor {T} `{EqDecision T} (T_default : T) (n : Z) (value : T)
    (h : gmap block (list T)) :
  0 ≤ n →
  (n ≤ max_alloc →
     ∃ v' h',
       ctor_fill T_default n value (St empty_vector h) = Ok tt (St v' h')
       ∧ wf v' h' ∧ size_ v' = n ∧ capacity_ v' = n
       ∧ elements v' h' = replicate (Z.to_nat n) value
       ∧ (∀ i, 0 ≤ i < n → elements v' h' !! Z.to_nat i = Some value)
       ∧ (∀ b, is_Some (h !! b) → h' !! b = h !! b))
  ∧ (n = 0 →
     ctor_fill T_default n value (St empty_vector h) = Ok tt (St empty_vector h))
  ∧ (max_alloc < n →
     ctor_fill T_default n value (St empty_vector h)
     = Throw bad_alloc (St empty_vector h)).
Proof.
  intros Hn. split; [|split].
  - intros Hmax.
    destruct (ctor_fill_ok T_default n value h) as (v' & h' & Hrun & Hwf & Hsz & Hcap & Hels & Hfr);
      [done|].
    exists v', h'. split; [done|]. split; [done|]. split; [done|].
    split; [done|]. split; [done|]. split; [|done].
    intros i Hi. rewrite Hels. apply lookup_replicate_2. lia.
  - by intros ->.
  - intros Hmax. unfold ctor_fill, mbind, M_bind, on_heap; simpl.
    by rewrite ArrayPtr_new_throw.
Qed.

Lemma filling_constructor_witness :
  ∃ v' h',
    ctor_fill 0 2 7 (St empty_vector (∅ : gmap block (list Z))) = Ok tt (St v' h')
    ∧ elements v' h' = [7; 7].
Proof.
  destruct (filling_constructor 0 2 7 (∅ : gmap block (list Z))) as [Hok _]; [lia|].
  destruct Hok as (v' & h' & Hrun & _ & _ & _ & Hels & _);
    [vm_compute; discriminate|].
  exists v', h'. split; [exact Hrun | exact Hels].
Defined.

(** X3. [SimpleVector(std::initializer_list)], part_000:53-57: the
    elements are those of the list in order, and size and capacity are its
    length; the empty list allocates nothing. *)
Theorem list_constructor {T} `{EqDecision T} (T_default : T) (init : list T)
    (h : gmap block (list T)) :
  (Z.of_nat (length init) ≤ max_alloc →
     ∃ v' h',
       ctor_init T_default init (St empty_vector h) = Ok tt (St v' h')
       ∧ wf v' h' ∧ size_ v' = Z.of_nat (length init)
       ∧ capacity_ v' = Z.of_nat (length init)
       ∧ elements v' h' = init
       ∧ (∀ b, is_Some (h !! b) → h' !! b = h !! b))
  ∧ (init = [] →
     ctor_init T_default init (St empty_vector h) = Ok tt (St empty_vector h))
  ∧ (max_alloc < Z.of_nat (length init) →
     ctor_init T_default init (St empty_vector h)
     = Throw bad_alloc (St empty_vector h)).
Proof.
  split; [|split].
  - intros Hmax. by apply ctor_init_ok.
  - by intros ->.
  - intros Hmax. unfold ctor_init, mbind, M_bind, on_heap; simpl.
    by rewrite ArrayPtr_new_throw.
Qed.

Lemma list_constructor_witness :
  ∃ v' h',
    ctor_init 0 [4; 5; 6] (St empty_vector (∅ : gmap block (list Z))) = Ok tt (St v' h')
    ∧ capacity_ v' = 3 ∧ elements v' h' = [4; 5; 6].
Proof.
  destruct (proj1 (list_constructor 0 [4; 5; 6] (∅ : gmap block (list Z))))
    as (v' & h' & Hrun & _ & _ & Hcap & Hels & _); [vm_compute; discriminate|].
  exists v', h'. split; [exact Hrun|]. split; [exact Hcap | exact Hels].
Defined.

(** X4. [SimpleVector v(Reserve(n))]: the free function [Reserve],
    part_000:335-338, wraps [n] in a [ReserveProxyObj], and the
    constructor part_000:94-97 reserves that capacity: the vector is
    empty with capacity exactly [n].  A default-constructed proxy carries
    0 and gives the empty vector without an allocation. *)
Theorem reserving_constructor {T} `{EqDecision T} (T_default : T) (n : Z)
    (h : gmap block (list T)) :
  0 ≤ n →
  ReserveProxyObj_GetCapacity (Reserve_proxy n) = n
  ∧ (n ≤ max_alloc →
     ∃ v' h',
       ctor_proxy T_default (Reserve_proxy n) (St empty_vector h) = Ok tt (St v' h')
       ∧ wf v' h' ∧ size_ v' = 0 ∧ capacity_ v' = n ∧ elements v' h' = []
       ∧ IsEmpty v' = true
       ∧ (∀ b, is_Some (h !! b) → h' !! b = h !! b))
  ∧ (max_alloc < n →
     ctor_proxy T_default (Reserve_proxy n) (St empty_vector h)
     = Throw bad_alloc (St empty_vector h))
  ∧ ctor_proxy T_default ReserveProxyObj_default (St empty_vector h)
    = Ok tt (St empty_vector h).
Proof.
  intros Hn. split; [done|]. split; [|split].
  - intros Hmax.
    destruct (ctor_reserve_ok T_default n h) as (v' & h' & Hrun & Hwf & Hsz & Hcap & Hels & Hfr);
      [done|].
    exists v', h'. split; [exact Hrun|]. split; [done|]. split; [done|].
    split; [done|]. split; [done|]. split; [|done].
    unfold IsEmpty. by rewrite Hsz.
  - intros Hmax. unfold ctor_proxy, Reserve_proxy, ReserveProxyObj_GetCapacity; simpl.
    apply Reserve_throw; [|done]. simpl. unfold max_alloc in Hmax. lia.
  - unfold ctor_proxy. by apply Reserve_noop.
Qed.

Lemma reserving_constructor_witness :
  ∃ v' h',
    ctor_proxy 0 (Reserve_proxy 5) (St empty_vector (∅ : gmap block (list Z)))
    = Ok tt (St v' h')
    ∧ size_ v' = 0 ∧ capacity_ v' = 5.
Proof.
  destruct (reserving_constructor 0 5 (∅ : gmap block (list Z))) as (_ & Hok & _); [lia|].
  destruct Hok as (v' & h' & Hrun & _ & Hsz & Hcap & _); [vm_compute; discriminate|].
  exists v', h'. split; [exact Hrun|]. split; [exact Hsz | exact Hcap].
Defined.

(** ** Operations on one vector, composed *)

(** X5. [Resize] without reallocation, part_000:225-232: growing to a size
    within the capacity appends value-initialised elements in the same
    array, and shrinking to [n] and then growing back to [m] (both within
    the capacity) keeps the first [n] elements and fills the rest with
    [Type{}]: the elements cut off do not come back.  Capacity and array
    are the same throughout. *)
Theorem Resize_in_place {T} `{EqDecision T} (T_default : T) (d : draft)
    (v : SimpleVector) (h : gmap block (list T)) (n m : Z) :
  wf v h → 0 ≤ n ≤ size_ v → n ≤ m ≤ capacity_ v →
  (size_ v < m →
     ∃ h', Resize T_default d m (St v h)
           = Ok tt (St (MkVec (items_ v) m (capacity_ v)) h')
           ∧ elements (MkVec (items_ v) m (capacity_ v)) h'
             = elements v h ++ replicate (Z.to_nat (m - size_ v)) T_default)
  ∧ ∃ h',
      (Resize T_default d n;; Resize T_default d m) (St v h)
      = Ok tt (St (MkVec (items_ v) m (capacity_ v)) h')
      ∧ wf (MkVec (items_ v) m (capacity_ v)) h'
      ∧ elements (MkVec (items_ v) m (capacity_ v)) h'
        = take (Z.to_nat n) (elements v h) ++ replicate (Z.to_nat (m - n)) T_default
      ∧ frame v h (MkVec (items_ v) m (capacity_ v)) h'.
Proof.
  intros Hwf Hn Hm. split.
  - intros Hgrow.
    destruct (Resize_within_elements T_default d v h m Hwf)
      as (h' & Hrun & _ & Hels & _); [lia|].
    by exists h'.
  - unfold mbind, M_bind. rewrite Resize_shrink by (done || lia).
    set (v1 := MkVec (items_ v) n (capacity_ v)).
    assert (wf v1 h) as Hwf1 by (apply wf_set_size; [done|lia]).
    assert (elements v1 h = take (Z.to_nat n) (elements v h)) as Hels1
      by (apply elements_set_size; [done|lia]).
    destruct (decide (n < m)) as [Hlt|Hge].
    + destruct (Resize_within_elements T_default d v1 h m Hwf1)
        as (h' & Hrun & Hwf' & Hels & Hfr); [simpl; lia|].
      simpl in Hrun, Hwf', Hels, Hfr.
      exists h'. split; [done|]. split; [done|].
      split; [by rewrite Hels, Hels1|]. exact Hfr.
    + assert (m = n) as -> by lia.
      rewrite Resize_shrink by (done || simpl; lia). simpl.
      exists h. split; [done|]. split; [done|].
      split; [|apply frame_refl].
      fold v1. rewrite Hels1, Z.sub_diag. simpl. by rewrite app_nil_r.
Qed.

Lemma Resize_in_place_witness :
  ∃ h', (Resize 0 part_000 1;; Resize 0 part_000 3) (St sample_vector sample_heap)
        = Ok tt (St sample_vector h')
        ∧ elements sample_vector h' = [1; 0; 0].
Proof.
  destruct (Resize_in_place 0 part_000 sample_vector sample_heap 1 3)
    as [_ (h' & Hrun & _ & Hels & _)];
    [compute_done | simpl; lia | simpl; lia |].
  exists h'. split; [exact Hrun | exact Hels].
Defined.

(** X6. [Clear], part_000:247-250, empties the vector and keeps the
    capacity and the array; pushing up to [capacity] elements afterwards
    stores them in that same array without an allocation, and arrays of
    other owners are not touched. *)
Theorem Clear_keeps_buffer {T} `{EqDecision T} (T_default : T) (d : draft)
    (v : SimpleVector) (h : gmap block (list T)) (xs : list T) :
  wf v h → Z.of_nat (length xs) ≤ capacity_ v →
  Clear (St v h) = Ok tt (St (MkVec (items_ v) 0 (capacity_ v)) h)
  ∧ wf (MkVec (items_ v) 0 (capacity_ v)) h
  ∧ elements (MkVec (items_ v) 0 (capacity_ v)) h = []
  ∧ ∃ h',
      (Clear;; push_all T_default d xs) (St v h)
      = Ok tt (St (MkVec (items_ v) (Z.of_nat (length xs)) (capacity_ v)) h')
      ∧ wf (MkVec (items_ v) (Z.of_nat (length xs)) (capacity_ v)) h'
      ∧ elements (MkVec (items_ v) (Z.of_nat (length xs)) (capacity_ v)) h' = xs
      ∧ frame v h (MkVec (items_ v) (Z.of_nat (length xs)) (capacity_ v)) h'.
Proof.
  intros Hwf Hlen. pose proof (wf_bounds _ _ Hwf) as Hb.
  set (v0 := MkVec (items_ v) 0 (capacity_ v)).
  assert (wf v0 h) as Hwf0 by (apply wf_set_size; [done|lia]).
  split; [done|]. split; [done|]. split; [done|].
  destruct (push_all_room T_default d xs v0 h Hwf0) as (h' & Hrun & Hwf' & Hels & Hfr);
    [simpl; lia|].
  simpl in Hrun, Hwf', Hels, Hfr.
  exists h'. unfold mbind, M_bind. rewrite Clear_run. fold v0.
  split; [done|]. split; [done|]. split; [done|]. exact Hfr.
Qed.

Lemma Clear_keeps_buffer_witness :
  ∃ h', (Clear;; push_all 0 part_000 [8; 9]) (St sample_vector sample_heap)
        = Ok tt (St (MkVec (MkArrayPtr (Ptr (Some 0%nat) 0)) 2 4) h')
        ∧ elements (MkVec (MkArrayPtr (Ptr (Some 0%nat) 0)) 2 4) h' = [8; 9].
Proof.
  destruct (Clear_keeps_buffer 0 part_000 sample_vector sample_heap [8; 9])
    as (_ & _ & _ & h' & Hrun & _ & Hels & _); [compute_done | simpl; lia |].
  exists h'. split; [exact Hrun | exact Hels].
Defined.

(** X7. [PushBack], part_000:106-116, followed by [PopBack],
    part_000:118-122.  The argument of [PushBack] is a reference; it is
    read after [ResizeCurrentVector].  Let it refer to a readable object
    holding [x], and, when the vector is full (so that the call
    reallocates), not to an element of the vector's own array.  Then after
    the push [x] is the last element ([At(old size)] returns it), and the
    pop gives back the size and the element sequence the vector had; the
    capacity is not smaller than before. *)
Theorem PushBack_then_PopBack {T} `{EqDecision T} (T_default : T) (d : draft)
    (v : SimpleVector) (h : gmap block (list T)) (item : ref T) (x : T) :
  wf v h →
  (size_ v = capacity_ v → grown (size_ v + 1) (capacity_ v) ≤ max_alloc) →
  value_of h item = Some x →
  (size_ v = capacity_ v → ¬ inside v item) →
  ∃ v1 h1,
    PushBack T_default d item (St v h) = Ok tt (St v1 h1)
    ∧ invoke T_default d (CallAt (size_ v)) (St v1 h1) = Ok (VElem x) (St v1 h1)
    ∧ PopBack d (St v1 h1)
      = Ok tt (St (MkVec (items_ v1) (size_ v) (capacity_ v1)) h1)
    ∧ wf (MkVec (items_ v1) (size_ v) (capacity_ v1)) h1
    ∧ elements (MkVec (items_ v1) (size_ v) (capacity_ v1)) h1 = elements v h
    ∧ capacity_ v ≤ capacity_ v1.
Proof.
  intros Hwf Hmax Hval Hout. pose proof (wf_bounds _ _ Hwf) as Hb.
  pose proof max_alloc_lt as Hm.
  pose proof (elements_length _ _ Hwf) as Hlen.
  destruct (PushBack_ok T_default d v h item x Hwf Hmax Hval Hout)
    as (v1 & h1 & Hrun & Hsz & Hcap & Hwf1 & Hels & _).
  pose proof (wf_bounds _ _ Hwf1) as Hb1.
  exists v1, h1. split; [done|].
  assert (elements v1 h1 !! Z.to_nat (size_ v) = Some x) as Hx.
  { rewrite Hels, <- Hlen. apply list_lookup_middle. done. }
  split; [|split; [|split; [|split]]].
  - unfold invoke, mbind, M_bind. rewrite At_in_range by lia.
    rewrite (read_element v1 h1 (size_ v) x); [done|done|lia|].
    rewrite <- Hx. symmetry. apply elements_lookup. lia.
  - rewrite PopBack_ok by lia. do 3 f_equal. lia.
  - apply wf_set_size; [done|lia].
  - rewrite elements_set_size by (done || lia).
    rewrite Hels, <- Hlen. apply take_app_length.
  - rewrite Hcap. case_decide; [|lia]. unfold grown. lia.
Qed.

Lemma PushBack_then_PopBack_witness :
  ∃ v1 h1,
    PushBack 0 part_000 (Place (Ptr (Some 0%nat) 1)) (St sample_vector sample_heap)
    = Ok tt (St v1 h1)
    ∧ invoke 0 part_000 (CallAt 3) (St v1 h1) = Ok (VElem 2) (St v1 h1)
    ∧ elements (MkVec (items_ v1) 3 (capacity_ v1)) h1 = [1; 2; 3].
Proof.
  destruct (PushBack_then_PopBack 0 part_000 sample_vector sample_heap
              (Place (Ptr (Some 0%nat) 1)) 2)
    as (v1 & h1 & Hrun & Hat & _ & _ & Hels & _);
    [compute_done | simpl; lia | reflexivity | simpl; lia |].
  exists v1, h1. split; [exact Hrun|]. split; [exact Hat | exact Hels].
Defined.

(** X8. [Erase(Insert(pos, value))], part_000:124-168.  The argument of
    [Insert] is a reference, read after the elements behind [pos] have
    been shifted.  Let it refer to a readable object holding [x] that is
    not an element of the vector's own array.  Then erasing at the
    iterator that [Insert] returned removes the inserted element again;
    the size and the element sequence are those before the insertion, and
    [Erase] returns that same iterator. *)
Theorem Erase_undoes_Insert {T} `{EqDecision T} (T_default : T) (d : draft)
    (v : SimpleVector) (h : gmap block (list T)) (i : Z) (value : ref T) (x : T) :
  wf v h → 0 ≤ i ≤ size_ v →
  (size_ v = capacity_ v → grown (size_ v + 1) (capacity_ v) ≤ max_alloc) →
  value_of h value = Some x → ¬ inside v value →
  ∃ it v1 h1 h',
    Insert T_default d (ptr_add (begin_ v) i) value (St v h) = Ok it (St v1 h1)
    ∧ elements v1 h1 !! Z.to_nat i = Some x
    ∧ Erase d it (St v1 h1)
      = Ok it (St (MkVec (items_ v1) (size_ v) (capacity_ v1)) h')
    ∧ wf (MkVec (items_ v1) (size_ v) (capacity_ v1)) h'
    ∧ elements (MkVec (items_ v1) (size_ v) (capacity_ v1)) h' = elements v h.
Proof.
  intros Hwf Hi Hmax Hval Hout. pose proof (elements_length _ _ Hwf) as Hlen.
  pose proof (wf_bounds _ _ Hwf) as Hb.
  destruct (Insert_ok T_default d v h i value x Hwf Hi Hmax Hval Hout)
    as (v1 & h1 & Hrun & Hsz & _ & Hwf1 & Hels & _).
  destruct (Erase_ok d v1 h1 i Hwf1) as (h' & Hrun' & Hwf' & Hels' & _); [lia|].
  simpl in Hrun', Hwf', Hels'.
  replace (size_ v1 - 1) with (size_ v) in * by lia.
  exists (ptr_add (begin_ v1) i), v1, h1, h'.
  split; [done|]. split.
  { rewrite Hels. rewrite lookup_app_r by (rewrite length_take; lia).
    rewrite length_take. replace (Z.to_nat i - _)%nat with 0%nat by lia. done. }
  split; [done|]. split; [done|].
  rewrite Hels', Hels.
  rewrite take_app_length' by (rewrite length_take; lia).
  rewrite drop_app_ge by (rewrite length_take; lia).
  rewrite length_take.
  replace (S (Z.to_nat i) - _)%nat with 1%nat by lia.
  simpl. rewrite drop_0. apply take_drop.
Qed.

Lemma Erase_undoes_Insert_witness :
  ∃ it v1 h1 h',
    Insert 0 part_000 (ptr_add (begin_ sample_vector) 1) (Outside 9)
      (St sample_vector sample_heap)
    = Ok it (St v1 h1)
    ∧ Erase part_000 it (St v1 h1)
      = Ok it (St (MkVec (items_ v1) 3 (capacity_ v1)) h')
    ∧ elements (MkVec (items_ v1) 3 (capacity_ v1)) h' = [1; 2; 3].
Proof.
  destruct (Erase_undoes_Insert 0 part_000 sample_vector sample_heap 1 (Outside 9) 9)
    as (it & v1 & h1 & h' & Hrun & _ & Hrun' & _ & Hels);
    [compute_done | simpl; lia | simpl; lia | reflexivity | simpl; tauto |].
  exists it, v1, h1, h'. split; [exact Hrun|]. split; [exact Hrun' | exact Hels].
Defined.

(** X9. [operator[]], part_000:185-195 and part_001:202-211, with
    [ArrayPtr::operator[]], array_ptr.h:59-67.  For an index below the
    size, reading [v[i]] yields element [i], the same as [At(i)]; the
    assignment [v[i] = x] replaces element [i] and nothing else (size,
    capacity, array and the other elements stay), and [v[i]] then reads
    [x].  For an index at or beyond the size, part_000 stops at its
    assertion where [At] throws [out_of_range]. *)
Theorem subscript_access {T} `{EqDecision T} (T_default : T) (d : draft)
    (v : SimpleVector) (h : gmap block (list T)) (i : Z) (x : T) :
  wf v h → 0 ≤ i < size_ v →
  (∃ y, elements v h !! Z.to_nat i = Some y
        ∧ invoke T_default d (CallSubscript i) (St v h) = Ok (VElem y) (St v h)
        ∧ invoke T_default d (CallAt i) (St v h) = Ok (VElem y) (St v h))
  ∧ (∃ h', invoke T_default d (CallSubscriptAssign i x) (St v h) = Ok VUnit (St v h')
           ∧ invoke T_default d (CallAtAssign i x) (St v h) = Ok VUnit (St v h')
           ∧ wf v h'
           ∧ elements v h' = <[Z.to_nat i := x]> (elements v h)
           ∧ invoke T_default d (CallSubscript i) (St v h') = Ok (VElem x) (St v h'))
  ∧ (∀ j, size_ v ≤ j →
       invoke T_default part_000 (CallSubscript j) (St v h) = AssertFail
       ∧ invoke T_default d (CallAt j) (St v h) = Throw out_of_range (St v h)).
Proof.
  intros Hwf Hi. pose proof (wf_bounds _ _ Hwf) as Hb.
  pose proof (buffer_length _ _ Hwf) as Hlen.
  assert (∀ h0 y, wf v h0 → buffer v h0 !! Z.to_nat i = Some y →
            invoke T_default d (CallSubscript i) (St v h0) = Ok (VElem y) (St v h0)
            ∧ invoke T_default d (CallAt i) (St v h0) = Ok (VElem y) (St v h0))
    as Hread.
  { intros h0 y Hwf0 Hy. unfold invoke, mbind, M_bind.
    rewrite subscript_in_range, At_in_range by lia.
    by rewrite (read_element v h0 i y) by (done || lia). }
  split; [|split].
  - destruct (lookup_lt_is_Some_2 (buffer v h) (Z.to_nat i)) as [y Hy]; [lia|].
    exists y. split; [|by apply Hread].
    rewrite elements_lookup by lia. done.
  - exists (set_buffer v h (<[Z.to_nat i := x]> (buffer v h))).
    assert (wf v (set_buffer v h (<[Z.to_nat i := x]> (buffer v h)))) as Hwf'
      by (apply wf_set_buffer_same; [done|by rewrite length_insert]).
    split; [|split; [|split; [done|split]]].
    + unfold invoke, mbind, M_bind. rewrite subscript_in_range by lia.
      by rewrite write_in_place by (done || lia).
    + unfold invoke, mbind, M_bind. rewrite At_in_range by lia.
      by rewrite write_in_place by (done || lia).
    + by apply elements_write.
    + apply Hread; [done|].
      rewrite buffer_set_buffer_same by (done || by rewrite length_insert).
      apply list_lookup_insert_eq. lia.
  - intros j Hj. split.
    + unfold invoke, mbind, M_bind. by rewrite subscript_out_of_range.
    + unfold invoke, mbind, M_bind. by rewrite At_out_of_range.
Qed.

Lemma subscript_access_witness :
  ∃ h', invoke 0 part_000 (CallSubscriptAssign 1 7) (St sample_vector sample_heap)
        = Ok VUnit (St sample_vector h')
        ∧ elements sample_vector h' = [1; 7; 3].
Proof.
  destruct (subscript_access 0 part_000 sample_vector sample_heap 1 7)
    as (_ & (h' & Hrun & _ & _ & Hels & _) & _); [compute_done | simpl; lia |].
  exists h'. split; [exact Hrun | exact Hels].
Defined.

(** ** Several vectors: swap and the comparisons *)

(** X10. [swap], part_000:99-104 with [ArrayPtr::swap], array_ptr.h:79-82:
    the two vectors exchange size, capacity and elements; the free store is
    not touched (nothing is allocated, copied or freed) and no other vector
    changes; vectors that owned different arrays still do; swapping again
    restores the program state, and swapping a vector with itself changes
    nothing. *)
Theorem swap_exchanges {T} `{EqDecision T} (w : @world T) (x y : nat)
    (vx vy : SimpleVector) :
  vecs w !! x = Some vx → vecs w !! y = Some vy → x ≠ y →
  ∃ w',
    swap x y w = Ok tt w'
    ∧ heap_of w' = heap_of w
    ∧ observe w' x = observe w y
    ∧ observe w' y = observe w x
    ∧ (∀ z, z ≠ x → z ≠ y → observe w' z = observe w z)
    ∧ (separated w → separated w')
    ∧ swap x y w' = Ok tt w
    ∧ swap x x w = Ok tt w.
Proof.
  intros Hx Hy Hne.
  exists (World (heap_of w) (<[y := vx]> (<[x := vy]> (vecs w)))).
  split; [by apply swap_distinct|]. split; [done|].
  split; [|split; [|split; [|split; [|split]]]].
  - rewrite (observe_lookup w y vy Hy). unfold observe; simpl.
    by rewrite lookup_insert_ne, lookup_insert_eq.
  - rewrite (observe_lookup w x vx Hx). unfold observe; simpl.
    by rewrite lookup_insert_eq.
  - intros z Hzx Hzy. unfold observe; simpl.
    by rewrite !lookup_insert_ne.
  - by apply separated_exchange.
  - rewrite (swap_distinct x y _ vy vx); simpl;
      [|done|by rewrite lookup_insert_ne, lookup_insert_eq|by rewrite lookup_insert_eq].
    f_equal. destruct w as [h m]; simpl in *. f_equal.
    apply map_eq. intros k.
    destruct (decide (k = x)), (decide (k = y)); by simplify_map_eq.
  - by eapply swap_self.
Qed.

Lemma swap_exchanges_witness :
  ∃ w', swap 0%nat 1%nat large_small = Ok tt w'
        ∧ observe w' 0%nat = Some (1, 1, [7])
        ∧ observe w' 1%nat = Some (4, 4, [1; 2; 3; 4])
        ∧ swap 0%nat 1%nat w' = Ok tt large_small.
Proof.
  destruct (swap_exchanges large_small 0%nat 1%nat
              (MkVec (MkArrayPtr (Ptr (Some 0%nat) 0)) 4 4)
              (MkVec (MkArrayPtr (Ptr (Some 1%nat) 0)) 1 1))
    as (w' & Hrun & _ & Hx & Hy & _ & _ & Hback & _);
    [reflexivity | reflexivity | lia |].
  exists w'. split; [exact Hrun|]. split; [exact Hx|]. split; [exact Hy | exact Hback].
Defined.

(** X11. [operator==] and [operator!=], part_000:299-309: on well-formed
    vectors the comparison returns whether the two element sequences are
    equal (vectors of different sizes are unequal; the capacities play no
    part), [!=] returns the negation, the comparison is symmetric and
    reflexive, and the program state is not changed. *)
Theorem equality_of_vectors {T} `{EqDecision T} (w : @world T) (x y : nat)
    (vx vy : SimpleVector) :
  vecs w !! x = Some vx → vecs w !! y = Some vy →
  wf vx (heap_of w) → wf vy (heap_of w) →
  equal x y w
  = Ok (bool_decide (elements vx (heap_of w) = elements vy (heap_of w))) w
  ∧ not_equal x y w
    = Ok (negb (bool_decide (elements vx (heap_of w) = elements vy (heap_of w)))) w
  ∧ equal y x w = equal x y w
  ∧ equal x x w = Ok true w
  ∧ (size_ vx ≠ size_ vy → equal x y w = Ok false w).
Proof.
  intros Hx Hy Hwfx Hwfy.
  pose proof (equal_elements x y w vx vy Hx Hy Hwfx Hwfy) as Hxy.
  split; [done|]. split; [|split; [|split]].
  - unfold not_equal, mbind, M_bind. by rewrite Hxy.
  - rewrite Hxy, (equal_elements y x w vy vx) by done.
    f_equal. apply bool_decide_ext. split; congruence.
  - rewrite (equal_elements x x w vx vx) by done.
    by rewrite bool_decide_eq_true_2.
  - intros Hsz. rewrite Hxy, bool_decide_eq_false_2; [done|].
    intros Heq. apply (f_equal length) in Heq.
    rewrite !elements_length in Heq by done.
    pose proof (wf_bounds _ _ Hwfx). pose proof (wf_bounds _ _ Hwfy). lia.
Qed.

Lemma equality_of_vectors_witness :
  equal 0%nat 1%nat equal_vectors = Ok true equal_vectors
  ∧ not_equal 0%nat 1%nat equal_vectors = Ok false equal_vectors.
Proof.
  destruct (equality_of_vectors equal_vectors 0%nat 1%nat
              (MkVec (MkArrayPtr (Ptr (Some 0%nat) 0)) 2 2)
              (MkVec (MkArrayPtr (Ptr (Some 1%nat) 0)) 2 4))
    as (Heq & Hne & _); [reflexivity | reflexivity | compute_done | compute_done |].
  split; [exact Heq | exact Hne].
Defined.

(** X12. [operator<], [operator>], [operator<=] and [operator>=],
    part_000:311-333: [lhs < rhs] is the lexicographic comparison of the
    element sequences by the [<] of the element type (the first differing
    position decides, a proper prefix is smaller); [>] is [<] with the
    operands exchanged, [<=] is the negation of [>], [>=] the negation of
    [<].  The program state is not changed. *)
Theorem ordering_of_vectors {T} `{EqDecision T} (T_less : T → T → bool)
    (w : @world T) (x y : nat) (vx vy : SimpleVector) :
  vecs w !! x = Some vx → vecs w !! y = Some vy →
  wf vx (heap_of w) → wf vy (heap_of w) →
  less T_less x y w
  = Ok (lex_less T_less (elements vx (heap_of w)) (elements vy (heap_of w))) w
  ∧ greater T_less x y w
    = Ok (lex_less T_less (elements vy (heap_of w)) (elements vx (heap_of w))) w
  ∧ less_equal T_less x y w
    = Ok (negb (lex_less T_less (elements vy (heap_of w)) (elements vx (heap_of w)))) w
  ∧ greater_equal T_less x y w
    = Ok (negb (lex_less T_less (elements vx (heap_of w)) (elements vy (heap_of w)))) w.
Proof.
  intros Hx Hy Hwfx Hwfy.
  pose proof (less_elements T_less x y w vx vy Hx Hy Hwfx Hwfy) as Hxy.
  pose proof (less_elements T_less y x w vy vx Hy Hx Hwfy Hwfx) as Hyx.
  split; [done|]. split; [done|]. split.
  - unfold less_equal, mbind, M_bind. by rewrite Hyx.
  - unfold greater_equal, mbind, M_bind. by rewrite Hxy.
Qed.

Lemma ordering_of_vectors_witness :
  less Z.ltb 0%nat 1%nat large_small = Ok true large_small
  ∧ greater_equal Z.ltb 0%nat 1%nat large_small = Ok false large_small.
Proof.
  destruct (ordering_of_vectors Z.ltb large_small 0%nat 1%nat
              (MkVec (MkArrayPtr (Ptr (Some 0%nat) 0)) 4 4)
              (MkVec (MkArrayPtr (Ptr (Some 1%nat) 0)) 1 1))
    as (Hlt & _ & _ & Hge); [reflexivity | reflexivity | compute_done | compute_done |].
  split; [exact Hlt | exact Hge].
Defined.

(** X13. The six comparison operators together, part_000:299-333: when
    the [<] of the element type is a strict total order, exactly one of
    [a < b], [a == b], [a > b] is true for two vectors, [a <= b] is
    [a < b || a == b] and [a >= b] is [a > b || a == b]. *)
Theorem comparison_trichotomy {T} `{EqDecision T} (T_less : T → T → bool)
    (w : @world T) (x y : nat) (vx vy : SimpleVector) :
  (∀ a b, T_less a b = true → T_less b a = false) →
  (∀ a b, T_less a b = false → T_less b a = false → a = b) →
  vecs w !! x = Some vx → vecs w !! y = Some vy →
  wf vx (heap_of w) → wf vy (heap_of w) →
  ∃ lt eq gt : bool,
    less T_less x y w = Ok lt w
    ∧ equal x y w = Ok eq w
    ∧ greater T_less x y w = Ok gt w
    ∧ less_equal T_less x y w = Ok (lt || eq) w
    ∧ greater_equal T_less x y w = Ok (gt || eq) w
    ∧ ((lt = true ∧ eq = false ∧ gt = false)
       ∨ (lt = false ∧ eq = true ∧ gt = false)
       ∨ (lt = false ∧ eq = false ∧ gt = true)).
Proof.
  intros Hasym Htotal Hx Hy Hwfx Hwfy.
  pose proof (less_elements T_less x y w vx vy Hx Hy Hwfx Hwfy) as Hxy.
  pose proof (less_elements T_less y x w vy vx Hy Hx Hwfy Hwfx) as Hyx.
  pose proof (equal_elements x y w vx vy Hx Hy Hwfx Hwfy) as Heq.
  eexists _, _, _. split; [exact Hxy|]. split; [exact Heq|]. split; [exact Hyx|].
  unfold less_equal, greater_equal, mbind, M_bind. rewrite Hxy, Hyx.
  unfold mret, M_ret.
  destruct (lex_less_trichotomy T_less (elements vx (heap_of w)) Hasym Htotal
              (elements vy (heap_of w)))
    as [(-> & Hne & ->)|[(-> & He & ->)|(-> & Hne & ->)]].
  - rewrite bool_decide_eq_false_2 by done. split; [done|]. split; [done|]. by left.
  - rewrite bool_decide_eq_true_2 by done. split; [done|]. split; [done|].
    right; left. done.
  - rewrite bool_decide_eq_false_2 by done. split; [done|]. split; [done|].
    right; right. done.
Qed.

Lemma comparison_trichotomy_witness :
  ∃ lt eq gt : bool,
    less Z.ltb 0%nat 1%nat large_small = Ok lt large_small
    ∧ equal 0%nat 1%nat large_small = Ok eq large_small
    ∧ greater Z.ltb 0%nat 1%nat large_small = Ok gt large_small
    ∧ lt = true ∧ eq = false ∧ gt = false.
Proof.
  destruct (comparison_trichotomy Z.ltb large_small 0%nat 1%nat
              (MkVec (MkArrayPtr (Ptr (Some 0%nat) 0)) 4 4)
              (MkVec (MkArrayPtr (Ptr (Some 1%nat) 0)) 1 1))
    as (lt & eq & gt & Hlt & Heq & Hgt & _ & _ & _);
    [ intros a b Hab; apply Z.ltb_ge; apply Z.ltb_lt in Hab; lia
    | intros a b H1 H2; apply Z.ltb_ge in H1, H2; lia
    | reflexivity | reflexivity | compute_done | compute_done |].
  exists lt, eq, gt. split; [exact Hlt|]. split; [exact Heq|]. split; [exact Hgt|].
  vm_compute in Hlt, Heq, Hgt.
  injection Hlt as <-. injection Heq as <-. injection Hgt as <-. done.
Defined.

(** ** [ArrayPtr] *)

(** X14. [ArrayPtr(size_t)], array_ptr.h:13-21, with the destructor,
    array_ptr.h:47-50, [operator bool] and [operator[]]: for a positive
    size the object owns a new array of that many value-initialised
    elements, converts to [true], and leaves the existing arrays alone;
    for size 0 it holds [nullptr], converts to [false] and nothing is
    allocated; a size the free store cannot serve throws [bad_alloc]
    without a change.  The destructor returns the free store to what it
    was before the construction. *)
Theorem ArrayPtr_lifetime {T} `{EqDecision T} (T_default : T) (n : Z)
    (h : gmap block (list T)) :
  (0 < n ≤ max_alloc →
     ∃ b h1,
       ArrayPtr_new T_default n h = Ok (MkArrayPtr (Ptr (Some b) 0)) h1
       ∧ h !! b = None
       ∧ h1 !! b = Some (replicate (Z.to_nat n) T_default)
       ∧ (∀ i, 0 ≤ i < n →
            load h1 (at_index (MkArrayPtr (Ptr (Some b) 0)) i) = Some T_default)
       ∧ (∀ b0, is_Some (h !! b0) → h1 !! b0 = h !! b0)
       ∧ to_bool (MkArrayPtr (Ptr (Some b) 0)) = true
       ∧ ArrayPtr_destroy (MkArrayPtr (Ptr (Some b) 0)) h1 = Ok tt h)
  ∧ (n ≤ 0 →
     ArrayPtr_new T_default n h = Ok (MkArrayPtr nullptr) h
     ∧ to_bool (MkArrayPtr nullptr) = false
     ∧ ArrayPtr_destroy (MkArrayPtr nullptr) h = Ok tt h)
  ∧ (max_alloc < n → ArrayPtr_new T_default n h = Throw bad_alloc h).
Proof.
  split; [|split].
  - intros Hn. exists (fresh (dom h)), (<[fresh (dom h) := replicate (Z.to_nat n) T_default]> h).
    pose proof (fresh_block_None h) as Hfresh.
    split; [by apply ArrayPtr_new_ok|]. split; [done|].
    split; [by rewrite lookup_insert_eq|].
    split; [|split; [|split; [done|]]].
    + intros i Hi. unfold load, at_index, ptr_add; simpl.
      rewrite lookup_insert_eq; simpl. rewrite decide_True by lia.
      apply lookup_replicate_2. lia.
    + intros b0 Hb0. by apply insert_fresh_other.
    + unfold ArrayPtr_destroy, delete_array; simpl.
      rewrite decide_True by (by rewrite lookup_insert_eq).
      by rewrite delete_insert_id.
  - intros Hn. split; [|done].
    unfold ArrayPtr_new. by rewrite decide_False by lia.
  - apply ArrayPtr_new_throw.
Qed.

Lemma ArrayPtr_lifetime_witness :
  ∃ b h1,
    ArrayPtr_new 0 2 sample_heap = Ok (MkArrayPtr (Ptr (Some b) 0)) h1
    ∧ h1 !! b = Some [0; 0]
    ∧ ArrayPtr_destroy (MkArrayPtr (Ptr (Some b) 0)) h1 = Ok tt sample_heap.
Proof.
  destruct (proj1 (ArrayPtr_lifetime 0 2 sample_heap))
    as (b & h1 & Hnew & _ & Hb & _ & _ & _ & Hdel); [unfold max_alloc; lia|].
  exists b, h1. split; [exact Hnew|]. split; [exact Hb | exact Hdel].
Defined.

(** X15. [Release], array_ptr.h:52-57, and the constructor from a raw
    pointer, array_ptr.h:23-26: [Release] returns the pointer the object held and
    leaves the object empty without touching the free store, so the
    destructor of the released object frees nothing and the array lives
    on; handing the released pointer to a new [ArrayPtr] has the same
    effect as move-constructing the new object from the old one. *)
Theorem Release_hands_over {T} (s : @astate T) (a c : nat) (pa : ArrayPtr) :
  objs s !! a = Some pa → objs s !! c = None →
  ∃ s1,
    ArrayPtr_Release a s = Ok (raw_ptr_ pa) s1
    ∧ objs s1 !! a = Some (MkArrayPtr nullptr)
    ∧ (to_bool <$> objs s1 !! a) = Some false
    ∧ amem s1 = amem s
    ∧ ArrayPtr_end a s1 = Ok tt (AState (delete a (objs s)) (amem s))
    ∧ (p ← ArrayPtr_Release a; ArrayPtr_from_raw c p) s
      = ArrayPtr_move_construct c a s
    ∧ (p ← ArrayPtr_Release a; ArrayPtr_from_raw c p) s
      = Ok tt (AState (<[c := pa]> (<[a := MkArrayPtr nullptr]> (objs s))) (amem s)).
Proof.
  intros Ha Hc.
  exists (AState (<[a := MkArrayPtr nullptr]> (objs s)) (amem s)).
  split; [by apply ArrayPtr_Release_run|]. simpl.
  split; [by rewrite lookup_insert_eq|].
  split; [by rewrite lookup_insert_eq|]. split; [done|].
  split; [|split].
  - rewrite ArrayPtr_end_null; simpl; [|by rewrite lookup_insert_eq].
    by rewrite delete_insert_eq.
  - rewrite (ArrayPtr_move_construct_run s c a pa) by done.
    unfold mbind, M_bind. rewrite (ArrayPtr_Release_run s a pa) by done.
    unfold ArrayPtr_from_raw, aset; simpl. by rewrite ArrayPtr_eta.
  - unfold mbind, M_bind. rewrite (ArrayPtr_Release_run s a pa) by done.
    unfold ArrayPtr_from_raw, aset; simpl. by rewrite ArrayPtr_eta.
Qed.

Lemma Release_hands_over_witness :
  (p ← ArrayPtr_Release 0%nat; ArrayPtr_from_raw 2%nat p) two_buffers
  = Ok tt (AState {[ 0%nat := MkArrayPtr nullptr;
                     1%nat := MkArrayPtr (Ptr (Some 1%nat) 0);
                     2%nat := MkArrayPtr (Ptr (Some 0%nat) 0) ]}
                  (amem two_buffers)).
Proof.
  destruct (Release_hands_over two_buffers 0%nat 2%nat (MkArrayPtr (Ptr (Some 0%nat) 0)))
    as (s1 & _ & _ & _ & _ & _ & _ & Hrun); [reflexivity | reflexivity |].
  rewrite Hrun. vm_compute. reflexivity.
Defined.

(** X16. [ArrayPtr::swap], array_ptr.h:79-82, and [std::swap] on two
    [ArrayPtr] objects (the move constructor array_ptr.h:32-35 followed by
    two move assignments array_ptr.h:37-45): both exchange the two
    pointers and leave the free store alone -- the temporary of
    [std::swap] ends up empty, so its destructor frees nothing; swapping
    twice restores the state, and an object swapped with itself is
    unchanged. *)
Theorem ArrayPtr_swaps {T} (s : @astate T) (a b tmp : nat) (pa pb : ArrayPtr) :
  objs s !! a = Some pa → objs s !! b = Some pb → objs s !! tmp = None → a ≠ b →
  ArrayPtr_swap a b s = Ok tt (AState (<[b := pa]> (<[a := pb]> (objs s))) (amem s))
  ∧ std_swap_ArrayPtr tmp a b s = ArrayPtr_swap a b s
  ∧ (ArrayPtr_swap a b;; ArrayPtr_swap a b) s = Ok tt s
  ∧ ArrayPtr_swap a a s = Ok tt s.
Proof.
  intros Ha Hb Htmp Hne.
  pose proof (ArrayPtr_swap_run s a b pa pb Ha Hb) as Hswap.
  split; [done|]. split; [|split].
  - rewrite Hswap. by apply std_swap_ArrayPtr_run.
  - unfold mbind, M_bind. rewrite Hswap.
    rewrite (ArrayPtr_swap_run _ a b pb pa); simpl;
      [|by rewrite lookup_insert_ne, lookup_insert_eq|by rewrite lookup_insert_eq].
    destruct s as [m h]; simpl in *. do 2 f_equal. apply map_eq. intros k.
    destruct (decide (k = a)), (decide (k = b)); by simplify_map_eq.
  - rewrite (ArrayPtr_swap_run s a a pa pa) by done.
    destruct s as [m h]; simpl in *. do 2 f_equal.
    rewrite insert_insert_eq. by apply insert_id.
Qed.

Lemma ArrayPtr_swaps_witness :
  std_swap_ArrayPtr 2%nat 0%nat 1%nat two_buffers
  = Ok tt (AState {[ 0%nat := MkArrayPtr (Ptr (Some 1%nat) 0);
                     1%nat := MkArrayPtr (Ptr (Some 0%nat) 0) ]}
                  (amem two_buffers)).
Proof.
  destruct (ArrayPtr_swaps two_buffers 0%nat 1%nat 2%nat
              (MkArrayPtr (Ptr (Some 0%nat) 0)) (MkArrayPtr (Ptr (Some 1%nat) 0)))
    as (Hswap & Hstd & _); [reflexivity | reflexivity | reflexivity | lia |].
  rewrite Hstd, Hswap. vm_compute. reflexivity.
Defined.

(** ** Moving a vector *)

(** X17. The move constructor of part_000, part_000:76-81: the new vector
    takes the array, the size and the capacity of the source, and the
    source is left empty with capacity 0 and no array.  Nothing is
    allocated, copied or freed, no other vector changes, and vectors that
    owned different arrays still do. *)
Theorem move_constructor_takes_over {T} (w : @world T) (x y : nat)
    (vy : SimpleVector) :
  vecs w !! x = None → vecs w !! y = Some vy →
  ∃ w',
    move_construct part_000 x y w = Ok tt w'
    ∧ heap_of w' = heap_of w
    ∧ vecs w' !! x = Some vy
    ∧ observe w' x = observe w y
    ∧ vecs w' !! y = Some empty_vector
    ∧ observe w' y = Some (0, 0, [])
    ∧ (∀ z, z ≠ x → z ≠ y → observe w' z = observe w z)
    ∧ (separated w → separated w').
Proof.
  intros Hx Hy. assert (x ≠ y) as Hne by congruence.
  exists (World (heap_of w) (<[y := empty_vector]> (<[x := vy]> (vecs w)))).
  split; [by apply move_construct_part_000_run|]. split; [done|]. simpl.
  split; [by rewrite lookup_insert_ne, lookup_insert_eq|].
  split; [|split; [by rewrite lookup_insert_eq|split; [|split]]].
  - rewrite (observe_lookup w y vy Hy). unfold observe; simpl.
    by rewrite lookup_insert_ne, lookup_insert_eq.
  - unfold observe; simpl. by rewrite lookup_insert_eq.
  - intros z Hzx Hzy. unfold observe; simpl. by rewrite !lookup_insert_ne.
  - intros Hsep. apply separated_handover; [done|done|done|].
    intros z vz _ Hz. by apply (proj1 Hsep z).
Qed.

Lemma move_constructor_takes_over_witness :
  ∃ w', move_construct part_000 2%nat 0%nat large_small = Ok tt w'
        ∧ observe w' 2%nat = Some (4, 4, [1; 2; 3; 4])
        ∧ observe w' 0%nat = Some (0, 0, []).
Proof.
  destruct (move_constructor_takes_over large_small 2%nat 0%nat
              (MkVec (MkArrayPtr (Ptr (Some 0%nat) 0)) 4 4))
    as (w' & Hrun & _ & _ & Hx & _ & Hy & _); [reflexivity | reflexivity |].
  exists w'. split; [exact Hrun|]. split; [exact Hx | exact Hy].
Defined.

(** X18. The move assignment of part_000, part_000:83-92: [x = std::move(y)]
    for two different vectors gives [x] the array, size and capacity of
    [y], leaves [y] empty, and deletes the array [x] had (the local [temp]
    takes it in [swap] and its destructor frees it); all other arrays and
    vectors are as before.  Assigning a vector to itself changes
    nothing. *)
Theorem move_assignment_takes_over {T} (w : @world T) (x y : nat)
    (vx vy : SimpleVector) :
  separated w → x ≠ y → vecs w !! x = Some vx → vecs w !! y = Some vy →
  (∃ w',
     move_assign part_000 x y w = Ok tt w'
     ∧ vecs w' !! x = Some vy
     ∧ observe w' x = observe w y
     ∧ vecs w' !! y = Some empty_vector
     ∧ (∀ z, z ≠ x → z ≠ y → observe w' z = observe w z)
     ∧ (∀ b, base (Get (items_ vx)) = Some b → heap_of w' !! b = None)
     ∧ (∀ b, base (Get (items_ vx)) ≠ Some b → heap_of w' !! b = heap_of w !! b)
     ∧ separated w')
  ∧ (∀ d, move_assign d x x w = Ok tt w).
Proof.
  intros Hsep Hne Hx Hy.
  assert (wf vx (heap_of w)) as Hwfx by (by apply (proj1 Hsep x)).
  assert (∀ z vz, z ≠ x → vecs w !! z = Some vz →
            ∀ b, base (Get (items_ vz)) = Some b →
                 released vx (heap_of w) !! b = heap_of w !! b) as Hkeep.
  { intros z vz Hz Hvz b Hb. apply released_other.
    intros Hb'. by apply (proj2 Hsep x z vx vz b). }
  split.
  - exists (World (released vx (heap_of w))
              (<[y := empty_vector]> (<[x := vy]> (vecs w)))).
    split; [by apply move_assign_part_000_run|]. simpl.
    split; [by rewrite lookup_insert_ne, lookup_insert_eq|].
    split; [|split; [by rewrite lookup_insert_eq|split; [|split; [|split]]]].
    + rewrite (observe_lookup w y vy Hy). unfold observe; simpl.
      rewrite lookup_insert_ne, lookup_insert_eq by done. simpl.
      do 2 f_equal. apply elements_agree. by eapply Hkeep.
    + intros z Hzx Hzy. unfold observe; simpl. rewrite !lookup_insert_ne by done.
      destruct (vecs w !! z) as [vz|] eqn:Hz; [|done]. simpl.
      do 2 f_equal. apply elements_agree. by eapply Hkeep.
    + intros b Hb. by apply released_own.
    + intros b Hb. by apply released_other.
    + apply separated_handover; [done|done|done|].
      intros z vz Hz Hvz. apply (wf_agree vz (heap_of w)); [by eapply Hkeep|].
      by apply (proj1 Hsep z).
  - intros d. unfold move_assign. by rewrite decide_True.
Qed.

Lemma move_assignment_takes_over_witness :
  ∃ w', move_assign part_000 1%nat 0%nat large_small = Ok tt w'
        ∧ observe w' 1%nat = Some (4, 4, [1; 2; 3; 4])
        ∧ vecs w' !! 0%nat = Some empty_vector
        ∧ heap_of w' !! 1%nat = None.
Proof.
  destruct (move_assignment_takes_over large_small 1%nat 0%nat
              (MkVec (MkArrayPtr (Ptr (Some 1%nat) 0)) 1 1)
              (MkVec (MkArrayPtr (Ptr (Some 0%nat) 0)) 4 4))
    as [(w' & Hrun & _ & Hx & Hy & _ & Hfree & _) _];
    [apply separated_check_sound; compute_done | lia | reflexivity | reflexivity |].
  exists w'. split; [exact Hrun|]. split; [exact Hx|]. split; [exact Hy|].
  apply Hfree. reflexivity.
Defined.

(** X19. The move constructor of part_001, part_001:81-86.  Size and
    capacity are exchanged as in part_000, but
    [other.items_ = std::exchange(items_, other.items_)] copy-assigns the
    pointer of [other] into [items_], and the temporary that the exchange
    returns then takes the same pointer from [other] in the move
    assignment and deletes the array at the end of the statement.  So
    when the source has an array, the new vector has the source's size and
    capacity and points to an array that no longer exists: reading an
    element and running its destructor are both undefined.  For a source
    without an array the result is that of part_000. *)
Theorem part_001_move_constructor_frees_array {T} `{EqDecision T} (T_default : T)
    (w : @world T) (x y : nat) (vy : SimpleVector) :
  vecs w !! x = None → vecs w !! y = Some vy → wf vy (heap_of w) →
  (0 < capacity_ vy →
     ∃ b w',
       items_ vy = MkArrayPtr (Ptr (Some b) 0)
       ∧ move_construct part_001 x y w = Ok tt w'
       ∧ vecs w' !! x = Some vy
       ∧ vecs w' !! y = Some empty_vector
       ∧ heap_of w' = delete b (heap_of w)
       ∧ heap_of w' !! b = None
       ∧ ¬ wf vy (heap_of w')
       ∧ (∀ d i, 0 ≤ i < size_ vy →
            call x (invoke T_default d (CallAt i)) w' = Undefined)
       ∧ destroy x w' = Undefined)
  ∧ (capacity_ vy = 0 →
     move_construct part_001 x y w = move_construct part_000 x y w).
Proof.
  intros Hx Hy Hwf. assert (x ≠ y) as Hne by congruence.
  destruct (wf_cases vy (heap_of w) Hwf)
    as [(Hv & Hc & _)|(b & l & Hv & Hb & _ & _ & Hpos)].
  - split; [lia|]. intros _.
    rewrite (move_construct_part_001_null x y w vy) by done.
    by rewrite (move_construct_part_000_run x y w vy).
  - split; [|lia]. intros _.
    exists b, (World (delete b (heap_of w)) (<[y := empty_vector]> (<[x := vy]> (vecs w)))).
    split; [done|].
    split; [by apply move_construct_part_001_run; [..|rewrite Hb]|]. simpl.
    split; [by rewrite lookup_insert_ne, lookup_insert_eq|].
    split; [by rewrite lookup_insert_eq|]. split; [done|].
    split; [apply lookup_delete_eq|].
    split; [|split].
    + intros (_ & _ & _ & Hlive). unfold Get in Hlive. rewrite Hv in Hlive.
      simpl in Hlive. rewrite lookup_delete_eq in Hlive. by destruct Hlive.
    + intros d i Hi. unfold call; simpl.
      rewrite lookup_insert_ne, lookup_insert_eq by done.
      unfold invoke, mbind, M_bind. rewrite At_in_range by lia.
      unfold on_heap, read, load, at_index, ptr_add; simpl.
      rewrite Hv; simpl. by rewrite lookup_delete_eq.
    + unfold destroy; simpl. rewrite lookup_insert_ne, lookup_insert_eq by done.
      unfold ArrayPtr_destroy, delete_array. rewrite Hv; simpl.
      rewrite decide_False; [done|].
      intros [_ Hsome]. rewrite lookup_delete_eq in Hsome. by destruct Hsome.
Qed.

Lemma part_001_move_constructor_frees_array_witness :
  ∃ b w',
    move_construct part_001 2%nat 0%nat large_small = Ok tt w'
    ∧ vecs w' !! 2%nat = Some (MkVec (MkArrayPtr (Ptr (Some b) 0)) 4 4)
    ∧ heap_of w' !! b = None
    ∧ call 2%nat (invoke 0 part_001 (CallAt 0)) w' = Undefined.
Proof.
  destruct (part_001_move_constructor_frees_array 0 large_small 2%nat 0%nat
              (MkVec (MkArrayPtr (Ptr (Some 0%nat) 0)) 4 4))
    as [Hbad _]; [reflexivity | reflexivity | compute_done |].
  destruct Hbad as (b & w' & Hit & Hrun & Hx & _ & _ & Hgone & _ & Hread & _);
    [simpl; lia|].
  exists b, w'. split; [exact Hrun|]. rewrite <- Hit.
  split; [exact Hx|]. split; [exact Hgone|]. apply Hread. simpl. lia.
Defined.

(** ** Growth by repeated [PushBack] *)

(** X20. [PushBack] with [ResizeCurrentVector] and [Resize],
    part_000:106-110, 215-233 and 286-296, repeated from the empty vector
    with arguments that are not elements of the vector itself (temporaries
    or other objects, as in [v.PushBack(1)]): after pushing [n >= 1] such
    values the vector holds exactly those values in order, and its
    capacity is the least power of two that is at least [n]; so the
    capacity is always below twice the size.  One call keeps this state of
    the capacity for every reference argument that designates a live
    object and, when the vector is full, does not point into the vector's
    own array. *)
Theorem doubling_capacity {T} `{EqDecision T} (T_default : T) (d : draft) :
  (∀ (xs : list T) (h : gmap block (list T)),
     xs ≠ [] → Z.of_nat (length xs) ≤ 2 ^ 62 →
     ∃ v' h',
       push_all T_default d xs (St empty_vector h) = Ok tt (St v' h')
       ∧ wf v' h'
       ∧ elements v' h' = xs
       ∧ size_ v' = Z.of_nat (length xs)
       ∧ capacity_ v' = 2 ^ Z.log2_up (Z.of_nat (length xs))
       ∧ size_ v' ≤ capacity_ v' < 2 * size_ v')
  ∧ (∀ (v : SimpleVector) (h : gmap block (list T)) (item : ref T) (x : T),
       wf v h → doubled v → size_ v + 1 ≤ 2 ^ 62 →
       value_of h item = Some x →
       (size_ v = capacity_ v → ¬ inside v item) →
       ∃ v' h',
         PushBack T_default d item (St v h) = Ok tt (St v' h')
         ∧ wf v' h'
         ∧ elements v' h' = elements v h ++ [x]
         ∧ capacity_ v' = 2 ^ Z.log2_up (size_ v + 1)
         ∧ doubled v').
Proof.
  split.
  - intros xs h Hne Hbound.
    assert (0 < Z.of_nat (length xs)) as Hpos by (destruct xs; [done|simpl; lia]).
    destruct (push_all_doubled T_default d xs empty_vector h)
      as (v' & h' & Hrun & Hwf & Hels & Hsz & Hd);
      [apply wf_empty_vector | by left | simpl; lia |].
    simpl in Hsz, Hels. rewrite ?Z.add_0_l in Hsz.
    destruct Hd as [[Hs _]|[_ Hc]]; [lia|].
    rewrite Hsz in Hc.
    exists v', h'. split; [done|]. split; [done|]. split; [done|].
    split; [done|]. split; [done|].
    rewrite Hc, Hsz. remember (Z.of_nat (length xs)) as n eqn:Hn.
    destruct (decide (n = 1)) as [Hn1|Hn1]; [rewrite Hn1, Z.log2_up_1; lia|].
    pose proof (Z.log2_up_spec n ltac:(lia)) as [Hlo Hhi].
    pose proof (Z.log2_up_nonneg n) as Hk.
    split; [done|].
    replace (Z.log2_up n) with (Z.pred (Z.log2_up n) + 1) at 1 by lia.
    destruct (decide (Z.log2_up n = 0)) as [E|Hk0].
    { rewrite E in Hhi. simpl in Hhi. lia. }
    rewrite Z.pow_add_r by lia. change (2 ^ 1) with 2. lia.
  - intros v h item x Hwf Hd Hbound Hval Hout.
    pose proof (wf_bounds _ _ Hwf) as Hb.
    destruct (doubled_PushBack T_default d v h item x Hwf Hd Hbound Hval Hout)
      as (v' & h' & Hrun & Hwf' & Hels & Hsz & Hd').
    exists v', h'. split; [done|]. split; [done|]. split; [done|].
    split; [|done].
    destruct Hd' as [[Hs _]|[_ Hc]]; [lia|]. by rewrite Hc, Hsz.
Qed.

Lemma doubling_capacity_witness :
  ∃ v' h',
    push_all 0 part_000 [5; 6; 7; 8; 9] (St empty_vector (∅ : gmap block (list Z)))
    = Ok tt (St v' h')
    ∧ elements v' h' = [5; 6; 7; 8; 9] ∧ capacity_ v' = 8.
Proof.
  destruct (proj1 (doubling_capacity 0 part_000) [5; 6; 7; 8; 9]
              (∅ : gmap block (list Z)))
    as (v' & h' & Hrun & _ & Hels & _ & Hcap & _);
    [discriminate | vm_compute; discriminate |].
  exists v', h'. split; [exact Hrun|]. split; [exact Hels | exact Hcap].
Defined.

(** ** Every call: safety and ownership *)

(** X21. Every member function that works on one vector, called on a
    well-formed vector with arguments inside its precondition, either
    returns and leaves a well-formed vector, or throws and leaves the
    vector and the free store exactly as they were; it has no undefined
    behaviour and fails no assertion.  The precondition: a position or
    index inside the vector, a non-empty vector for [PopBack], and for
    [PushBack] and both [Insert] overloads a reference argument that
    designates a live object which, when the vector is full (the call
    reallocates), is not an element of the vector's own array.  The
    exception is [out_of_range] for [At] and [bad_alloc] for every other
    call. *)
Theorem calls_within_preconditions {T} `{EqDecision T} (T_default : T) (d : draft)
    (v : SimpleVector) (h : gmap block (list T)) (c : member T) :
  wf v h → pre v h c →
  (∃ r v' h', invoke T_default d c (St v h) = Ok r (St v' h') ∧ wf v' h')
  ∨ (∃ e, invoke T_default d c (St v h) = Throw e (St v h)
          ∧ e = match c with
                | CallAt _ => out_of_range
                | CallAtAssign _ _ => out_of_range
                | _ => bad_alloc
                end).
Proof.
  intros Hwf Hpre. pose proof (wf_bounds _ _ Hwf) as Hb.
  pose proof max_alloc_lt as Hm. pose proof (buffer_length _ _ Hwf) as Hlen.
  assert (∀ i, 0 ≤ i < size_ v → ∃ y, buffer v h !! Z.to_nat i = Some y) as Hget.
  { intros i Hi. apply lookup_lt_is_Some_2. lia. }
  destruct c as [x| |i x|i x|i|n|n| |i|i x|i|i x| | |];
    unfold invoke, mbind, M_bind, gets; cbn [this mem]; simpl in Hpre.
  - destruct (decide (size_ v = capacity_ v
                      ∧ max_alloc < grown (size_ v + 1) (capacity_ v))) as [[Hf Hx]|Hno].
    + right. exists bad_alloc. by rewrite PushBack_throw.
    + left. destruct Hpre as [[y Hy] Hout].
      destruct (PushBack_ok T_default d v h x y Hwf)
        as (v' & h' & Hrun & _ & _ & Hwf' & _); [lia|done|done|].
      exists VUnit, v', h'. by rewrite Hrun.
  - left. rewrite PopBack_ok by lia.
    eexists _, _, _. split; [reflexivity|]. apply wf_set_size; [done|lia].
  - destruct Hpre as (Hi & Hval & Hout).
    destruct (decide (size_ v = capacity_ v
                      ∧ max_alloc < grown (size_ v + 1) (capacity_ v))) as [[Hf Hx]|Hno].
    + right. exists bad_alloc. by rewrite Insert_throw.
    + left. destruct (Insert_defined T_default d v h i x Hwf Hi)
        as (v' & h' & Hrun & Hwf' & _); [lia|done|done|].
      eexists _, v', h'. by rewrite Hrun.
  - destruct Hpre as (Hi & Hval & Hout). rewrite Insert_rvalue_eq by done.
    destruct (decide (size_ v = capacity_ v
                      ∧ max_alloc < grown (size_ v + 1) (capacity_ v))) as [[Hf Hx]|Hno].
    + right. exists bad_alloc. by rewrite Insert_throw.
    + left. destruct (Insert_defined T_default d v h i x Hwf Hi)
        as (v' & h' & Hrun & Hwf' & _); [lia|done|done|].
      eexists _, v', h'. by rewrite Hrun.
  - left. destruct (Erase_ok d v h i Hwf Hpre) as (h' & Hrun & Hwf' & _).
    simpl in Hrun, Hwf'. eexists _, _, h'. by rewrite Hrun.
  - destruct (decide (capacity_ v < n)) as [Hgrow|Hfit].
    + destruct (decide (grown n (capacity_ v) ≤ max_alloc)) as [Hok|Hbig].
      * left. destruct (Resize_grow T_default d v h n Hwf Hgrow Hok)
          as (v' & h' & Hrun & _ & _ & Hwf' & _).
        exists VUnit, v', h'. by rewrite Hrun.
      * right. exists bad_alloc. by rewrite Resize_grow_throw by (done || lia).
    + left. destruct (decide (size_ v < n)) as [Hin|Hshrink].
      * destruct (Resize_within_elements T_default d v h n Hwf) as (h' & Hrun & Hwf' & _);
          [lia|]. simpl in Hrun, Hwf'.
        eexists VUnit, _, h'. by rewrite Hrun.
      * rewrite Resize_shrink by (done || lia).
        eexists _, _, _. split; [reflexivity|]. apply wf_set_size; [done|lia].
  - destruct (decide (n ≤ capacity_ v)) as [Hfit|Hgrow].
    + left. rewrite Reserve_noop by done. by exists VUnit, v, h.
    + destruct (decide (n ≤ max_alloc)) as [Hok|Hbig].
      * left. destruct (Reserve_grow T_default v h n Hwf) as (v' & h' & Hrun & _ & _ & Hwf' & _);
          [lia|done|].
        exists VUnit, v', h'. by rewrite Hrun.
      * right. exists bad_alloc. by rewrite Reserve_throw by lia.
  - left. rewrite Clear_run.
    eexists _, _, _. split; [reflexivity|]. apply wf_set_size; [done|lia].
  - left. destruct (Hget i Hpre) as [y Hy].
    rewrite subscript_in_range by lia.
    rewrite (read_element v h i y) by (done || lia). by exists (VElem y), v, h.
  - left. rewrite subscript_in_range by lia.
    rewrite write_in_place by (done || lia).
    eexists _, _, _. split; [reflexivity|].
    apply wf_set_buffer_same; [done|by rewrite length_insert].
  - destruct (decide (i < size_ v)) as [Hin|Hout].
    + left. destruct (Hget i ltac:(lia)) as [y Hy].
      rewrite At_in_range by lia.
      rewrite (read_element v h i y) by (done || lia). by exists (VElem y), v, h.
    + right. exists out_of_range. by rewrite At_out_of_range by lia.
  - destruct (decide (i < size_ v)) as [Hin|Hout].
    + left. rewrite At_in_range by lia.
      rewrite write_in_place by (done || lia).
      eexists _, _, _. split; [reflexivity|].
      apply wf_set_buffer_same; [done|by rewrite length_insert].
    + right. exists out_of_range. by rewrite At_out_of_range by lia.
  - left. by eexists _, v, h.
  - left. by eexists _, v, h.
  - left. by eexists _, v, h.
Qed.

Lemma calls_within_preconditions_witness :
  (∃ r v' h', invoke 0 part_000 (CallInsert 1 (Place (Ptr (Some 0%nat) 2)))
                (St sample_vector sample_heap)
              = Ok r (St v' h') ∧ wf v' h')
  ∨ (∃ e, invoke 0 part_000 (CallInsert 1 (Place (Ptr (Some 0%nat) 2)))
            (St sample_vector sample_heap)
          = Throw e (St sample_vector sample_heap) ∧ e = bad_alloc).
Proof.
  apply (calls_within_preconditions 0 part_000 sample_vector sample_heap
           (CallInsert 1 (Place (Ptr (Some 0%nat) 2))));
    [compute_done | simpl; split; [lia|split; [vm_compute; eexists; reflexivity|lia]]].
Defined.

(** X22. Ownership of the array over any sequence of member calls
    ([PushBack], [PopBack], [Insert], [Erase], [Resize], [Reserve],
    [Clear], [operator[]], [At] and the queries, with any arguments).
    If the vector holds no array or the start of a live one, then after
    the calls -- whether they returned or ended in an exception -- the
    destructor [~ArrayPtr], array_ptr.h:47-50, succeeds and leaves the
    free store exactly as the destructor would have left it before the
    calls: every array that a reallocation replaced has been deleted,
    nothing is deleted twice, and no array of another owner is touched.
    For a vector that started without an array, the free store is back
    to what it was. *)
Theorem calls_leak_nothing {T} `{EqDecision T} (T_default : T) (d : draft)
    (cs : list (member T)) (v : SimpleVector) (h : gmap block (list T)) :
  offset (Get (items_ v)) = 0 → live (St v h) →
  ArrayPtr_destroy (items_ v) h = Ok tt (released v h)
  ∧ post (λ s',
       ArrayPtr_destroy (items_ (this s')) (mem s') = Ok tt (released v h)
       ∧ (∀ b0, base (Get (items_ (this s'))) ≠ Some b0 →
                base (Get (items_ v)) ≠ Some b0 → mem s' !! b0 = h !! b0))
      (invoke_all T_default d cs (St v h))
  ∧ (base (Get (items_ v)) = None → released v h = h).
Proof.
  intros Hoff Hlive.
  assert (tidy (St v h)) as Htidy by done.
  split; [by apply (ArrayPtr_destroy_tidy (St v h))|]. split.
  - pose proof (invoke_all_own_only T_default d cs (St v h)) as Hown.
    unfold respects in Hown.
    assert (∀ s', own_only (St v h) s' →
              ArrayPtr_destroy (items_ (this s')) (mem s') = Ok tt (released v h)
              ∧ (∀ b0, base (Get (items_ (this s'))) ≠ Some b0 →
                       base (Get (items_ v)) ≠ Some b0 → mem s' !! b0 = h !! b0))
      as Hall.
    { intros s' Hs'. split.
      - rewrite ArrayPtr_destroy_tidy by (by apply (proj1 Hs')).
        by rewrite (released_own_only (St v h) s').
      - intros b0 Hn' Hn. destruct Hs' as (_ & Hother & _).
        rewrite (Hother b0 Hn'). simpl. by rewrite decide_False. }
    destruct (invoke_all T_default d cs (St v h)); simpl in *; auto.
  - intros Hnull. unfold released. by rewrite Hnull.
Qed.

Lemma calls_leak_nothing_witness :
  ∃ s',
    invoke_all 0 part_000
      [CallPushBack (Outside 4); CallPushBack (Outside 5); CallErase 0]
      (St sample_vector sample_heap) = Ok tt s'
    ∧ capacity_ (this s') = 8
    ∧ ArrayPtr_destroy (items_ (this s')) (mem s') = Ok tt ∅.
Proof.
  destruct (calls_leak_nothing 0 part_000
              [CallPushBack (Outside 4); CallPushBack (Outside 5); CallErase 0]
              sample_vector sample_heap) as (_ & Hpost & _);
    [reflexivity | vm_compute; eexists; reflexivity |].
  destruct (invoke_all 0 part_000
              [CallPushBack (Outside 4); CallPushBack (Outside 5); CallErase 0]
              (St sample_vector sample_heap)) as [[] s'|e s'| |] eqn:E;
    [|vm_compute in E; discriminate..].
  exists s'. split; [reflexivity|]. split; [|exact (proj1 Hpost)].
  vm_compute in E. injection E as <-. reflexivity.
Defined.

(** ** Iterators *)

(** X23. [begin], [end], [cbegin], [cend], part_000:252-280, with
    [IsEmpty] and [GetSize], part_000:170-183: on a well-formed vector
    [end() - begin()] is the size, the constant iterators are the same
    pointers, [begin() == end()] holds exactly when the vector is empty,
    and walking from [begin()] to [end()] reads exactly the elements in
    order, [*(begin() + i)] being element [i]. *)
Theorem iterator_range {T} `{EqDecision T} (v : SimpleVector)
    (h : gmap block (list T)) :
  wf v h →
  ptr_diff (end_ v) (begin_ v) = Some (GetSize v)
  ∧ cbegin v = begin_ v ∧ cend v = end_ v
  ∧ (begin_ v = end_ v ↔ IsEmpty v = true)
  ∧ read_n (Z.to_nat (GetSize v)) (begin_ v) h = Ok (elements v h) h
  ∧ (∀ i, 0 ≤ i < GetSize v →
       load h (ptr_add (begin_ v) i) = elements v h !! Z.to_nat i
       ∧ is_Some (elements v h !! Z.to_nat i))
  ∧ (IsEmpty v = true → elements v h = []).
Proof.
  intros Hwf. pose proof (wf_bounds _ _ Hwf) as Hb.
  pose proof (elements_length _ _ Hwf) as Hlen.
  unfold GetSize, IsEmpty.
  split; [|split; [done|split; [done|split; [|split; [|split]]]]].
  - unfold ptr_diff, end_, begin_, ptr_add; simpl.
    rewrite decide_True by done. f_equal. lia.
  - unfold begin_, end_, ptr_add. destruct (Get (items_ v)) as [b o]; simpl.
    rewrite bool_decide_eq_true. split.
    + intros [= Ho]. lia.
    + intros ->. f_equal. lia.
  - by apply read_n_elements.
  - intros i Hi. split.
    + unfold begin_, Get. fold (at_index (items_ v) i).
      rewrite load_at_index by (done || lia).
      symmetry. apply elements_lookup. lia.
    + apply lookup_lt_is_Some_2. lia.
  - rewrite bool_decide_eq_true. intros Hz.
    apply length_zero_iff_nil. rewrite Hlen, Hz. done.
Qed.

Lemma iterator_range_witness :
  ptr_diff (end_ sample_vector) (begin_ sample_vector) = Some 3
  ∧ read_n 3 (begin_ sample_vector) sample_heap = Ok [1; 2; 3] sample_heap.
Proof.
  destruct (iterator_range sample_vector sample_heap) as (Hd & _ & _ & _ & Hr & _);
    [compute_done|].
  split; [exact Hd | exact Hr].
Defined.

(** ** Two more edges *)

(** X24. The move assignment of part_001, part_001:89-98, is built on
    its move constructor: after [x = std::move(y)] with [y] owning an
    array, [x] has the size and capacity of [y] and points to the array of
    [y], which the move constructor of the local [temp] has already
    deleted; the array [x] owned before is deleted too.  Reading an
    element of [x] and destroying [x] are undefined. *)
Theorem part_001_move_assignment_frees_array {T} `{EqDecision T} (T_default : T)
    (w : @world T) (x y : nat) (vx vy : SimpleVector) :
  separated w → x ≠ y → vecs w !! x = Some vx → vecs w !! y = Some vy →
  0 < capacity_ vy →
  ∃ b w',
    items_ vy = MkArrayPtr (Ptr (Some b) 0)
    ∧ move_assign part_001 x y w = Ok tt w'
    ∧ vecs w' !! x = Some vy
    ∧ vecs w' !! y = Some empty_vector
    ∧ heap_of w' !! b = None
    ∧ (∀ b0, base (Get (items_ vx)) = Some b0 → heap_of w' !! b0 = None)
    ∧ (∀ d i, 0 ≤ i < size_ vy →
         call x (invoke T_default d (CallAt i)) w' = Undefined)
    ∧ destroy x w' = Undefined.
Proof.
  intros Hsep Hne Hx Hy Hpos.
  assert (wf vx (heap_of w)) as Hwfx by (by apply (proj1 Hsep x)).
  assert (wf vy (heap_of w)) as Hwfy by (by apply (proj1 Hsep y)).
  destruct (wf_cases vy (heap_of w) Hwfy)
    as [(_ & Hc & _)|(b & l & Hv & Hb & _ & _ & _)]; [lia|].
  assert (base (Get (items_ vx)) ≠ Some b) as Hdiff.
  { intros Hbx. apply (proj2 Hsep x y vx vy b); [done..|].
    unfold Get. by rewrite Hv. }
  assert (released vx (delete b (heap_of w)) !! b = None) as Hgone.
  { rewrite released_other by done. apply lookup_delete_eq. }
  exists b, (World (released vx (delete b (heap_of w)))
               (<[y := empty_vector]> (<[x := vy]> (vecs w)))).
  split; [done|].
  split; [by apply move_assign_part_001_run; [..|rewrite Hb| |]|]. simpl.
  split; [by rewrite lookup_insert_ne, lookup_insert_eq|].
  split; [by rewrite lookup_insert_eq|]. split; [done|].
  split; [|split].
  - intros b0 Hb0. by apply released_own.
  - intros d i Hi. unfold call; simpl.
    rewrite lookup_insert_ne, lookup_insert_eq by done.
    unfold invoke, mbind, M_bind. rewrite At_in_range by lia.
    unfold on_heap, read, load, at_index, ptr_add; simpl.
    rewrite Hv; simpl. by rewrite Hgone.
  - unfold destroy; simpl. rewrite lookup_insert_ne, lookup_insert_eq by done.
    unfold ArrayPtr_destroy, delete_array. rewrite Hv; simpl.
    rewrite decide_False; [done|].
    intros [_ Hsome]. rewrite Hgone in Hsome. by destruct Hsome.
Qed.

Lemma part_001_move_assignment_frees_array_witness :
  ∃ b w',
    move_assign part_001 1%nat 0%nat large_small = Ok tt w'
    ∧ vecs w' !! 1%nat = Some (MkVec (MkArrayPtr (Ptr (Some b) 0)) 4 4)
    ∧ heap_of w' !! b = None
    ∧ destroy 1%nat w' = Undefined.
Proof.
  destruct (part_001_move_assignment_frees_array 0 large_small 1%nat 0%nat
              (MkVec (MkArrayPtr (Ptr (Some 1%nat) 0)) 1 1)
              (MkVec (MkArrayPtr (Ptr (Some 0%nat) 0)) 4 4))
    as (b & w' & Hit & Hrun & Hx & _ & Hgone & _ & _ & Hdestroy);
    [apply separated_check_sound; compute_done | lia | reflexivity | reflexivity
    | simpl; lia |].
  exists b, w'. split; [exact Hrun|]. rewrite <- Hit.
  split; [exact Hx|]. split; [exact Hgone | exact Hdestroy].
Defined.

(** X25. [Erase(end())] on a non-empty vector, part_000:156-168 and
    part_001:171-181.  The assertions of part_000 admit [pos == end()]
    although nothing is stored there; in both drafts the call then skips
    the move, decrements the size and returns the old [end()]: it removes
    the last element exactly as [PopBack] does, and the iterator it
    returns lies one past the new [end()]. *)
Theorem Erase_at_end {T} (d : draft) (v : SimpleVector) (h : gmap block (list T)) :
  wf v h → 0 < size_ v →
  let v' := MkVec (items_ v) (size_ v - 1) (capacity_ v) in
  Erase d (end_ v) (St v h) = Ok (end_ v) (St v' h)
  ∧ PopBack d (St v h) = Ok tt (St v' h)
  ∧ wf v' h
  ∧ elements v' h = take (Z.to_nat (size_ v - 1)) (elements v h)
  ∧ ptr_diff (end_ v) (end_ v') = Some 1.
Proof.
  intros Hwf Hpos v'. pose proof (wf_bounds _ _ Hwf) as Hb.
  pose proof max_alloc_lt as Hm.
  split; [by apply Erase_at_end_run|].
  split; [apply PopBack_ok; lia|].
  split; [apply wf_set_size; [done|lia]|].
  split; [apply elements_set_size; [done|lia]|].
  unfold ptr_diff, end_, ptr_add; simpl. rewrite decide_True by done.
  f_equal. lia.
Qed.

Lemma Erase_at_end_witness :
  Erase part_000 (end_ sample_vector) (St sample_vector sample_heap)
  = Ok (end_ sample_vector)
       (St (MkVec (MkArrayPtr (Ptr (Some 0%nat) 0)) 2 4) sample_heap)
  ∧ elements (MkVec (MkArrayPtr (Ptr (Some 0%nat) 0)) 2 4) sample_heap = [1; 2].
Proof.
  destruct (Erase_at_end part_000 sample_vector sample_heap)
    as (Hrun & _ & _ & Hels & _); [compute_done | simpl; lia |].
  split; [exact Hrun | exact Hels].
Defined.

(** ** Reference arguments of [PushBack] and [Insert] *)

(** X26. The growth policy of [Resize], part_000:215-233, and of
    [ResizeCurrentVector], part_000:286-296, as seen through [PushBack] and
    both [Insert] overloads, part_000:106-154.  A [Resize] beyond the
    capacity leaves the capacity
    [max(n, capacity == 0 ? 1 : capacity * 2)] and the old elements
    followed by default values.  On a full vector [PushBack], [Insert] and
    the rvalue [Insert], given a reference to a live object that is not an
    element of the vector's own array, leave the capacity
    [max(size + 1, capacity == 0 ? 1 : capacity * 2)].  When the allocation
    of that many elements fails, each of the four calls throws [bad_alloc]
    and nothing has changed, whatever the argument.  With room left
    [PushBack] and both [Insert] overloads keep the capacity and the
    array, for every reference to a live object. *)
Theorem growth_of_capacity {T} `{EqDecision T} (T_default : T) (d : draft)
    (v : SimpleVector) (h : gmap block (list T)) :
  wf v h →
  (∀ n, capacity_ v < n →
     (grown n (capacity_ v) ≤ max_alloc →
        ∃ v' h', Resize T_default d n (St v h) = Ok tt (St v' h')
                 ∧ wf v' h' ∧ size_ v' = n
                 ∧ capacity_ v' = grown n (capacity_ v)
                 ∧ elements v' h'
                   = elements v h ++ replicate (Z.to_nat (n - size_ v)) T_default)
     ∧ (max_alloc < grown n (capacity_ v) →
        Resize T_default d n (St v h) = Throw bad_alloc (St v h)))
  ∧ (size_ v = capacity_ v →
     (grown (size_ v + 1) (capacity_ v) ≤ max_alloc →
        ∀ (item : ref T) (x : T),
          value_of h item = Some x → ¬ inside v item →
          (∃ v' h', PushBack T_default d item (St v h) = Ok tt (St v' h')
                    ∧ wf v' h' ∧ size_ v' = size_ v + 1
                    ∧ capacity_ v' = grown (size_ v + 1) (capacity_ v)
                    ∧ elements v' h' = elements v h ++ [x])
          ∧ (∀ i, 0 ≤ i ≤ size_ v →
               ∃ v' h',
                 Insert T_default d (ptr_add (begin_ v) i) item (St v h)
                 = Ok (ptr_add (begin_ v') i) (St v' h')
                 ∧ Insert_rvalue T_default d (ptr_add (begin_ v) i) item (St v h)
                   = Ok (ptr_add (begin_ v') i) (St v' h')
                 ∧ wf v' h' ∧ size_ v' = size_ v + 1
                 ∧ capacity_ v' = grown (size_ v + 1) (capacity_ v)))
     ∧ (max_alloc < grown (size_ v + 1) (capacity_ v) →
        ∀ item : ref T,
          PushBack T_default d item (St v h) = Throw bad_alloc (St v h)
          ∧ (∀ i, 0 ≤ i ≤ size_ v →
               Insert T_default d (ptr_add (begin_ v) i) item (St v h)
               = Throw bad_alloc (St v h)
               ∧ Insert_rvalue T_default d (ptr_add (begin_ v) i) item (St v h)
                 = Throw bad_alloc (St v h))))
  ∧ (size_ v < capacity_ v →
     ∀ (item : ref T) (x : T),
       value_of h item = Some x →
       (∃ v' h', PushBack T_default d item (St v h) = Ok tt (St v' h')
                 ∧ wf v' h' ∧ size_ v' = size_ v + 1
                 ∧ capacity_ v' = capacity_ v ∧ items_ v' = items_ v
                 ∧ elements v' h' = elements v h ++ [x])
       ∧ (∀ i, 0 ≤ i ≤ size_ v →
            ∃ v' h',
              Insert T_default d (ptr_add (begin_ v) i) item (St v h)
              = Ok (ptr_add (begin_ v') i) (St v' h')
              ∧ Insert_rvalue T_default d (ptr_add (begin_ v) i) item (St v h)
                = Ok (ptr_add (begin_ v') i) (St v' h')
              ∧ wf v' h' ∧ size_ v' = size_ v + 1
              ∧ capacity_ v' = capacity_ v ∧ items_ v' = items_ v)).
Proof.
  intros Hwf. split; [|split].
  - intros n Hn. split.
    + intros Hmax.
      destruct (Resize_grow_elements T_default d v h n Hwf Hn Hmax)
        as (v' & h' & Hrun & Hsz & Hcap & Hwf' & Hels & _).
      by exists v', h'.
    + intros Hmax. by apply Resize_grow_throw.
  - intros Hfull. split.
    + intros Hmax item x Hval Hout. split.
      * destruct (PushBack_ok T_default d v h item x Hwf)
          as (v' & h' & Hrun & Hsz & Hcap & Hwf' & Hels & _); [done..|].
        rewrite decide_True in Hcap by done. by exists v', h'.
      * intros i Hi.
        destruct (Insert_ok T_default d v h i item x Hwf Hi)
          as (v' & h' & Hrun & Hsz & Hcap & Hwf' & _); [done..|].
        rewrite decide_True in Hcap by done.
        exists v', h'. by rewrite Insert_rvalue_eq.
    + intros Hmax item. split; [by apply PushBack_throw|].
      intros i Hi. rewrite Insert_rvalue_eq by done.
      by rewrite Insert_throw.
  - intros Hroom item x Hval. split.
    + destruct (PushBack_ok T_default d v h item x Hwf)
        as (v' & h' & Hrun & Hsz & Hcap & Hwf' & Hels & _ & Hsame & _);
        [lia|done|lia|].
      rewrite decide_False in Hcap by lia.
      exists v', h'. by rewrite Hsame.
    + intros i Hi.
      destruct (Insert_defined T_default d v h i item Hwf Hi)
        as (v' & h' & Hrun & Hwf' & Hsz & Hcap & Hsame); [lia|done|lia|].
      rewrite decide_False in Hcap by lia.
      exists v', h'. rewrite Insert_rvalue_eq by done. by rewrite Hsame.
Qed.

Lemma growth_of_capacity_witness :
  (∃ v' h', Resize 0 part_000 7 (St full_vector full_heap) = Ok tt (St v' h')
            ∧ capacity_ v' = 7 ∧ elements v' h' = [1; 2; 0; 0; 0; 0; 0])
  ∧ (∃ v' h', Insert_rvalue 0 part_000 (ptr_add (begin_ full_vector) 1) (Outside 9)
                (St full_vector full_heap)
              = Ok (ptr_add (begin_ v') 1) (St v' h')
              ∧ capacity_ v' = 4).
Proof.
  destruct (growth_of_capacity 0 part_000 full_vector full_heap)
    as (Hresize & Hfull & _); [compute_done|].
  split.
  - destruct (Hresize 7) as [Hok _]; [simpl; lia|].
    destruct Hok as (v' & h' & Hrun & _ & _ & Hcap & Hels);
      [vm_compute; discriminate|].
    exists v', h'. split; [exact Hrun|]. split; [exact Hcap | exact Hels].
  - destruct Hfull as [Hok _]; [reflexivity|].
    destruct (Hok ltac:(vm_compute; discriminate) (Outside 9) 9) as [_ Hins];
      [reflexivity | simpl; tauto |].
    destruct (Hins 1) as (v' & h' & _ & Hrun & _ & _ & Hcap); [simpl; lia|].
    exists v', h'. split; [exact Hrun | exact Hcap].
Defined.

(** X27. [Insert(begin() + i, value)] for [0 <= i <= size], both
    overloads, part_000:124-154 and part_001:140-168, where [value] is a
    reference to a live object holding [x] that is not an element of the
    vector's own array: the size grows by one, the elements below [i] keep
    their values, [x] is at index [i], the elements formerly at
    [i .. size-1] are at [i+1 .. size] in the same order, and the result
    is the iterator to index [i] of the array the vector has afterwards.
    With [size == capacity] the growth policy chooses the new capacity and
    the array is a new one: the index was taken from the position before
    the reallocation.  With room left the array and the capacity are the
    same. *)
Theorem Insert_places_value {T} `{EqDecision T} (T_default : T) (d : draft)
    (v : SimpleVector) (h : gmap block (list T)) (i : Z) (value : ref T) (x : T) :
  wf v h → 0 ≤ i ≤ size_ v →
  (size_ v = capacity_ v → grown (size_ v + 1) (capacity_ v) ≤ max_alloc) →
  value_of h value = Some x → ¬ inside v value →
  ∃ v' h',
    Insert T_default d (ptr_add (begin_ v) i) value (St v h)
    = Ok (ptr_add (begin_ v') i) (St v' h')
    ∧ Insert_rvalue T_default d (ptr_add (begin_ v) i) value (St v h)
      = Ok (ptr_add (begin_ v') i) (St v' h')
    ∧ wf v' h'
    ∧ size_ v' = size_ v + 1
    ∧ elements v' h'
      = take (Z.to_nat i) (elements v h) ++ x :: drop (Z.to_nat i) (elements v h)
    ∧ (∀ k, (k < Z.to_nat i)%nat → elements v' h' !! k = elements v h !! k)
    ∧ elements v' h' !! Z.to_nat i = Some x
    ∧ (∀ k, (Z.to_nat i ≤ k)%nat → elements v' h' !! S k = elements v h !! k)
    ∧ load h' (ptr_add (begin_ v') i) = Some x
    ∧ capacity_ v' = (if decide (size_ v = capacity_ v)
                      then grown (size_ v + 1) (capacity_ v) else capacity_ v)
    ∧ (size_ v < capacity_ v → items_ v' = items_ v)
    ∧ (size_ v = capacity_ v → relocated h v').
Proof.
  intros Hwf Hi Hmax Hval Hout. pose proof (elements_length _ _ Hwf) as Hel.
  destruct (Insert_ok T_default d v h i value x Hwf Hi Hmax Hval Hout)
    as (v' & h' & Hrun & Hsz & Hcap & Hwf' & Hels & Hfr & Hsame & Hrel).
  exists v', h'. rewrite Insert_rvalue_eq by done.
  assert (elements v' h' !! Z.to_nat i = Some x) as Hx.
  { rewrite Hels, lookup_app_r by (rewrite length_take; lia).
    rewrite length_take. by replace (Z.to_nat i - _)%nat with 0%nat by lia. }
  split; [done|]. split; [done|]. split; [done|]. split; [done|]. split; [done|].
  split; [|split; [done|split; [|split]]].
  - intros k Hk. rewrite Hels, lookup_app_l by (rewrite length_take; lia).
    by rewrite lookup_take_lt.
  - intros k Hk. rewrite Hels, lookup_app_r by (rewrite length_take; lia).
    rewrite length_take.
    replace (S k - _)%nat with (S (k - Z.to_nat i)) by lia. simpl.
    rewrite lookup_drop. f_equal. lia.
  - unfold begin_, Get. fold (at_index (items_ v') i).
    rewrite load_at_index by (done || lia).
    unfold elements in Hx. apply lookup_take_Some in Hx. tauto.
  - done.
Qed.

Lemma Insert_places_value_witness :
  ∃ v' h',
    Insert 0 part_000 (ptr_add (begin_ full_vector) 1) (Outside 9)
      (St full_vector full_heap)
    = Ok (ptr_add (begin_ v') 1) (St v' h')
    ∧ elements v' h' = [1; 9; 2] ∧ capacity_ v' = 4.
Proof.
  destruct (Insert_places_value 0 part_000 full_vector full_heap 1 (Outside 9) 9)
    as (v' & h' & Hrun & _ & _ & _ & Hels & _ & _ & _ & _ & Hcap & _);
    [compute_done | simpl; lia | intros _; vm_compute; discriminate
     | reflexivity | simpl; tauto |].
  exists v', h'. split; [exact Hrun|]. split; [exact Hels | exact Hcap].
Defined.

(** X28. [PushBack] and [Insert] given a reference to an element of the
    vector itself, as in [v.PushBack(v[j])] and [v.Insert(pos, v[j])],
    part_000:106-154, 185-189 and 286-296.  Both read the reference after
    [ResizeCurrentVector], and [Insert] after it has shifted the elements.
    With room left [PushBack] appends the value of element [j]; [Insert]
    at index [i] stores the value of element [j] when [j <= i], and the
    value of element [j - 1] when [i < j], because the shift has copied
    that element to place [j].  On a full vector, where the call
    reallocates, the reference points into the array that [Resize] has
    deleted by the time it is read: the behaviour of [PushBack] and of
    both [Insert] overloads is undefined. *)
Theorem own_element_argument {T} `{EqDecision T} (T_default : T) (d : draft)
    (v : SimpleVector) (h : gmap block (list T)) (j : Z) (y : T) :
  wf v h → 0 ≤ j < size_ v → elements v h !! Z.to_nat j = Some y →
  subscript d j (St v h) = Ok (at_index (items_ v) j) (St v h)
  ∧ value_of h (Place (at_index (items_ v) j)) = Some y
  ∧ (size_ v < capacity_ v →
     (∃ v' h',
        PushBack T_default d (Place (at_index (items_ v) j)) (St v h)
        = Ok tt (St v' h')
        ∧ wf v' h' ∧ elements v' h' = elements v h ++ [y])
     ∧ (∀ i, 0 ≤ i ≤ size_ v →
          ∃ z v' h',
            elements v h !! Z.to_nat (if decide (j ≤ i) then j else j - 1) = Some z
            ∧ Insert T_default d (ptr_add (begin_ v) i)
                (Place (at_index (items_ v) j)) (St v h)
              = Ok (ptr_add (begin_ v') i) (St v' h')
            ∧ Insert_rvalue T_default d (ptr_add (begin_ v) i)
                (Place (at_index (items_ v) j)) (St v h)
              = Ok (ptr_add (begin_ v') i) (St v' h')
            ∧ wf v' h'
            ∧ elements v' h'
              = take (Z.to_nat i) (elements v h)
                ++ z :: drop (Z.to_nat i) (elements v h)))
  ∧ (size_ v = capacity_ v → grown (size_ v + 1) (capacity_ v) ≤ max_alloc →
     PushBack T_default d (Place (at_index (items_ v) j)) (St v h) = Undefined
     ∧ (∀ i, 0 ≤ i ≤ size_ v →
          Insert T_default d (ptr_add (begin_ v) i)
            (Place (at_index (items_ v) j)) (St v h) = Undefined
          ∧ Insert_rvalue T_default d (ptr_add (begin_ v) i)
              (Place (at_index (items_ v) j)) (St v h) = Undefined)).
Proof.
  intros Hwf Hj Hy. pose proof (wf_bounds _ _ Hwf) as Hb.
  pose proof (elements_length _ _ Hwf) as Hel.
  assert (value_of h (Place (at_index (items_ v) j)) = Some y) as Hval.
  { simpl. rewrite load_at_index by (done || lia).
    rewrite <- Hy. symmetry. apply elements_lookup. lia. }
  assert (inside v (Place (at_index (items_ v) j) : ref T)) as Hin by done.
  split; [apply subscript_in_range; lia|]. split; [done|]. split.
  - intros Hroom. split.
    + destruct (PushBack_ok T_default d v h (Place (at_index (items_ v) j)) y Hwf)
        as (v' & h' & Hrun & _ & _ & Hwf' & Hels & _); [lia|done|lia|].
      by exists v', h'.
    + intros i Hi.
      destruct (lookup_lt_is_Some_2 (elements v h)
                  (Z.to_nat (if decide (j ≤ i) then j else j - 1))) as [z Hz];
        [case_decide; lia|].
      destruct (Insert_own_room T_default d v h i j z Hwf Hroom Hi Hj Hz)
        as (v' & h' & Hrun & _ & _ & Hwf' & Hels & _).
      exists z, v', h'. by rewrite Insert_rvalue_eq.
  - intros Hfull Hmax. split; [by apply PushBack_inside_full|].
    intros i Hi. rewrite Insert_rvalue_eq by done.
    by rewrite Insert_inside_full.
Qed.

Lemma own_element_argument_witness :
  ∃ z v' h',
    [1; 2; 3] !! Z.to_nat (if decide (2 ≤ 0) then 2 else 2 - 1) = Some z
    ∧ Insert 0 part_000 (ptr_add (begin_ sample_vector) 0)
        (Place (at_index (items_ sample_vector) 2)) (St sample_vector sample_heap)
      = Ok (ptr_add (begin_ v') 0) (St v' h')
    ∧ elements v' h' = [z; 1; 2; 3].
Proof.
  destruct (own_element_argument 0 part_000 sample_vector sample_heap 2 3)
    as (_ & _ & Hroom & _); [compute_done | simpl; lia | reflexivity |].
  destruct Hroom as [_ Hins]; [simpl; lia|].
  destruct (Hins 0) as (z & v' & h' & Hz & Hrun & _ & _ & Hels); [simpl; lia|].
  exists z, v', h'. split; [exact Hz|]. split; [exact Hrun | exact Hels].
Defined.
